(** * ros2cli helpers and the [ros2 param list] verb

    A shallow embedding of

    - [ros2cli/ros2cli/helpers.py]: [wait_for], [bind], [pretty_print_call]
      and [before_invocation];
    - [ros2param/ros2param/verb/list.py]: [ListVerb.main].

    Python code that talks to the outside (the clock, the predicate handed
    to [wait_for], the middleware client library) is modelled by explicit
    state passing over a world, and every observable action is recorded in
    a trace of events.  Loops that Python may run for ever take a fuel
    argument, and a run can end by the fuel running out ([None] for
    [wait_for], [OutOfFuel] for the verb). *)

From Stdlib Require Import List String Ascii Bool Arith Lia.
From Stdlib Require Import NArith QArith Lqa.
From Stdlib Require Import Sorting.Sorted Sorting.Permutation.
Import ListNotations.

Set Implicit Arguments.

(** ** Python dictionaries

    A [dict] keeps its keys in insertion order, and [d[k] = v] on a key
    that is already there replaces the value in place. *)

Module Dict.

Section Ops.

Variables K V : Type.
Variable eqb : K -> K -> bool.

Definition dict : Type := list (K * V).

Definition keys (d : dict) : list K := map fst d.

Definition values (d : dict) : list V := map snd d.

(** [d[k]]; [None] stands for [KeyError]. *)
Fixpoint get (d : dict) (k : K) : option V :=
  match d with
  | [] => None
  | (k', v) :: d' => if eqb k' k then Some v else get d' k
  end.

(** [k in d]. *)
Definition mem (d : dict) (k : K) : bool :=
  match get d k with Some _ => true | None => false end.

(** [d[k] = v]. *)
Fixpoint set (d : dict) (k : K) (v : V) : dict :=
  match d with
  | [] => [(k, v)]
  | (k', v') :: d' =>
      if eqb k' k then (k', v) :: d' else (k', v') :: set d' k v
  end.

(** [d.update(d2)]. *)
Definition update (d d2 : dict) : dict :=
  fold_left (fun acc kv => set acc (fst kv) (snd kv)) d2 d.

End Ops.

End Dict.

(** ** ros2cli/helpers.py *)

Module Helpers.

(** *** [wait_for] *)

(** Time values are seconds.  Python computes with floats; the model takes
    rationals and adds [float('+inf')] as a separate value, since only the
    comparisons decide the control flow. *)
Inductive xtime : Type :=
| Finite (q : Q)
| PlusInf.

(** [t + timeout] where [timeout] may be [+inf], as the exact sum; the
    float sum of Python is taken up in [HelpersRounding]. *)
Definition xadd (t : Q) (timeout : xtime) : xtime :=
  match timeout with
  | Finite q => Finite (t + q)
  | PlusInf => PlusInf
  end.

(** [x < y] on rationals, as a boolean. *)
Definition Qltb (x y : Q) : bool := negb (Qle_bool y x).

(** [t > deadline]. *)
Definition past (t : Q) (deadline : xtime) : bool :=
  match deadline with
  | Finite d => Qltb d t
  | PlusInf => false
  end.

(** What [wait_for] does that can be seen from outside, in program order.
    [EvBreak] marks the [break] of line 31. *)
Inductive event : Type :=
| EvTime (t : Q)
| EvPredicate (b : bool)
| EvSleep (period : Q)
| EvBreak.

Definition is_break (e : event) : bool :=
  match e with EvBreak => true | _ => false end.

Section WaitFor.

(** The world holds whatever the predicate and the clock depend on; a call
    to the predicate, to [time.time] or to [time.sleep] is taken to return. *)
Variable World : Type.
Variable predicate : World -> bool * World.
Variable time_time : World -> Q * World.
Variable time_sleep : Q -> World -> World.

(** [return predicate()] (line 33). *)
Definition final_check (w : World) : bool * World * list event :=
  let (r, w') := predicate w in (r, w', [EvPredicate r]).

Definition prepend (evs : list event) (res : bool * World * list event)
  : bool * World * list event :=
  let '(r, w, tr) := res in (r, w, evs ++ tr).

(** Lines 29-33: the [while] loop followed by the [return]. *)
Fixpoint wait_for_loop (fuel : nat) (deadline : xtime) (period : Q)
    (w : World) : option (bool * World * list event) :=
  match fuel with
  | O => None
  | S fuel' =>
      let (p, w1) := predicate w in
      if p then
        Some (prepend [EvPredicate true] (final_check w1))
      else
        let (t, w2) := time_time w1 in
        if past t deadline then
          Some (prepend [EvPredicate false; EvTime t; EvBreak]
                        (final_check w2))
        else
          option_map
            (prepend [EvPredicate false; EvTime t; EvSleep period])
            (wait_for_loop fuel' deadline period (time_sleep period w2))
  end.

(** The world at the head of the loop once [n] rounds have found the
    predicate false and the deadline not passed, with the events of these
    rounds; [None] when the loop ends before. *)
Fixpoint after_rounds (n : nat) (deadline : xtime) (period : Q) (w : World)
  : option (World * list event) :=
  match n with
  | O => Some (w, [])
  | S n' =>
      let (p, w1) := predicate w in
      if p then None
      else
        let (t, w2) := time_time w1 in
        if past t deadline then None
        else
          option_map
            (fun r => (fst r,
                       [EvPredicate false; EvTime t; EvSleep period] ++ snd r))
            (after_rounds n' deadline period (time_sleep period w2))
  end.

(** How the loop can end: the events of a run that returns [b] in world
    [w'], by the predicate found true or by the deadline found passed, with
    the evaluation of line 33 last. *)
Inductive exit_of (deadline : xtime) : list event -> bool -> World -> Prop :=
| exit_true : forall tr0 w1 b w',
    predicate w1 = (b, w') ->
    exit_of deadline (tr0 ++ [EvPredicate true; EvPredicate b]) b w'
| exit_deadline : forall tr0 t w2 b w',
    past t deadline = true ->
    predicate w2 = (b, w') ->
    exit_of deadline
            (tr0 ++ [EvPredicate false; EvTime t; EvBreak; EvPredicate b]) b w'.

(** Lines 26-27. *)
Definition effective_timeout (timeout : Q) : xtime :=
  if Qltb timeout 0 then PlusInf else Finite timeout.

(** [wait_for(predicate, timeout, period)]. *)
Definition wait_for (fuel : nat) (timeout period : Q) (w : World)
  : option (bool * World * list event) :=
  let timeout' := effective_timeout timeout in
  let (t0, w0) := time_time w in
  let deadline := xadd t0 timeout' in
  option_map (prepend [EvTime t0])
             (wait_for_loop fuel deadline period w0).

End WaitFor.

(** *** [bind] *)

(** The kinds of parameters of [inspect.Parameter]. *)
Inductive param_kind : Type :=
| PositionalOnly
| PositionalOrKeyword
| VarPositional
| KeywordOnly
| VarKeyword.

(** An [inspect.Signature]: the parameters in order. *)
Definition signature : Type := list (string * param_kind).

(** The signature of [def wrapper( *args, **kwargs)]. *)
Definition variadic_signature : signature :=
  [("args"%string, VarPositional); ("kwargs"%string, VarKeyword)].

Section Bind.

(** Python objects, and what a call amounts to (a value, an exception, an
    effect on the world): both are left open. *)
Variable Value : Type.
Variable Result : Type.

Definition kwargs_t : Type := Dict.dict string Value.

(** A Python function object, with the attributes that [functools.wraps]
    and [inspect.signature] read or write. *)
#[warnings="-register-all"]
Inductive pyfunction : Type :=
  PyFunction
    (call : list Value -> kwargs_t -> Result)
    (name : string)
    (doc : option string)
    (code_signature : signature)
    (signature_attr : option signature)
    (wrapped : option pyfunction).

Definition fn_call (f : pyfunction) : list Value -> kwargs_t -> Result :=
  match f with PyFunction c _ _ _ _ _ => c end.

Definition fn_name (f : pyfunction) : string :=
  match f with PyFunction _ n _ _ _ _ => n end.

Definition fn_doc (f : pyfunction) : option string :=
  match f with PyFunction _ _ d _ _ _ => d end.

Definition fn_code_signature (f : pyfunction) : signature :=
  match f with PyFunction _ _ _ s _ _ => s end.

Definition fn_signature_attr (f : pyfunction) : option signature :=
  match f with PyFunction _ _ _ _ s _ => s end.

Definition fn_wrapped (f : pyfunction) : option pyfunction :=
  match f with PyFunction _ _ _ _ _ w => w end.

(** [inspect.signature(f)]: the [__signature__] attribute when it is set,
    else the signature of [__wrapped__], else the one of the code. *)
Fixpoint inspect_signature (f : pyfunction) : signature :=
  match f with
  | PyFunction _ _ _ code (Some s) _ => s
  | PyFunction _ _ _ code None (Some g) => inspect_signature g
  | PyFunction _ _ _ code None None => code
  end.

(** [functools.partial(func, *args, **kwargs)], called with
    [( *fargs, **fkwargs)]. *)
Definition partial_call (func : pyfunction) (args : list Value)
    (kwargs : kwargs_t) (fargs : list Value) (fkwargs : kwargs_t) : Result :=
  fn_call func (args ++ fargs) (Dict.update String.eqb kwargs fkwargs).

(** [bind(func, *args, **kwargs)] (lines 36-48). *)
Definition bind (func : pyfunction) (args : list Value) (kwargs : kwargs_t)
  : pyfunction :=
  PyFunction
    (fun fargs fkwargs => partial_call func args kwargs fargs fkwargs)
    (fn_name func)
    (fn_doc func)
    variadic_signature
    (Some (inspect_signature func))
    (Some func).

End Bind.

End Helpers.

(** ** ros2param/verb/list.py *)

Module ParamList.

(** *** Collaborators declared outside the two files *)

(** [NodeName] comes from [ros2node.api].  The verb reads its [full_name],
    uses node names as dictionary keys and hands them to [sorted]: equality
    and order are those of the type itself. *)
Class NodeNameOps (NodeName : Type) : Type := {
  full_name : NodeName -> string;
  node_eqb : NodeName -> NodeName -> bool;
  node_leb : NodeName -> NodeName -> bool;
  node_eqb_eq : forall a b, node_eqb a b = true <-> a = b;
  node_leb_total : forall a b, node_leb a b = true \/ node_leb b a = true;
  node_leb_trans : forall a b c,
    node_leb a b = true -> node_leb b c = true -> node_leb a c = true;
  node_leb_antisym : forall a b,
    node_leb a b = true -> node_leb b a = true -> a = b
}.

(** Python's [re]: [re.compile] ([None] stands for [re.error]) and the
    truth value of [pattern.match(string)]. *)
Class RegexEngine (Pattern : Type) : Type := {
  re_compile : string -> option Pattern;
  re_match : Pattern -> string -> bool
}.

(** The parsed command line ([args]). *)
Record Args : Type := {
  args_node_name : option string;
  args_filter : option string;
  args_include_hidden_nodes : bool;
  args_param_prefixes : list string;
  args_param_type : bool
}.

(** A client made by [node.create_client(ListParameters, service_name)].
    Every call makes a new object: [client_id] counts the clients made
    before it. *)
Record Client : Type := { client_id : nat; client_service_name : string }.

(** [ListParameters.Request]. *)
Record Request : Type := { request_prefixes : list string }.

(** The future returned by [client.call_async(request)]; [future_round] is
    the number of [spin_once] calls made before it. *)
Record Future : Type := {
  future_client : Client;
  future_request : Request;
  future_round : nat
}.

(** [ListParameters.Response]: [names] stands for [response.result.names]. *)
Record Response : Type := { names : list string }.

(** Modelled from the spec: the future type of the middleware client
    library is missing; a dispatched call ends as completed with a
    response, failed with an exception that can be retrieved from the
    future, or timed out, in which case its result is absent. *)
Inductive call_state : Type :=
| Completed (response : Response)
| Failed (e : string)
| TimedOut.

(** [future.result()]. *)
Definition future_result (s : call_state) : option Response :=
  match s with
  | Completed r => Some r
  | Failed _ => None
  | TimedOut => None
  end.

(** [future.exception()]. *)
Definition future_exception (s : call_state) : option string :=
  match s with
  | Completed _ => None
  | Failed e => Some e
  | TimedOut => None
  end.

(** A [ParameterDescriptor], as far as the verb reads it. *)
Record Descriptor : Type := { descriptor_name : string; descriptor_type : N }.

(** What the outside answers.  [get_node_names], [get_service_names],
    [get_absolute_node_name], [call_describe_parameters] and
    [get_parameter_type_string] are functions of other packages, taken to
    return; [service_is_ready] answers for a client at a poll round and
    [future_state] gives the state of a future once
    [spin_until_future_complete] has returned. *)
Record World (NodeName : Type) : Type := {
  get_node_names : bool -> list NodeName;
  get_service_names : bool -> list string;
  get_absolute_node_name : option string -> option string;
  service_is_ready : Client -> nat -> bool;
  future_state : Future -> call_state;
  call_describe_parameters : string -> list string -> list Descriptor;
  get_parameter_type_string : N -> string
}.

(** *** Output *)

(** The three [print] calls that write to standard output (lines 121, 135
    and 137). *)
Inductive out_line : Type :=
| Header (node : string)
| Item (name : string)
| TypedItem (name type_str : string).

Definition render (l : out_line) : string :=
  match l with
  | Header node => node ++ ":"
  | Item name => "  " ++ name
  | TypedItem name type_str => "  " ++ name ++ " (type: " ++ type_str ++ ")"
  end.

(** [f'{e}'] for the value of [future.exception()]. *)
Definition format_exception (e : option string) : string :=
  match e with
  | Some s => s
  | None => "None"
  end.

(** The line of lines 112-114. *)
Definition error_line (node : string) (e : option string) : string :=
  "Exception while calling service of node '" ++ node ++ "': "
    ++ format_exception e.

Inductive event : Type :=
| EvGetNodeNames (include_hidden : bool)
| EvGetServiceNames (include_hidden : bool)
| EvCreateClient (service_name : string)
| EvServiceIsReady (client : Client) (ready : bool)
| EvCallAsync (client : Client) (request : Request)
| EvSpinOnce
| EvSpinUntilFutureComplete (future : Future)
| EvDescribeParameters (node : string) (parameter_names : list string)
| EvStdout (line : out_line)
| EvStderr (line : string).

(** What was written to standard output and to standard error. *)
Fixpoint stdout_of (evs : list event) : list out_line :=
  match evs with
  | [] => []
  | EvStdout l :: evs' => l :: stdout_of evs'
  | _ :: evs' => stdout_of evs'
  end.

Fixpoint stderr_of (evs : list event) : list string :=
  match evs with
  | [] => []
  | EvStderr l :: evs' => l :: stderr_of evs'
  | _ :: evs' => stderr_of evs'
  end.

(** The clients that were called, in the order of the calls. *)
Fixpoint calls_of (evs : list event) : list Client :=
  match evs with
  | [] => []
  | EvCallAsync c _ :: evs' => c :: calls_of evs'
  | _ :: evs' => calls_of evs'
  end.

Definition is_create_client (e : event) : bool :=
  match e with EvCreateClient _ => true | _ => false end.

(** The calls to remote services: [ListParameters] and
    [DescribeParameters]. *)
Definition is_rpc_call (e : event) : bool :=
  match e with
  | EvCallAsync _ _ => true
  | EvDescribeParameters _ _ => true
  | _ => false
  end.

Definition is_output (e : event) : bool :=
  match e with
  | EvStdout _ => true
  | EvStderr _ => true
  | _ => false
  end.


(** *** Python builtins *)

(** Truth value of a string or [None]. *)
Definition truthy (s : option string) : bool :=
  match s with
  | Some (String _ _) => true
  | Some EmptyString => false
  | None => false
  end.

Definition nonempty (A : Type) (l : list A) : bool :=
  match l with [] => false | _ :: _ => true end.

(** [x in l] for a list of strings. *)
Definition str_in (x : string) (l : list string) : bool :=
  existsb (String.eqb x) l.

Section Sorting.

Variable A : Type.
Variable leb : A -> A -> bool.

Fixpoint insert (x : A) (l : list A) : list A :=
  match l with
  | [] => [x]
  | y :: l' => if leb x y then x :: l else y :: insert x l'
  end.

(** [sorted(l)]: the stable sort of [l]. *)
Definition sorted (l : list A) : list A := fold_right insert [] l.

(** The order that [leb] decides. *)
Definition le_of (a b : A) : Prop := leb a b = true.

End Sorting.

(** *** The verb *)

Section Verb.

Context {NodeName : Type} {ops : NodeNameOps NodeName}.
Context {Pattern : Type} {engine : RegexEngine Pattern}.

(** The exceptions the verb can raise by itself. *)
Inductive exn : Type :=
| KeyErrorNode (key : NodeName)
| KeyErrorName (key : string)
| ReError (pattern : string).

(** How a piece of the verb ends. *)
Inductive result (A : Type) : Type :=
| Ok (a : A)
| Raised (e : exn)
| OutOfFuel.

Arguments Ok {A} a.
Arguments Raised {A} e.
Arguments OutOfFuel {A}.

(** A computation: the events it emitted and how it ended. *)
Definition M (A : Type) : Type := (list event * result A)%type.

Definition ret (A : Type) (a : A) : M A := ([], Ok a).

Definition raise {A : Type} (e : exn) : M A := ([], Raised e).

Definition emit (e : event) : M unit := ([e], Ok tt).

Definition bindM (A B : Type) (c : M A) (k : A -> M B) : M B :=
  match c with
  | (evs, Ok a) => let (evs', r) := k a in (evs ++ evs', r)
  | (evs, Raised e) => (evs, Raised e)
  | (evs, OutOfFuel) => (evs, OutOfFuel)
  end.

Notation "x <- c ;; k" := (bindM c (fun x => k))
  (at level 61, c at next level, right associativity).
Notation "c ;; k" := (bindM c (fun _ => k))
  (at level 61, right associativity).

(** [for x in l: body(x)]. *)
Fixpoint for_each (A : Type) (body : A -> M unit) (l : list A) : M unit :=
  match l with
  | [] => ret tt
  | x :: l' => body x ;; for_each body l'
  end.

Variable w : World NodeName.

(** Lines 62-66: [None] stands for the early [return]. *)
Definition narrow (node_name : option string) (node_names : list NodeName)
  : option (list NodeName) :=
  match node_name with
  | Some n =>
      if truthy node_name then
        if negb (str_in n (map full_name node_names)) then None
        else Some (List.filter (fun x => String.eqb n (full_name x))
                               node_names)
      else Some node_names
  | None => Some node_names
  end.

(** Lines 68-70. *)
Definition compile_filter (args : Args) : M (option Pattern) :=
  match args_filter args with
  | None => ret None
  | Some pattern =>
      match re_compile pattern with
      | Some p => ret (Some p)
      | None => raise (ReError pattern)
      end
  end.

(** Lines 79-83, started with [clients = {}] and no client made yet. *)
Fixpoint create_clients (service_names : list string)
    (node_names : list NodeName) (next_id : nat)
    (clients : Dict.dict NodeName Client) : M (Dict.dict NodeName Client) :=
  match node_names with
  | [] => ret clients
  | node_name :: rest =>
      let service_name := (full_name node_name ++ "/list_parameters")%string in
      if str_in service_name service_names then
        emit (EvCreateClient service_name) ;;
        create_clients service_names rest (S next_id)
          (Dict.set node_eqb clients node_name
                    {| client_id := next_id;
                       client_service_name := service_name |})
      else create_clients service_names rest next_id clients
  end.

(** Lines 93-95. *)
Definition build_request (args : Args) : Request :=
  {| request_prefixes :=
       fold_left (fun prefixes prefix => prefixes ++ [prefix])
                 (args_param_prefixes args) [] |}.

(** Lines 87-97: one pass over the clients that have no future yet. *)
Fixpoint dispatch_ready (args : Args) (round : nat)
    (clients : Dict.dict NodeName Client) (pending : list NodeName)
    (futures : Dict.dict NodeName Future) : M (Dict.dict NodeName Future) :=
  match pending with
  | [] => ret futures
  | node_name :: rest =>
      match Dict.get node_eqb clients node_name with
      | None => raise (KeyErrorNode node_name)
      | Some client =>
          let ready := service_is_ready w client round in
          emit (EvServiceIsReady client ready) ;;
          if ready then
            let request := build_request args in
            emit (EvCallAsync client request) ;;
            dispatch_ready args round clients rest
              (Dict.set node_eqb futures node_name
                 {| future_client := client;
                    future_request := request;
                    future_round := round |})
          else dispatch_ready args round clients rest futures
      end
  end.

(** Lines 86-101: [while True]. *)
Fixpoint dispatch_loop (fuel round : nat) (args : Args)
    (clients : Dict.dict NodeName Client)
    (futures : Dict.dict NodeName Future) : M (Dict.dict NodeName Future) :=
  match fuel with
  | O => ([], OutOfFuel)
  | S fuel' =>
      let pending :=
        List.filter (fun n => negb (Dict.mem node_eqb futures n))
                    (Dict.keys clients) in
      futures' <- dispatch_ready args round clients pending futures ;;
      if Nat.eqb (List.length futures') (List.length clients) then ret futures'
      else
        emit EvSpinOnce ;;
        dispatch_loop fuel' (S round) args clients futures'
  end.

(** Lines 104-105. *)
Definition wait_for_responses (futures : Dict.dict NodeName Future) : M unit :=
  for_each (fun future => emit (EvSpinUntilFutureComplete future))
           (Dict.values futures).

(** Lines 123-130. *)
Definition build_type_map (descriptors : list Descriptor)
  : Dict.dict string string :=
  fold_left
    (fun name_to_type_map descriptor =>
       Dict.set String.eqb name_to_type_map (descriptor_name descriptor)
         (get_parameter_type_string w (descriptor_type descriptor)))
    descriptors [].

(** Lines 132-137. *)
Definition print_names (param_type : bool)
    (name_to_type_map : Dict.dict string string) (sorted_names : list string)
  : M unit :=
  for_each
    (fun name =>
       if param_type then
         match Dict.get String.eqb name_to_type_map name with
         | Some param_type_str => emit (EvStdout (TypedItem name param_type_str))
         | None => raise (KeyErrorName name)
         end
       else emit (EvStdout (Item name)))
    sorted_names.

(** Lines 117-119. *)
Definition filtered_names (regex_filter : option Pattern) (response : Response)
  : list string :=
  let sorted_names := sorted String.leb (names response) in
  match regex_filter with
  | Some p => List.filter (re_match p) sorted_names
  | None => sorted_names
  end.

(** Lines 109-137: the body of the [for] over the sorted node names. *)
Definition report_node (args : Args) (regex_filter : option Pattern)
    (futures : Dict.dict NodeName Future) (node_name : NodeName) : M unit :=
  match Dict.get node_eqb futures node_name with
  | None => raise (KeyErrorNode node_name)
  | Some future =>
      match future_result (future_state w future) with
      | None =>
          let e := future_exception (future_state w future) in
          emit (EvStderr (error_line (full_name node_name) e))
      | Some response =>
          let sorted_names := filtered_names regex_filter response in
          (if negb (truthy (args_node_name args)) && nonempty sorted_names
           then emit (EvStdout (Header (full_name node_name)))
           else ret tt) ;;
          name_to_type_map <-
            (if args_param_type args then
               emit (EvDescribeParameters (full_name node_name) sorted_names) ;;
               ret (build_type_map
                      (call_describe_parameters w (full_name node_name)
                                                sorted_names))
             else ret []) ;;
          print_names (args_param_type args) name_to_type_map sorted_names
      end
  end.

(** Lines 108-137. *)
Definition print_responses (args : Args) (regex_filter : option Pattern)
    (futures : Dict.dict NodeName Future) : M unit :=
  for_each (report_node args regex_filter futures)
           (sorted node_leb (Dict.keys futures)).

(** [ListVerb.main]: the value is what [main] returns, [None] for the
    implicit return at the end. *)
Definition main (fuel : nat) (args : Args) : M (option string) :=
  let include_hidden := args_include_hidden_nodes args in
  emit (EvGetNodeNames include_hidden) ;;
  let node_names := get_node_names w include_hidden in
  let node_name := get_absolute_node_name w (args_node_name args) in
  match narrow node_name node_names with
  | None => ret (Some "Node not found"%string)
  | Some node_names =>
      regex_filter <- compile_filter args ;;
      emit (EvGetServiceNames include_hidden) ;;
      let service_names := get_service_names w include_hidden in
      clients <- create_clients service_names node_names 0 [] ;;
      futures <- dispatch_loop fuel 0 args clients [] ;;
      wait_for_responses futures ;;
      print_responses args regex_filter futures ;;
      ret None
  end.

(** *** Vocabulary of the properties *)

(** The name of the service that line 80 derives from a node. *)
Definition service_of (node_name : NodeName) : string :=
  (full_name node_name ++ "/list_parameters")%string.

Definition has_service (service_names : list string) (node_name : NodeName)
  : bool :=
  str_in (service_of node_name) service_names.

(** What holds of the pool while it is built: one entry per key, clients
    that differ by their identity, made before [next_id], each for the
    service of its node. *)
Definition clients_ok (next_id : nat) (clients : Dict.dict NodeName Client)
  : Prop :=
  NoDup (Dict.keys clients)
  /\ NoDup (map client_id (Dict.values clients))
  /\ (forall c, In c (Dict.values clients) -> (client_id c < next_id)%nat)
  /\ (forall k c, In (k, c) clients -> client_service_name c = service_of k).


(** What holds of the futures all along: one entry per key, and the future
    of a node comes from the client of that node. *)
Definition futures_ok (clients : Dict.dict NodeName Client)
    (futures : Dict.dict NodeName Future) : Prop :=
  NoDup (Dict.keys futures)
  /\ forall k f, In (k, f) futures ->
       Dict.get node_eqb clients k = Some (future_client f).

(** The future of lines 93-97. *)
Definition future_of (args : Args) (round : nat) (client : Client) : Future :=
  {| future_client := client;
     future_request := build_request args;
     future_round := round |}.

(** The list that lines 87-89 iterate over. *)
Definition pending_of (clients : Dict.dict NodeName Client)
    (futures : Dict.dict NodeName Future) : list NodeName :=
  List.filter (fun n => negb (Dict.mem node_eqb futures n))
              (Dict.keys clients).

(** The state of the call made for a node, whether it gave no result, and
    the line of standard error that goes with it. *)
Definition state_of (futures : Dict.dict NodeName Future)
    (node_name : NodeName) : option call_state :=
  option_map (future_state w) (Dict.get node_eqb futures node_name).



(** Whether line 121 prints the header, and the events of lines 120-121
    and 125-127. *)
Definition header_shown (args : Args) (sorted_names : list string) : bool :=
  negb (truthy (args_node_name args)) && nonempty sorted_names.

Definition header_events (args : Args) (node_name : NodeName)
    (sorted_names : list string) : list event :=
  if header_shown args sorted_names
  then [EvStdout (Header (full_name node_name))] else [].

Definition describe_events (args : Args) (node_name : NodeName)
    (sorted_names : list string) : list event :=
  if args_param_type args
  then [EvDescribeParameters (full_name node_name) sorted_names] else [].

(** The side table of lines 123-130. *)
Definition type_map_of (args : Args) (node_name : NodeName)
    (sorted_names : list string) : Dict.dict string string :=
  if args_param_type args
  then build_type_map
         (call_describe_parameters w (full_name node_name) sorted_names)
  else [].

Definition named (name : string) (d : Descriptor) : bool :=
  String.eqb (descriptor_name d) name.

Definition label_of (d : Descriptor) : string :=
  get_parameter_type_string w (descriptor_type d).

(** What the side table built from [descriptors] holds for [name]: the
    label of the last descriptor with that name. *)
Definition type_label (descriptors : list Descriptor) (name : string)
  : option string :=
  option_map label_of (List.find (named name) (rev descriptors)).

Definition has_descriptor (descriptors : list Descriptor) (name : string)
  : Prop :=
  exists d, In d descriptors /\ descriptor_name d = name.

(** The event of line 135 for a name and its label. *)
Definition typed_event (p : string * string) : event :=
  EvStdout (TypedItem (fst p) (snd p)).

End Verb.

Arguments Ok {NodeName A} a.
Arguments Raised {NodeName A} e.
Arguments OutOfFuel {NodeName A}.

End ParamList.

(** ** A regular-expression engine for a fragment of [re]

    Patterns are sequences of literal characters, [.], [^] and [$], where a
    literal or [.] may carry a [*].  The other metacharacters are outside
    the fragment: [compile] gives them no meaning and answers [None], as it
    does for a pattern that [re] rejects (a [*] with nothing to repeat). *)

Module MiniRe.

Inductive atom : Type :=
| Chr (c : ascii)
| AnyChar.

Inductive item : Type :=
| One (a : atom)
| Star (a : atom)
| Bol
| Eol.

Definition pattern : Type := list item.

Definition newline : ascii := "010"%char.

(** [.] matches every character but the newline. *)
Definition atom_matches (a : atom) (c : ascii) : bool :=
  match a with
  | Chr x => Ascii.eqb x c
  | AnyChar => negb (Ascii.eqb c newline)
  end.

(** [$] holds at the end of the string and just before a newline that ends
    it. *)
Definition at_end (s : string) : bool :=
  match s with
  | EmptyString => true
  | String c EmptyString => Ascii.eqb c newline
  | String _ (String _ _) => false
  end.

(** Whether [p] matches at the current position; [at_start] tells whether
    that position is the beginning of the string, [s] is what is left.  With
    [full] the match has to reach the end of the string ([fullmatch]),
    without it any prefix will do ([match]). *)
Fixpoint match_here (full : bool) (p : pattern) (at_start : bool) (s : string)
  : bool :=
  match p with
  | [] => if full then match s with EmptyString => true | _ => false end
          else true
  | Bol :: p' => at_start && match_here full p' at_start s
  | Eol :: p' => at_end s && match_here full p' at_start s
  | One a :: p' =>
      match s with
      | EmptyString => false
      | String c s' => atom_matches a c && match_here full p' false s'
      end
  | Star a :: p' =>
      (fix star (at_start : bool) (s : string) {struct s} : bool :=
         match_here full p' at_start s
         || match s with
            | EmptyString => false
            | String c s' => atom_matches a c && star false s'
            end) at_start s
  end.

(** [pattern.match(s)] and [pattern.fullmatch(s)], as truth values. *)
Definition matches (p : pattern) (s : string) : bool :=
  match_here false p true s.


(** The metacharacters that the fragment leaves out. *)
Definition unsupported (c : ascii) : bool :=
  existsb (Ascii.eqb c)
          ["092"%char; "["%char; "("%char; ")"%char; "|"%char; "+"%char;
           "?"%char; "{"%char].

(** [re.compile] on the fragment. *)
Fixpoint compile (s : string) : option pattern :=
  match s with
  | EmptyString => Some []
  | String c s' =>
      if Ascii.eqb c "^" then option_map (cons Bol) (compile s')
      else if Ascii.eqb c "$" then option_map (cons Eol) (compile s')
      else if Ascii.eqb c "*" || unsupported c then None
      else
        let a := if Ascii.eqb c "." then AnyChar else Chr c in
        match s' with
        | String "*" s'' => option_map (cons (Star a)) (compile s'')
        | _ => option_map (cons (One a)) (compile s')
        end
  end.


#[export] Instance engine : ParamList.RegexEngine pattern := {
  re_compile := compile;
  re_match := matches
}.

End MiniRe.

(** ** Sample worlds for [wait_for] *)

Module WaitForExamples.

(** A clock that ticks once per [sleep]: the world is the number of sleeps
    so far, the time is that number of seconds, and the predicate holds from
    the tick [ready_at] on ([None]: never). *)
Definition ticking_predicate (ready_at : option nat) (k : nat) : bool * nat :=
  match ready_at with
  | Some n => (n <=? k, k)
  | None => (false, k)
  end.

Definition ticking_time (k : nat) : Q * nat := (inject_Z (Z.of_nat k), k).

Definition ticking_sleep (period : Q) (k : nat) : nat := S k.

(** A predicate that is true the first time it is asked and false ever
    after: the world counts the evaluations. *)
Definition flapping_predicate (k : nat) : bool * nat := (k =? 0, S k).

Definition frozen_time (k : nat) : Q * nat := (0%Q, k).

Definition no_sleep (period : Q) (k : nat) : nat := k.

End WaitForExamples.

(** ** A sample function for [bind] *)

Module BindExamples.

(** [def add(a, b): return a + b] on numbers; [None] stands for the
    [TypeError] of a call with other arguments. *)
Definition add : Helpers.pyfunction nat (option nat) :=
  Helpers.PyFunction
    (fun args kwargs =>
       match args, kwargs with
       | [a; b], [] => Some (a + b)%nat
       | _, _ => None
       end)
    "add"
    None
    [("a"%string, Helpers.PositionalOrKeyword);
     ("b"%string, Helpers.PositionalOrKeyword)]
    None
    None.

End BindExamples.

(** ** A sample world for the verb

    Node names are their full names, compared as strings.  Two nodes are
    discovered, [/talker] before [/listener]; both have a
    [list_parameters] service, the one of [/talker] ready at once and the
    one of [/listener] ready from the second poll on. *)

Module ParamListExamples.

Import ParamList.

#[export] Instance string_node : NodeNameOps string.
Proof.
  refine {| full_name := fun s => s;
            node_eqb := String.eqb;
            node_leb := String.leb;
            node_eqb_eq := String.eqb_eq;
            node_leb_total := String.leb_total;
            node_leb_trans := _;
            node_leb_antisym := String.leb_antisym |}.
  assert (forall s1 s2 s3 : string,
             String.compare s1 s2 = Lt -> String.compare s2 s3 = Lt ->
             String.compare s1 s3 = Lt) as Hlt.
  { induction s1 as [|a s1 IH]; intros [|b s2] [|c s3]; simpl;
      try discriminate; try reflexivity.
    destruct (Ascii.compare a b) eqn:Eab; try discriminate;
      destruct (Ascii.compare b c) eqn:Ebc; try discriminate; intros H1 H2.
    - apply Ascii.compare_eq_iff in Eab, Ebc. subst.
      assert (Ascii.compare c c = Eq) as Ecc
        by (unfold Ascii.compare; apply N.compare_refl).
      rewrite Ecc. eapply IH; eauto.
    - apply Ascii.compare_eq_iff in Eab. subst. now rewrite Ebc.
    - apply Ascii.compare_eq_iff in Ebc. subst. now rewrite Eab.
    - assert (Ascii.compare a c = Lt) as Eac.
      { unfold Ascii.compare in *. rewrite N.compare_lt_iff in *.
        eapply N.lt_trans; eauto. }
      now rewrite Eac. }
  intros s1 s2 s3. unfold String.leb.
  destruct (String.compare s1 s2) eqn:E12.
  - apply String.compare_eq_iff in E12. subst. intros _ H. exact H.
  - intros _. destruct (String.compare s2 s3) eqn:E23.
    + apply String.compare_eq_iff in E23. subst. now rewrite E12.
    + now rewrite (Hlt _ _ _ E12 E23).
    + discriminate.
  - discriminate.
Defined.

Definition sample_absolute_node_name (node_name : option string)
  : option string :=
  match node_name with
  | None => None
  | Some EmptyString => None
  | Some (String c s) =>
      if Ascii.eqb c "/" then Some (String c s)
      else Some (String "/" (String c s))
  end.

Definition sample_type_string (t : N) : string :=
  match t with
  | 1%N => "boolean"
  | 2%N => "integer"
  | 3%N => "double"
  | 4%N => "string"
  | _ => "unknown"
  end.

(** [talker_state] is how the call to [/talker] ends; [described] tells
    which of the names asked for get a descriptor. *)
Definition sample_world (talker_state : call_state)
    (described : string -> bool) : World string := {|
  get_node_names := fun _ => ["/talker"%string; "/listener"%string];
  get_service_names := fun _ =>
    ["/talker/list_parameters"%string; "/talker/describe_parameters"%string;
     "/listener/list_parameters"%string];
  get_absolute_node_name := sample_absolute_node_name;
  service_is_ready := fun client round =>
    String.eqb (client_service_name client) "/talker/list_parameters"
    || (1 <=? round)%nat;
  future_state := fun future =>
    if String.eqb (client_service_name (future_client future))
                  "/talker/list_parameters"
    then talker_state
    else Completed {| names := ["use_sim_time"%string] |};
  call_describe_parameters := fun _ parameter_names =>
    map (fun name => {| descriptor_name := name; descriptor_type := 2%N |})
        (List.filter described parameter_names);
  get_parameter_type_string := sample_type_string
|}.

Definition talker_names : call_state :=
  Completed {| names := ["x2"%string; "y1"%string; "x1"%string] |}.

Definition sample_args (node_name filter : option string) (param_type : bool)
  : Args := {|
  args_node_name := node_name;
  args_filter := filter;
  args_include_hidden_nodes := false;
  args_param_prefixes := [];
  args_param_type := param_type
|}.

Definition talker_client : Client :=
  {| client_id := 0; client_service_name := "/talker/list_parameters" |}.

Definition listener_client : Client :=
  {| client_id := 1; client_service_name := "/listener/list_parameters" |}.

(** The pool of the two nodes. *)
Definition sample_clients : Dict.dict string Client :=
  [("/talker"%string, talker_client); ("/listener"%string, listener_client)].

Definition sample_future (client : Client) (round : nat) : Future :=
  {| future_client := client;
     future_request := {| request_prefixes := [] |};
     future_round := round |}.

(** The futures when [/talker] was called first, and when [/listener] was. *)
Definition sample_futures : Dict.dict string Future :=
  [("/talker"%string, sample_future talker_client 0);
   ("/listener"%string, sample_future listener_client 1)].

Definition sample_futures' : Dict.dict string Future :=
  [("/listener"%string, sample_future listener_client 0);
   ("/talker"%string, sample_future talker_client 2)].


(** The verb on string node names with the patterns of [MiniRe]. *)
Definition sample_main : World string -> nat -> Args -> M (option string) :=
  @main string string_node MiniRe.pattern MiniRe.engine.

Definition sample_report_node
  : World string -> Args -> option MiniRe.pattern ->
    Dict.dict string Future -> string -> M unit :=
  @report_node string string_node MiniRe.pattern MiniRe.engine.

Definition sample_print_responses
  : World string -> Args -> option MiniRe.pattern ->
    Dict.dict string Future -> M unit :=
  @print_responses string string_node MiniRe.pattern MiniRe.engine.

End ParamListExamples.

(** ** Reading the trace of the verb *)

Module ParamListTrace.

Import ParamList.

(** The part of [main] that an event comes from: the two queries of the
    graph (lines 59 and 73), the pool of clients (lines 79-83), the dispatch
    loop (lines 86-101), the wait for the answers (lines 104-105) and the
    report (lines 108-137). *)
Definition phase_of (e : event) : nat :=
  match e with
  | EvGetNodeNames _ => 0
  | EvGetServiceNames _ => 1
  | EvCreateClient _ => 2
  | EvServiceIsReady _ _ => 3
  | EvCallAsync _ _ => 3
  | EvSpinOnce => 3
  | EvSpinUntilFutureComplete _ => 4
  | EvDescribeParameters _ _ => 5
  | EvStdout _ => 5
  | EvStderr _ => 5
  end.

(** The number of [rclpy.spin_once] calls. *)
Fixpoint spins_of (evs : list event) : nat :=
  match evs with
  | [] => 0
  | EvSpinOnce :: evs' => S (spins_of evs')
  | _ :: evs' => spins_of evs'
  end.

(** The futures waited for by [spin_until_future_complete]. *)
Fixpoint awaited_of (evs : list event) : list Future :=
  match evs with
  | [] => []
  | EvSpinUntilFutureComplete f :: evs' => f :: awaited_of evs'
  | _ :: evs' => awaited_of evs'
  end.

(** The names that pass [regex_filter] (line 119; all of them without a
    filter). *)
Definition passes {Pattern : Type} {engine : RegexEngine Pattern}
    (regex_filter : option Pattern) (name : string) : bool :=
  match regex_filter with
  | Some p => re_match p name
  | None => true
  end.

Section Dispatch.

Context {NodeName : Type} {ops : NodeNameOps NodeName}.

Variable w : World NodeName.

(** The future [f] of node [k] was made by lines 93-97 in the first round
    in which the client of [k] was found ready. *)
Definition sent_when_first_ready (args : Args)
    (clients : Dict.dict NodeName Client) (k : NodeName) (f : Future) : Prop :=
  exists c,
    Dict.get node_eqb clients k = Some c
    /\ f = future_of args (future_round f) c
    /\ service_is_ready w c (future_round f) = true
    /\ forall r, (r < future_round f)%nat -> service_is_ready w c r = false.

End Dispatch.

End ParamListTrace.

(** ** More sample graphs *)

Module ParamListMoreExamples.

Import ParamList ParamListExamples.

(** A graph whose only node offers no [list_parameters] service. *)
Definition bare_world : World string := {|
  get_node_names := fun _ => ["/talker"%string];
  get_service_names := fun _ => ["/talker/describe_parameters"%string];
  get_absolute_node_name := sample_absolute_node_name;
  service_is_ready := fun _ _ => true;
  future_state := fun _ => TimedOut;
  call_describe_parameters := fun _ _ => [];
  get_parameter_type_string := sample_type_string
|}.

(** The sample graph, except that the service of [/talker] is never
    ready. *)
Definition stalled_world : World string := {|
  get_node_names := fun _ => ["/talker"%string; "/listener"%string];
  get_service_names := fun _ =>
    ["/talker/list_parameters"%string; "/listener/list_parameters"%string];
  get_absolute_node_name := sample_absolute_node_name;
  service_is_ready := fun client round =>
    negb (String.eqb (client_service_name client) "/talker/list_parameters");
  future_state := fun _ =>
    Completed {| names := ["use_sim_time"%string] |};
  call_describe_parameters := fun _ _ => [];
  get_parameter_type_string := sample_type_string
|}.

(** [ros2 param list --param-prefixes a b]. *)
Definition prefixed_args : Args := {|
  args_node_name := None;
  args_filter := None;
  args_include_hidden_nodes := false;
  args_param_prefixes := ["a"%string; "b"%string];
  args_param_type := false
|}.

End ParamListMoreExamples.

(** ** [wait_for] with the sum of line 28 as a float sum

    [Helpers.wait_for] takes the deadline [time.time() + timeout] as the
    exact sum.  Python adds two floats and rounds: here the addition is a
    parameter, for what depends on the value of the sum. *)

Module HelpersRounding.

Import Helpers.

Section WaitForRounded.

Variable World : Type.
Variable predicate : World -> bool * World.
Variable time_time : World -> Q * World.
Variable time_sleep : Q -> World -> World.

(** [a + b] on floats. *)
Variable float_add : Q -> Q -> Q.

(** [time.time() + timeout] (line 28), where [timeout] may be [+inf]. *)
Definition deadline_of (t : Q) (timeout : xtime) : xtime :=
  match timeout with
  | Finite q => Finite (float_add t q)
  | PlusInf => PlusInf
  end.

(** [wait_for(predicate, timeout, period)] (lines 25-33). *)
Definition wait_for_rounded (fuel : nat) (timeout period : Q) (w : World)
  : option (bool * World * list event) :=
  let timeout' := effective_timeout timeout in
  let (t0, w0) := time_time w in
  let deadline := deadline_of t0 timeout' in
  option_map (prepend [EvTime t0])
             (wait_for_loop predicate time_time time_sleep
                            fuel deadline period w0).

End WaitForRounded.

End HelpersRounding.

(** ** Reading the trace of [wait_for] *)

Module HelpersTrace.

Import Helpers.

(** The number of [time.sleep] calls. *)
Fixpoint sleeps_of (tr : list event) : nat :=
  match tr with
  | [] => 0
  | EvSleep _ :: tr' => S (sleeps_of tr')
  | _ :: tr' => sleeps_of tr'
  end.

(** The number of evaluations of the predicate. *)
Fixpoint evaluations_of (tr : list event) : nat :=
  match tr with
  | [] => 0
  | EvPredicate _ :: tr' => S (evaluations_of tr')
  | _ :: tr' => evaluations_of tr'
  end.

(** The number of [time.time] calls. *)
Fixpoint clock_reads_of (tr : list event) : nat :=
  match tr with
  | [] => 0
  | EvTime _ :: tr' => S (clock_reads_of tr')
  | _ :: tr' => clock_reads_of tr'
  end.

(** The arguments of the [time.sleep] calls. *)
Fixpoint sleep_periods_of (tr : list event) : list Q :=
  match tr with
  | [] => []
  | EvSleep p :: tr' => p :: sleep_periods_of tr'
  | _ :: tr' => sleep_periods_of tr'
  end.

End HelpersTrace.

(** ** ros2cli/helpers.py: [pretty_print_call] and [before_invocation] *)

Module Hooks.

Import Helpers.

Section Hooks.

(** Python objects and exceptions are left open.  A call can print, change
    the rest of the state, and ends by returning a value or by raising. *)
Variable Value : Type.
Variable Exn : Type.
Variable State : Type.

Record world : Type := { stdout : list string; state : State }.

Inductive outcome : Type :=
| Returned (v : Value)
| Raised (e : Exn).

Definition action : Type := world -> outcome * world.

Definition func_t : Type := pyfunction Value action.

(** [a] and then [b], as two statements in a row: [b] runs when [a] has
    returned, and the value of [a] is dropped. *)
Definition and_then (a b : action) : action :=
  fun w =>
    match a w with
    | (Returned _, w1) => b w1
    | (Raised e, w1) => (Raised e, w1)
    end.

(** [print(line)]. *)
Definition print (line : string) (w : world) : world :=
  {| stdout := stdout w ++ [line]; state := state w |}.

(** [repr(v)], taken to return, and [None]. *)
Variable repr : Value -> string.
Variable none : Value.

(** [sep.join(items)]. *)
Fixpoint join (sep : string) (items : list string) : string :=
  match items with
  | [] => ""%string
  | [x] => x
  | x :: rest => (x ++ sep ++ join sep rest)%string
  end.

(** The text of line 57. *)
Definition call_text (func : func_t) (args : list Value)
    (kwargs : kwargs_t Value) : string :=
  let name := fn_name func in
  let arguments :=
    join ", "%string
         (map repr args
          ++ map (fun kv => (fst kv ++ "=" ++ repr (snd kv))%string) kwargs) in
  (name ++ "(" ++ arguments ++ ")")%string.

(** [pretty_print_call(func, *args, **kwargs)] (lines 51-57): the body,
    for parameters that were bound by the call. *)
Definition pretty_print_call (func : func_t) (args : list Value)
    (kwargs : kwargs_t Value) : action :=
  fun w => (Returned none, print (call_text func args kwargs) w).

(** The callable handed as [hook]: the number of parameters that
    [inspect.signature] reports for it, whether [inspect.ismethod] holds of
    it, and what a call does, without arguments and with
    [(func, *args, **kwargs)]. *)
Record hook_t : Type := {
  hook_parameters : nat;
  hook_is_method : bool;
  hook_call0 : action;
  hook_call : func_t -> list Value -> kwargs_t Value -> action
}.

(** Lines 62-65. *)
Definition nargs_of (hook : hook_t) : Z :=
  let nargs := Z.of_nat (hook_parameters hook) in
  if hook_is_method hook then (nargs - 1)%Z else nargs.

(** The call of the hook in the wrapper (lines 69 and 74). *)
Definition hook_invocation (hook : hook_t) (func : func_t)
    (args : list Value) (kwargs : kwargs_t Value) : action :=
  if (0 <? nargs_of hook)%Z then hook_call hook func args kwargs
  else hook_call0 hook.

(** [before_invocation(func, hook)] (lines 60-76). *)
Definition before_invocation (func : func_t) (hook : hook_t) : func_t :=
  PyFunction
    (fun args kwargs =>
       and_then (hook_invocation hook func args kwargs)
                (fn_call func args kwargs))
    (fn_name func)
    (fn_doc func)
    variadic_signature
    (Some (inspect_signature func))
    (Some func).

(** [pretty_print_call] as a hook.  Its parameters are
    [(func, *args, **kwargs)]: called without arguments it raises the
    [TypeError] of a missing argument, and called as
    [hook(func, *args, **kwargs)] with a keyword named [func] it raises the
    [TypeError] of an argument given twice, before its body runs. *)
Variable missing_argument : Exn.
Variable multiple_values : Exn.

Definition pretty_print_hook : hook_t :=
  {| hook_parameters := 3;
     hook_is_method := false;
     hook_call0 := fun w => (Raised missing_argument, w);
     hook_call := fun func args kwargs =>
       if Dict.mem String.eqb kwargs "func"%string
       then fun w => (Raised multiple_values, w)
       else pretty_print_call func args kwargs |}.

(** [func] wrapped in the hooks one after the other: the last one is the
    outermost. *)
Definition instrument (func : func_t) (hooks : list hook_t) : func_t :=
  fold_left before_invocation hooks func.

End Hooks.

End Hooks.

(** ** Sample functions and hooks *)

Module HooksExamples.

Import Helpers Hooks.

(** Values are numbers, the only exception is a [TypeError] and there is
    no state besides what was printed. *)
Definition sample_repr (v : nat) : string :=
  match v with
  | 0%nat => "0"%string
  | 1%nat => "1"%string
  | 2%nat => "2"%string
  | _ => "n"%string
  end.

(** [def add(a, b): print('adding'); return a + b]. *)
Definition noisy_add : func_t nat unit unit :=
  PyFunction
    (fun args kwargs w =>
       match args, kwargs with
       | [a; b], [] => (Returned unit (a + b)%nat, print "adding"%string w)
       | _, _ => (Raised nat tt, w)
       end)
    "add"%string
    None
    [("a"%string, PositionalOrKeyword); ("b"%string, PositionalOrKeyword)]
    None
    None.

(** A hook without parameters that raises. *)
Definition failing_hook : hook_t nat unit unit :=
  {| hook_parameters := 0;
     hook_is_method := false;
     hook_call0 := fun w => (Raised nat tt, w);
     hook_call := fun _ _ _ w => (Raised nat tt, w) |}.

Definition empty_world : world unit := {| stdout := []; state := tt |}.

End HooksExamples.

(** * Properties *)

(** ** [wait_for] and [bind] *)

Module HelpersProofs.

Import Helpers.

Lemma Qltb_lt (x y : Q) : Qltb x y = true <-> (x < y)%Q.
Proof.
  unfold Qltb. rewrite negb_true_iff. split.
  - intros H. apply Qnot_le_lt. intros Hle.
    apply Qle_bool_iff in Hle. congruence.
  - intros H. destruct (Qle_bool y x) eqn:E; [|reflexivity].
    apply Qle_bool_iff in E. exfalso. exact (Qlt_not_le _ _ H E).
Qed.

Lemma effective_timeout_negative (timeout : Q) :
  (timeout < 0)%Q -> effective_timeout timeout = PlusInf.
Proof.
  intros H. unfold effective_timeout.
  apply Qltb_lt in H. now rewrite H.
Qed.

Section WaitForProofs.

Variable World : Type.
Variable predicate : World -> bool * World.
Variable time_time : World -> Q * World.
Variable time_sleep : Q -> World -> World.

Abbreviation loop := (wait_for_loop predicate time_time time_sleep).
Abbreviation rounds := (after_rounds predicate time_time time_sleep).
Abbreviation exits := (exit_of predicate).

Lemma exit_of_cons (deadline : xtime) (evs tr : list event) (b : bool)
    (w' : World) :
  exits deadline tr b w' -> exits deadline (evs ++ tr) b w'.
Proof.
  intros H. destruct H as [tr0 w1 b w' Hp | tr0 t w2 b w' Ht Hp].
  - rewrite app_assoc. eapply exit_true; eauto.
  - rewrite app_assoc. eapply exit_deadline; eauto.
Qed.

Lemma loop_exit (fuel : nat) (deadline : xtime) (period : Q) :
  forall w b w' tr,
    loop fuel deadline period w = Some (b, w', tr) ->
    exits deadline tr b w'.
Proof.
  induction fuel as [|fuel IH]; intros w b w' tr H; simpl in H.
  - discriminate.
  - destruct (predicate w) as [p w1] eqn:Ep. destruct p.
    + unfold final_check in H. destruct (predicate w1) as [r w2] eqn:Er.
      simpl in H. inversion H; subst.
      apply (@exit_true _ predicate deadline [] _ _ _ Er).
    + destruct (time_time w1) as [t w2] eqn:Et.
      destruct (past t deadline) eqn:Epast.
      * unfold final_check in H. destruct (predicate w2) as [r w3] eqn:Er.
        simpl in H. inversion H; subst.
        apply (@exit_deadline _ predicate deadline [] _ _ _ _ Epast Er).
      * destruct (loop fuel deadline period (time_sleep period w2))
          as [[[r w3] tr3]|] eqn:El; simpl in H; [|discriminate].
        inversion H; subst.
        apply (@exit_of_cons deadline [EvPredicate false; EvTime t; EvSleep period]).
        eapply IH; eauto.
Qed.

Lemma prepend_nil (res : bool * World * list event) : prepend [] res = res.
Proof. destruct res as [[r w] tr]. reflexivity. Qed.

Lemma option_map_prepend (evs evs' : list event)
    (x : option (bool * World * list event)) :
  option_map (prepend evs) (option_map (prepend evs') x)
  = option_map (prepend (evs ++ evs')) x.
Proof.
  destruct x as [[[r w] tr]|]; simpl; [|reflexivity].
  now rewrite app_assoc.
Qed.

(** Rounds that neither find the predicate true nor the deadline passed
    only use up fuel. *)
Lemma loop_after_rounds (deadline : xtime) (period : Q) :
  forall n w wn tr,
    rounds n deadline period w = Some (wn, tr) ->
    forall fuel,
      loop (n + fuel) deadline period w
      = option_map (prepend tr) (loop fuel deadline period wn).
Proof.
  induction n as [|n IH]; intros w wn tr H fuel; simpl in H |- *.
  - inversion H; subst.
    destruct (loop fuel deadline period wn) as [res|]; simpl;
      [now rewrite prepend_nil | reflexivity].
  - destruct (predicate w) as [p w1]. destruct p; [discriminate|].
    destruct (time_time w1) as [t w2].
    destruct (past t deadline); [discriminate|].
    destruct (rounds n deadline period (time_sleep period w2))
      as [[wm trm]|] eqn:E; simpl in H; [|discriminate].
    inversion H; subst.
    rewrite (IH _ _ _ E fuel). now rewrite option_map_prepend.
Qed.

Lemma loop_true_exit (deadline : xtime) (period : Q) (fuel : nat)
    (w w1 w2 : World) (b : bool) :
  predicate w = (true, w1) -> predicate w1 = (b, w2) ->
  loop (S fuel) deadline period w
  = Some (b, w2, [EvPredicate true; EvPredicate b]).
Proof.
  intros H1 H2. simpl. rewrite H1. unfold final_check. now rewrite H2.
Qed.

Lemma loop_deadline_exit (deadline : xtime) (period : Q) (fuel : nat)
    (w w1 w2 w3 : World) (t : Q) (b : bool) :
  predicate w = (false, w1) -> time_time w1 = (t, w2) ->
  past t deadline = true -> predicate w2 = (b, w3) ->
  loop (S fuel) deadline period w
  = Some (b, w3, [EvPredicate false; EvTime t; EvBreak; EvPredicate b]).
Proof.
  intros H1 H2 H3 H4. simpl. rewrite H1, H2, H3.
  unfold final_check. now rewrite H4.
Qed.

(** With no deadline the loop can only end by the predicate found true. *)
Lemma loop_unbounded_exit (period : Q) :
  forall fuel w b w' tr,
    loop fuel PlusInf period w = Some (b, w', tr) ->
    existsb is_break tr = false
    /\ exists tr0 w1,
         tr = tr0 ++ [EvPredicate true; EvPredicate b]
         /\ predicate w1 = (b, w').
Proof.
  induction fuel as [|fuel IH]; intros w b w' tr H; simpl in H.
  - discriminate.
  - destruct (predicate w) as [p w1] eqn:Ep. destruct p.
    + unfold final_check in H. destruct (predicate w1) as [r w2] eqn:Er.
      simpl in H. inversion H; subst. split; [reflexivity|].
      exists [], w1. split; [reflexivity | assumption].
    + destruct (time_time w1) as [t w2] eqn:Et. simpl in H.
      destruct (loop fuel PlusInf period (time_sleep period w2))
        as [[[r w3] tr3]|] eqn:El; simpl in H; [|discriminate].
      inversion H; subst.
      destruct (IH _ _ _ _ El) as [Hb [tr0 [w4 [Htr Hp]]]].
      split; [exact Hb|].
      exists ([EvPredicate false; EvTime t; EvSleep period] ++ tr0), w4.
      split; [|assumption]. rewrite Htr. reflexivity.
Qed.

(** A predicate that stays false along the run keeps an unbounded loop
    going whatever the fuel. *)
Lemma loop_unbounded_diverges (period : Q) (I : World -> Prop) :
  (forall x, I x ->
     fst (predicate x) = false
     /\ I (time_sleep period (snd (time_time (snd (predicate x)))))) ->
  forall fuel w, I w -> loop fuel PlusInf period w = None.
Proof.
  intros Hinv. induction fuel as [|fuel IH]; intros w Hw; simpl.
  - reflexivity.
  - destruct (Hinv w Hw) as [Hf Hnext].
    destruct (predicate w) as [p w1]. simpl in Hf, Hnext. subst p.
    destruct (time_time w1) as [t w2]. simpl in Hnext |- *.
    now rewrite (IH _ Hnext).
Qed.

(** The loop uses up its fuel exactly when that many rounds all find the
    predicate false and the deadline not passed. *)
Lemma loop_out_of_fuel (deadline : xtime) (period : Q) :
  forall fuel w,
    loop fuel deadline period w = None
    <-> exists wn tr, rounds fuel deadline period w = Some (wn, tr).
Proof.
  induction fuel as [|fuel IH]; intros w; simpl.
  - split; [|reflexivity]. intros _. now exists w, [].
  - destruct (predicate w) as [p w1]. destruct p.
    + unfold final_check. destruct (predicate w1). simpl.
      split; [discriminate | intros [wn [tr H]]; discriminate].
    + destruct (time_time w1) as [t w2]. destruct (past t deadline).
      * unfold final_check. destruct (predicate w2). simpl.
        split; [discriminate | intros [wn [tr H]]; discriminate].
      * specialize (IH (time_sleep period w2)).
        destruct (loop fuel deadline period (time_sleep period w2))
          as [res|] eqn:El;
          destruct (rounds fuel deadline period (time_sleep period w2))
            as [[wm trm]|] eqn:Er; simpl.
        -- assert (Some res = None) as Habs
             by (apply IH; now exists wm, trm).
           discriminate.
        -- split; [discriminate | intros [wn [tr H]]; discriminate].
        -- split; [|reflexivity]. intros _. eexists. eexists. reflexivity.
        -- destruct (proj1 IH eq_refl) as [wn [tr H]]. discriminate.
Qed.

(** C6: [wait_for] returns the value of a last evaluation of the predicate.
    Whenever it returns, the events end with that evaluation, made after the
    loop was left because the predicate was found true or the deadline
    [start + timeout] was found passed.  When the first check finds the
    predicate true, it returns at once, with no sleep, whatever the fuel.
    When, after [n] rounds, the clock is found past the deadline, or the
    predicate is found true, the predicate is evaluated once more and that
    value is returned.  The fuel runs out only when that many rounds all
    find the predicate false and the deadline not passed. *)
Theorem wait_for_returns_final_evaluation (timeout period : Q)
    (w w0 : World) (t0 : Q) :
  time_time w = (t0, w0) ->
  let deadline := xadd t0 (effective_timeout timeout) in
  (forall fuel b w' tr,
      wait_for predicate time_time time_sleep fuel timeout period w
      = Some (b, w', tr) ->
      exists tr', tr = EvTime t0 :: tr' /\ exits deadline tr' b w')
  /\ (forall w1 b w2,
      predicate w0 = (true, w1) -> predicate w1 = (b, w2) ->
      forall fuel,
        wait_for predicate time_time time_sleep (S fuel) timeout period w
        = Some (b, w2, [EvTime t0; EvPredicate true; EvPredicate b]))
  /\ (forall n wn tr w1 t w2 b w3,
      rounds n deadline period w0 = Some (wn, tr) ->
      predicate wn = (false, w1) -> time_time w1 = (t, w2) ->
      past t deadline = true -> predicate w2 = (b, w3) ->
      forall fuel,
        wait_for predicate time_time time_sleep (n + S fuel) timeout period w
        = Some (b, w3,
                EvTime t0
                  :: tr ++ [EvPredicate false; EvTime t; EvBreak;
                            EvPredicate b]))
  /\ (forall n wn tr w1 b w2,
      rounds n deadline period w0 = Some (wn, tr) ->
      predicate wn = (true, w1) -> predicate w1 = (b, w2) ->
      forall fuel,
        wait_for predicate time_time time_sleep (n + S fuel) timeout period w
        = Some (b, w2, EvTime t0 :: tr ++ [EvPredicate true; EvPredicate b]))
  /\ (forall fuel,
      wait_for predicate time_time time_sleep fuel timeout period w = None
      <-> exists wn tr, rounds fuel deadline period w0 = Some (wn, tr)).
Proof.
  intros Ht deadline. split; [|split; [|split; [|split]]].
  - intros fuel b w' tr H. unfold wait_for in H. rewrite Ht in H.
    fold deadline in H.
    destruct (loop fuel deadline period w0) as [[[r w3] tr3]|] eqn:El;
      simpl in H; [|discriminate].
    inversion H; subst. exists tr3. split; [reflexivity|].
    eapply loop_exit; eauto.
  - intros w1 b w2 H1 H2 fuel. unfold wait_for. rewrite Ht.
    now rewrite (loop_true_exit _ period fuel H1 H2).
  - intros n wn tr w1 t w2 b w3 Hr H1 H2 H3 H4 fuel.
    unfold wait_for. rewrite Ht. fold deadline.
    rewrite (loop_after_rounds _ _ _ _ Hr (S fuel)).
    now rewrite (loop_deadline_exit _ period fuel H1 H2 H3 H4).
  - intros n wn tr w1 b w2 Hr H1 H2 fuel.
    unfold wait_for. rewrite Ht. fold deadline.
    rewrite (loop_after_rounds _ _ _ _ Hr (S fuel)).
    now rewrite (loop_true_exit _ period fuel H1 H2).
  - intros fuel. rewrite <- loop_out_of_fuel.
    unfold wait_for. rewrite Ht. fold deadline.
    destruct (loop fuel deadline period w0) as [res|]; simpl.
    + split; discriminate.
    + split; reflexivity.
Qed.

(** C7, as the code has it: with [timeout < 0] there is no deadline.  No
    time is ever past it, so a run that returns never took the [break]: it
    found the predicate true and returns the value of one more evaluation
    of the predicate.  After [n] rounds with the predicate false, a true
    predicate makes [wait_for] return that further evaluation; a predicate
    that stays false keeps it looping whatever the fuel. *)
Theorem wait_for_negative_timeout_unbounded (timeout period : Q)
    (w w0 : World) (t0 : Q) :
  (timeout < 0)%Q ->
  time_time w = (t0, w0) ->
  (forall t, past t (xadd t0 (effective_timeout timeout)) = false)
  /\ (forall fuel b w' tr,
      wait_for predicate time_time time_sleep fuel timeout period w
      = Some (b, w', tr) ->
      existsb is_break tr = false
      /\ exists tr0 w1,
           tr = tr0 ++ [EvPredicate true; EvPredicate b]
           /\ predicate w1 = (b, w'))
  /\ (forall n wn tr w1 b w2,
      rounds n PlusInf period w0 = Some (wn, tr) ->
      predicate wn = (true, w1) -> predicate w1 = (b, w2) ->
      forall fuel,
        wait_for predicate time_time time_sleep (n + S fuel) timeout period w
        = Some (b, w2, EvTime t0 :: tr ++ [EvPredicate true; EvPredicate b]))
  /\ (forall I : World -> Prop,
      I w0 ->
      (forall x, I x ->
         fst (predicate x) = false
         /\ I (time_sleep period (snd (time_time (snd (predicate x)))))) ->
      forall fuel,
        wait_for predicate time_time time_sleep fuel timeout period w = None).
Proof.
  intros Hneg Ht. rewrite (effective_timeout_negative Hneg). simpl xadd.
  repeat split.
  - unfold wait_for in H. rewrite Ht, (effective_timeout_negative Hneg) in H.
    simpl xadd in H.
    destruct (loop fuel PlusInf period w0) as [[[r w3] tr3]|] eqn:El;
      simpl in H; [|discriminate].
    inversion H; subst. simpl.
    now destruct (loop_unbounded_exit _ _ _ El) as [Hb _].
  - unfold wait_for in H. rewrite Ht, (effective_timeout_negative Hneg) in H.
    simpl xadd in H.
    destruct (loop fuel PlusInf period w0) as [[[r w3] tr3]|] eqn:El;
      simpl in H; [|discriminate].
    inversion H; subst.
    destruct (loop_unbounded_exit _ _ _ El) as [_ [tr0 [w1 [Htr Hp]]]].
    exists (EvTime t0 :: tr0), w1. split; [|assumption].
    rewrite Htr. reflexivity.
  - intros n wn tr w1 b w2 Hr H1 H2 fuel.
    unfold wait_for. rewrite Ht, (effective_timeout_negative Hneg).
    simpl xadd. rewrite (loop_after_rounds _ _ _ _ Hr (S fuel)).
    now rewrite (loop_true_exit _ period fuel H1 H2).
  - intros I Hw0 Hinv fuel.
    unfold wait_for. rewrite Ht, (effective_timeout_negative Hneg).
    simpl xadd. now rewrite (loop_unbounded_diverges period I Hinv fuel _ Hw0).
Qed.

End WaitForProofs.

Import WaitForExamples.

(** On the ticking clock: a predicate true from the start gives [True] with
    no sleep; with timeout 2 and period 1 a predicate that never holds is
    given up when the clock shows 3, and the last evaluation is returned. *)
Lemma wait_for_returns_final_evaluation_witness :
  wait_for (ticking_predicate (Some 0%nat)) ticking_time ticking_sleep
           1 2 1 0%nat
  = Some (true, 0%nat, [EvTime 0; EvPredicate true; EvPredicate true])
  /\ wait_for (ticking_predicate None) ticking_time ticking_sleep 4 2 1 0%nat
     = Some (false, 3%nat,
             [EvTime 0;
              EvPredicate false; EvTime 0; EvSleep 1;
              EvPredicate false; EvTime 1; EvSleep 1;
              EvPredicate false; EvTime 2; EvSleep 1;
              EvPredicate false; EvTime 3; EvBreak; EvPredicate false]).
Proof.
  split.
  - destruct (@wait_for_returns_final_evaluation nat
                (ticking_predicate (Some 0%nat)) ticking_time ticking_sleep
                2 1 0%nat 0%nat 0 eq_refl) as [_ [H _]].
    exact (H 0%nat true 0%nat eq_refl eq_refl 0%nat).
  - destruct (@wait_for_returns_final_evaluation nat
                (ticking_predicate None) ticking_time ticking_sleep
                2 1 0%nat 0%nat 0 eq_refl) as [_ [_ [H _]]].
    exact (H 3%nat 3%nat _ 3%nat 3 3%nat false 3%nat
             eq_refl eq_refl eq_refl eq_refl eq_refl 0%nat).
Defined.

(** C7 as stated fails: with timeout -1 the flapping predicate is found
    true by the loop, and [wait_for] returns [False], the value of the
    evaluation that follows. *)
Lemma wait_for_unbounded_returns_false_after_true :
  (-1 # 1 < 0)%Q
  /\ wait_for flapping_predicate frozen_time no_sleep 1 (-1 # 1) (1 # 10) 0%nat
     = Some (false, 2%nat, [EvTime 0; EvPredicate true; EvPredicate false]).
Proof. split; reflexivity. Qed.

(** With timeout -1 on the ticking clock: a predicate that holds from tick
    2 on is returned as [True] after two sleeps, and one that never holds
    exhausts any fuel. *)
Lemma wait_for_negative_timeout_unbounded_witness :
  wait_for (ticking_predicate (Some 2%nat)) ticking_time ticking_sleep
           3 (-1 # 1) 1 0%nat
  = Some (true, 2%nat,
          [EvTime 0;
           EvPredicate false; EvTime 0; EvSleep 1;
           EvPredicate false; EvTime 1; EvSleep 1;
           EvPredicate true; EvPredicate true])
  /\ forall fuel,
       wait_for (ticking_predicate None) ticking_time ticking_sleep
                fuel (-1 # 1) 1 0%nat = None.
Proof.
  split.
  - destruct (@wait_for_negative_timeout_unbounded nat
                (ticking_predicate (Some 2%nat)) ticking_time ticking_sleep
                (-1 # 1) 1 0%nat 0%nat 0 eq_refl eq_refl) as [_ [_ [H _]]].
    exact (H 2%nat 2%nat _ 2%nat true 2%nat eq_refl eq_refl eq_refl 0%nat).
  - destruct (@wait_for_negative_timeout_unbounded nat
                (ticking_predicate None) ticking_time ticking_sleep
                (-1 # 1) 1 0%nat 0%nat 0 eq_refl eq_refl) as [_ [_ [_ H]]].
    apply (H (fun _ => True) I). intros x _. split; [reflexivity | exact I].
Defined.

Section BindProofs.

Variable Value : Type.
Variable Result : Type.

(** C9: calling [bind(f, a1, ..., an)] with [b1, ..., bm] is calling [f]
    with [a1, ..., an, b1, ..., bm] (keyword arguments given at the call
    are merged over the bound ones); with no further argument it is
    [f(a1, ..., an)].  [inspect.signature] of the wrapper is that of [f],
    although the wrapper itself is declared with [*args, **kwargs]. *)
Theorem bind_calls_func_with_its_signature (f : pyfunction Value Result)
    (args : list Value) (kwargs : kwargs_t Value) :
  (forall bs, fn_call (bind f args []) bs [] = fn_call f (args ++ bs) [])
  /\ fn_call (bind f args []) [] [] = fn_call f args []
  /\ (forall bs ks,
        fn_call (bind f args kwargs) bs ks
        = fn_call f (args ++ bs) (Dict.update String.eqb kwargs ks))
  /\ inspect_signature (bind f args kwargs) = inspect_signature f
  /\ fn_code_signature (bind f args kwargs) = variadic_signature
  /\ (inspect_signature f <> variadic_signature ->
      inspect_signature (bind f args kwargs) <> variadic_signature).
Proof.
  repeat split.
  - simpl. unfold partial_call. simpl. now rewrite app_nil_r.
  - intros H. exact H.
Qed.

End BindProofs.

Import BindExamples.

(** [bind(add, 1, 2)()] is [add(1, 2)], that is 3, and the wrapper shows
    the signature [(a, b)]. *)
Lemma bind_calls_func_with_its_signature_witness :
  fn_call (bind add [1; 2]%nat []) [] [] = Some 3%nat
  /\ inspect_signature (bind add [1; 2]%nat [])
     = [("a"%string, PositionalOrKeyword); ("b"%string, PositionalOrKeyword)]
  /\ inspect_signature (bind add [1; 2]%nat []) <> variadic_signature.
Proof.
  destruct (bind_calls_func_with_its_signature add [1; 2]%nat [])
    as [_ [Hcall [_ [Hsig [_ Hnot]]]]].
  split; [|split].
  - rewrite Hcall. reflexivity.
  - rewrite Hsig. reflexivity.
  - apply Hnot. discriminate.
Defined.

End HelpersProofs.

(** ** The verb [ros2 param list] *)

Module ParamListProofs.

Import ParamList.
Import ParamListExamples.

(** *** Dictionaries *)

Section DictFacts.

Variables K V : Type.
Variable eqb : K -> K -> bool.
Hypothesis eqb_eq : forall a b, eqb a b = true <-> a = b.

Lemma eqb_same (a : K) : eqb a a = true.
Proof. now apply eqb_eq. Qed.

Lemma eqb_diff (a b : K) : a <> b -> eqb a b = false.
Proof.
  intros H. destruct (eqb a b) eqn:E; [|reflexivity].
  apply eqb_eq in E. contradiction.
Qed.

Lemma get_none_iff (d : Dict.dict K V) (k : K) :
  Dict.get eqb d k = None <-> ~ In k (Dict.keys d).
Proof.
  induction d as [|[k' v] d IH]; simpl.
  - tauto.
  - destruct (eqb k' k) eqn:E.
    + apply eqb_eq in E. subst. split; [discriminate | tauto].
    + rewrite IH. split.
      * intros H [H1|H1]; [|tauto]. subst. rewrite eqb_same in E. discriminate.
      * tauto.
Qed.

Lemma get_some_in (d : Dict.dict K V) (k : K) (v : V) :
  Dict.get eqb d k = Some v -> In (k, v) d.
Proof.
  induction d as [|[k' v'] d IH]; simpl; [discriminate|].
  destruct (eqb k' k) eqn:E.
  - apply eqb_eq in E. intros H. inversion H; subst. now left.
  - intros H. right. now apply IH.
Qed.

Lemma in_get_some (d : Dict.dict K V) (k : K) (v : V) :
  NoDup (Dict.keys d) -> In (k, v) d -> Dict.get eqb d k = Some v.
Proof.
  induction d as [|[k' v'] d IH]; simpl; intros Hnd Hin; [contradiction|].
  inversion Hnd as [|? ? Hnotin Hnd']; subst.
  destruct Hin as [Heq|Hin].
  - inversion Heq; subst. now rewrite eqb_same.
  - destruct (eqb k' k) eqn:E.
    + apply eqb_eq in E. subst. exfalso. apply Hnotin.
      apply (in_map fst) in Hin. exact Hin.
    + now apply IH.
Qed.

Lemma in_keys_get (d : Dict.dict K V) (k : K) :
  In k (Dict.keys d) -> exists v, Dict.get eqb d k = Some v.
Proof.
  intros H. destruct (Dict.get eqb d k) as [v|] eqn:E; [now exists v|].
  apply get_none_iff in E. contradiction.
Qed.

Lemma mem_false_iff (d : Dict.dict K V) (k : K) :
  Dict.mem eqb d k = false <-> ~ In k (Dict.keys d).
Proof.
  unfold Dict.mem. rewrite <- get_none_iff.
  destruct (Dict.get eqb d k); split; congruence.
Qed.

(** Assignment to a key that is not there appends the entry. *)
Lemma set_absent (d : Dict.dict K V) (k : K) (v : V) :
  ~ In k (Dict.keys d) -> Dict.set eqb d k v = d ++ [(k, v)].
Proof.
  induction d as [|[k' v'] d IH]; simpl; intros H; [reflexivity|].
  rewrite eqb_diff by tauto. rewrite IH by tauto. reflexivity.
Qed.

(** Assignment to a key that is there keeps the keys as they are. *)
Lemma keys_set_present (d : Dict.dict K V) (k : K) (v : V) :
  In k (Dict.keys d) -> Dict.keys (Dict.set eqb d k v) = Dict.keys d.
Proof.
  induction d as [|[k' v'] d IH]; simpl; intros H; [contradiction|].
  destruct (eqb k' k) eqn:E; simpl; [reflexivity|].
  destruct H as [H|H].
  - subst. rewrite eqb_same in E. discriminate.
  - now rewrite IH.
Qed.

Lemma in_keys_dec (d : Dict.dict K V) (k : K) :
  In k (Dict.keys d) \/ ~ In k (Dict.keys d).
Proof.
  destruct (Dict.get eqb d k) eqn:E.
  - left. apply get_some_in in E. apply (in_map fst) in E. exact E.
  - right. now apply get_none_iff.
Qed.

Lemma in_keys_set (d : Dict.dict K V) (k k' : K) (v : V) :
  In k' (Dict.keys (Dict.set eqb d k v)) <-> k' = k \/ In k' (Dict.keys d).
Proof.
  destruct (in_keys_dec d k) as [H|H].
  - rewrite keys_set_present by assumption. split; [tauto|].
    intros [H1|H1]; [now subst | assumption].
  - rewrite set_absent by assumption. unfold Dict.keys.
    rewrite map_app, in_app_iff. simpl. split; intros H1.
    + destruct H1 as [H1|[H1|[]]]; [tauto | left; now subst].
    + destruct H1 as [H1|H1]; [right; left; now subst | now left].
Qed.

Lemma NoDup_keys_set (d : Dict.dict K V) (k : K) (v : V) :
  NoDup (Dict.keys d) -> NoDup (Dict.keys (Dict.set eqb d k v)).
Proof.
  intros Hnd. destruct (in_keys_dec d k) as [H|H].
  - now rewrite keys_set_present.
  - rewrite set_absent by assumption. unfold Dict.keys.
    rewrite map_app. simpl.
    apply NoDup_rev in Hnd. rewrite <- (rev_involutive (map fst d ++ [k])).
    apply NoDup_rev. rewrite rev_app_distr. simpl. constructor.
    + rewrite <- in_rev. exact H.
    + exact Hnd.
Qed.

Lemma get_set_same (d : Dict.dict K V) (k : K) (v : V) :
  Dict.get eqb (Dict.set eqb d k v) k = Some v.
Proof.
  induction d as [|[k' v'] d IH]; simpl.
  - now rewrite eqb_same.
  - destruct (eqb k' k) eqn:E; simpl; rewrite E; [reflexivity | exact IH].
Qed.

Lemma get_set_other (d : Dict.dict K V) (k k' : K) (v : V) :
  k <> k' -> Dict.get eqb (Dict.set eqb d k v) k' = Dict.get eqb d k'.
Proof.
  intros Hne. induction d as [|[k0 v0] d IH]; simpl.
  - now rewrite eqb_diff.
  - destruct (eqb k0 k) eqn:E; simpl.
    + apply eqb_eq in E. subst. now rewrite eqb_diff.
    + destruct (eqb k0 k'); [reflexivity | exact IH].
Qed.

End DictFacts.

(** *** The values of a dictionary *)

Section DictValueFacts.

Variables K V : Type.
Variable eqb : K -> K -> bool.
Hypothesis eqb_eq : forall a b, eqb a b = true <-> a = b.

Lemma in_set (d : Dict.dict K V) (k k' : K) (v v' : V) :
  In (k', v') (Dict.set eqb d k v) -> (k' = k /\ v' = v) \/ In (k', v') d.
Proof.
  induction d as [|[k0 v0] d IH]; simpl.
  - intros [H|[]]. inversion H. now left.
  - destruct (eqb k0 k) eqn:E; simpl.
    + apply eqb_eq in E. subst. intros [H|H].
      * inversion H. now left.
      * right. now right.
    + intros [H|H]; [right; now left|].
      destruct (IH H) as [H1|H1]; [now left | right; now right].
Qed.

Lemma in_values_set (d : Dict.dict K V) (k : K) (v x : V) :
  In x (Dict.values (Dict.set eqb d k v)) -> x = v \/ In x (Dict.values d).
Proof.
  unfold Dict.values. rewrite !in_map_iff. intros [[k' v'] [Hx Hin]].
  simpl in Hx. subst v'. destruct (in_set _ _ _ _ _ Hin) as [[_ H]|H].
  - now left.
  - right. now exists (k', x).
Qed.

(** Binding a key to a value that is new keeps the values distinct. *)
Lemma NoDup_values_set (W : Type) (f : V -> W) (d : Dict.dict K V) (k : K)
    (v : V) :
  NoDup (map f (Dict.values d)) ->
  ~ In (f v) (map f (Dict.values d)) ->
  NoDup (map f (Dict.values (Dict.set eqb d k v))).
Proof.
  induction d as [|[k0 v0] d IH]; simpl; intros Hnd Hnew.
  - constructor; [tauto | constructor].
  - inversion Hnd as [|? ? Hnotin Hnd']; subst.
    destruct (eqb k0 k); simpl.
    + constructor; [tauto | assumption].
    + constructor.
      * intros Hin. apply in_map_iff in Hin. destruct Hin as [x [Hfx Hx]].
        destruct (in_values_set _ _ _ _ Hx) as [->|Hx'].
        -- apply Hnew. left. now symmetry.
        -- apply Hnotin. rewrite <- Hfx. now apply in_map.
      * apply IH; [assumption | tauto].
Qed.


End DictValueFacts.

(** *** Sorting *)

Section SortFacts.

Variable A : Type.
Variable leb : A -> A -> bool.
Hypothesis leb_total : forall a b, leb a b = true \/ leb b a = true.
Hypothesis leb_trans :
  forall a b c, leb a b = true -> leb b c = true -> leb a c = true.

Lemma insert_perm (x : A) (l : list A) : Permutation (x :: l) (insert leb x l).
Proof.
  induction l as [|y l IH]; simpl.
  - apply Permutation_refl.
  - destruct (leb x y).
    + apply Permutation_refl.
    + eapply Permutation_trans; [apply perm_swap|]. now apply perm_skip.
Qed.

Lemma sorted_perm (l : list A) : Permutation l (sorted leb l).
Proof.
  induction l as [|x l IH]; simpl.
  - constructor.
  - eapply Permutation_trans; [apply perm_skip, IH | apply insert_perm].
Qed.


Lemma insert_sorted (x : A) (l : list A) :
  StronglySorted (le_of leb) l -> StronglySorted (le_of leb) (insert leb x l).
Proof.
  induction 1 as [|y l Hs IH Hall]; simpl.
  - repeat constructor.
  - destruct (leb x y) eqn:E.
    + constructor; [now constructor|]. constructor; [exact E|].
      eapply Forall_impl; [|exact Hall].
      intros z Hz. unfold le_of in *. eapply leb_trans; eauto.
    + constructor; [exact IH|].
      assert (le_of leb y x) as Hyx.
      { destruct (leb_total x y) as [H|H]; [congruence | exact H]. }
      rewrite Forall_forall in Hall |- *. intros z Hz.
      apply (Permutation_in _ (Permutation_sym (insert_perm x l))) in Hz.
      destruct Hz as [Hz|Hz]; [now subst | now apply Hall].
Qed.

Lemma sorted_sorted (l : list A) : StronglySorted (le_of leb) (sorted leb l).
Proof.
  induction l as [|x l IH]; simpl.
  - constructor.
  - now apply insert_sorted.
Qed.

Lemma filter_sorted (f : A -> bool) (l : list A) :
  StronglySorted (le_of leb) l -> StronglySorted (le_of leb) (List.filter f l).
Proof.
  induction 1 as [|y l Hs IH Hall]; simpl.
  - constructor.
  - destruct (f y); [|exact IH]. constructor; [exact IH|].
    rewrite Forall_forall in Hall |- *. intros z Hz.
    apply filter_In in Hz. now apply Hall.
Qed.

Hypothesis leb_antisym :
  forall a b, leb a b = true -> leb b a = true -> a = b.

(** A list has one sorted arrangement only. *)
Lemma sorted_arrangement_unique (l1 : list A) :
  forall l2,
    StronglySorted (le_of leb) l1 -> StronglySorted (le_of leb) l2 ->
    Permutation l1 l2 -> l1 = l2.
Proof.
  induction l1 as [|x l1 IH]; intros l2 H1 H2 Hp.
  - apply Permutation_nil in Hp. now subst.
  - destruct l2 as [|y l2].
    + apply Permutation_sym, Permutation_nil in Hp. discriminate.
    + inversion H1 as [|? ? Hs1 Hall1]; subst.
      inversion H2 as [|? ? Hs2 Hall2]; subst.
      rewrite Forall_forall in Hall1, Hall2.
      assert (x = y) as Hxy.
      { assert (In x (y :: l2)) as Hx
          by (eapply Permutation_in; [exact Hp | now left]).
        assert (In y (x :: l1)) as Hy
          by (eapply Permutation_in;
              [apply Permutation_sym; exact Hp | now left]).
        destruct Hx as [Hx|Hx]; [now subst|].
        destruct Hy as [Hy|Hy]; [now subst|].
        apply leb_antisym; [now apply Hall1 | now apply Hall2]. }
      subst y. f_equal. apply IH; try assumption.
      eapply Permutation_cons_inv; exact Hp.
Qed.

(** [sorted] does not depend on the order of its argument. *)
Lemma sorted_of_permutation (l1 l2 : list A) :
  Permutation l1 l2 -> sorted leb l1 = sorted leb l2.
Proof.
  intros Hp. apply sorted_arrangement_unique; try apply sorted_sorted.
  eapply Permutation_trans; [apply Permutation_sym, sorted_perm|].
  eapply Permutation_trans; [exact Hp | apply sorted_perm].
Qed.

End SortFacts.

(** *** The order of strings *)

Lemma string_leb_trans (s1 s2 s3 : string) :
  String.leb s1 s2 = true -> String.leb s2 s3 = true ->
  String.leb s1 s3 = true.
Proof. exact (@node_leb_trans string string_node s1 s2 s3). Qed.

(** *** The computations of the verb *)

Section VerbProofs.

Context {NodeName : Type} {ops : NodeNameOps NodeName}.
Context {Pattern : Type} {engine : RegexEngine Pattern}.
Variable w : World NodeName.

Abbreviation Mn := (@M NodeName).

Lemma bindM_ret (A B : Type) (a : A) (k : A -> Mn B) :
  bindM (ret a) k = k a.
Proof. unfold bindM, ret. now destruct (k a). Qed.

Lemma bindM_emit (B : Type) (e : event) (k : unit -> Mn B) :
  bindM (emit e) k = (e :: fst (k tt), snd (k tt)).
Proof. unfold bindM, emit. now destruct (k tt). Qed.

Lemma bindM_ok (A B : Type) (c : Mn A) (k : A -> Mn B) (evs : list event)
    (a : A) :
  c = (evs, Ok a) -> bindM c k = (evs ++ fst (k a), snd (k a)).
Proof. intros ->. unfold bindM. now destruct (k a). Qed.

Lemma str_in_iff (x : string) (l : list string) :
  str_in x l = true <-> In x l.
Proof.
  unfold str_in. rewrite existsb_exists. split.
  - intros [y [Hin Heq]]. apply String.eqb_eq in Heq. now subst.
  - intros Hin. exists x. split; [assumption | apply String.eqb_refl].
Qed.

Lemma truthy_some (n : string) : n <> EmptyString -> truthy (Some n) = true.
Proof. destruct n; [congruence | reflexivity]. Qed.

(** C1: when a node name is given, resolves to a non-empty absolute name
    and that name is not the full name of a discovered node, [main] returns
    ["Node not found"] having only asked for the node names: no client is
    made, no service is called and nothing is printed. *)
Theorem unknown_node_returns_not_found (fuel : nat) (args : Args)
    (n : string) :
  get_absolute_node_name w (args_node_name args) = Some n ->
  n <> EmptyString ->
  ~ In n (map full_name (get_node_names w (args_include_hidden_nodes args))) ->
  main w fuel args
  = ([EvGetNodeNames (args_include_hidden_nodes args)],
     Ok (Some "Node not found"%string))
  /\ forall e, In e (fst (main w fuel args)) ->
       is_create_client e = false /\ is_rpc_call e = false
       /\ is_output e = false.
Proof.
  intros Habs Hne Hnotin.
  assert (main w fuel args
          = ([EvGetNodeNames (args_include_hidden_nodes args)],
             Ok (Some "Node not found"%string))) as Hmain.
  { unfold main. rewrite bindM_emit. rewrite Habs. unfold narrow.
    rewrite (truthy_some Hne).
    destruct (str_in n
                (map full_name
                     (get_node_names w (args_include_hidden_nodes args))))
      eqn:E.
    - apply str_in_iff in E. contradiction.
    - reflexivity. }
  split; [exact Hmain|].
  rewrite Hmain. simpl. intros e [He|[]]. subst e. repeat split.
Qed.

(** *** Printing the names of one node *)

Lemma for_each_cons (A : Type) (body : A -> Mn unit) (x : A) (l : list A) :
  for_each body (x :: l) = bindM (body x) (fun _ => for_each body l).
Proof. reflexivity. Qed.

Lemma print_names_plain (m : Dict.dict string string) (l : list string) :
  @print_names NodeName false m l
  = (map (fun name => EvStdout (Item name)) l, Ok tt).
Proof.
  unfold print_names. induction l as [|name l IH]; [reflexivity|].
  rewrite for_each_cons, bindM_emit, IH. reflexivity.
Qed.

(** With the types on, the names are printed up to the first one that the
    side table does not hold. *)
Lemma print_names_typed (m : Dict.dict string string) (pre : list string) :
  forall labels,
    Forall2 (fun name t => Dict.get String.eqb m name = Some t) pre labels ->
    @print_names NodeName true m pre
    = (map typed_event (combine pre labels), Ok tt)
    /\ forall name0 post,
         Dict.get String.eqb m name0 = None ->
         @print_names NodeName true m (pre ++ name0 :: post)
         = (map typed_event (combine pre labels),
            Raised (KeyErrorName name0)).
Proof.
  unfold print_names. induction 1 as [|name t pre labels Hget Hall IH].
  - split; [reflexivity|]. intros name0 post H0. simpl.
    rewrite H0. reflexivity.
  - destruct IH as [IH1 IH2]. split.
    + rewrite for_each_cons. rewrite Hget, bindM_emit, IH1. reflexivity.
    + intros name0 post H0. simpl app.
      rewrite for_each_cons. rewrite Hget, bindM_emit, (IH2 _ _ H0).
      reflexivity.
Qed.

Lemma stdout_of_app (l1 l2 : list event) :
  stdout_of (l1 ++ l2) = stdout_of l1 ++ stdout_of l2.
Proof.
  induction l1 as [|e l1 IH]; [reflexivity|].
  destruct e; simpl; now rewrite IH.
Qed.



(** *** The report of one node *)

Lemma report_node_completed (args : Args) (regex_filter : option Pattern)
    (futures : Dict.dict NodeName Future) (node_name : NodeName)
    (future : Future) (response : Response) :
  Dict.get node_eqb futures node_name = Some future ->
  future_result (future_state w future) = Some response ->
  let sorted_names := filtered_names regex_filter response in
  let printed :=
    @print_names NodeName (args_param_type args)
      (type_map_of w args node_name sorted_names) sorted_names in
  report_node w args regex_filter futures node_name
  = (header_events args node_name sorted_names
       ++ describe_events args node_name sorted_names ++ fst printed,
     snd printed).
Proof.
  intros Hget Hres sorted_names printed.
  unfold report_node. rewrite Hget, Hres. fold sorted_names.
  unfold header_events, describe_events, type_map_of, header_shown in *.
  destruct (negb (truthy (args_node_name args)) && nonempty sorted_names);
    destruct (args_param_type args) eqn:Ept;
    rewrite ?bindM_emit, ?bindM_ret; simpl;
    rewrite ?bindM_emit, ?bindM_ret; simpl; subst printed;
    now destruct (print_names _ _ _).
Qed.

Lemma report_node_failed (args : Args) (regex_filter : option Pattern)
    (futures : Dict.dict NodeName Future) (node_name : NodeName)
    (future : Future) :
  Dict.get node_eqb futures node_name = Some future ->
  future_result (future_state w future) = None ->
  report_node w args regex_filter futures node_name
  = ([EvStderr (error_line (full_name node_name)
                           (future_exception (future_state w future)))],
     Ok tt).
Proof.
  intros Hget Hres. unfold report_node. now rewrite Hget, Hres.
Qed.


(** *** The side table of types *)

Lemma find_in_app (A : Type) (f : A -> bool) (l1 l2 : list A) :
  List.find f (l1 ++ l2)
  = match List.find f l1 with
    | Some x => Some x
    | None => List.find f l2
    end.
Proof.
  induction l1 as [|x l1 IH]; simpl; [reflexivity|].
  now destruct (f x).
Qed.

Lemma get_type_map_from (ds : list Descriptor) :
  forall (acc : Dict.dict string string) (name : string),
    Dict.get String.eqb
      (fold_left
         (fun m d => Dict.set String.eqb m (descriptor_name d) (label_of w d))
         ds acc) name
    = match List.find (named name) (rev ds) with
      | Some d => Some (label_of w d)
      | None => Dict.get String.eqb acc name
      end.
Proof.
  induction ds as [|d ds IH]; intros acc name; simpl; [reflexivity|].
  rewrite IH, find_in_app.
  destruct (List.find (named name) (rev ds)); [reflexivity|].
  simpl. unfold named at 1. destruct (String.eqb (descriptor_name d) name) eqn:E.
  - apply String.eqb_eq in E. subst.
    apply (@get_set_same _ _ String.eqb String.eqb_eq).
  - apply String.eqb_neq in E.
    now apply (@get_set_other _ _ String.eqb String.eqb_eq).
Qed.

Lemma get_type_map (ds : list Descriptor) (name : string) :
  Dict.get String.eqb (build_type_map w ds) name = type_label w ds name.
Proof.
  unfold build_type_map, type_label.
  change (fun (name_to_type_map : Dict.dict string string)
              (descriptor : Descriptor) =>
            Dict.set String.eqb name_to_type_map (descriptor_name descriptor)
              (get_parameter_type_string w (descriptor_type descriptor)))
    with (fun m d => Dict.set String.eqb m (descriptor_name d) (label_of w d)).
  rewrite get_type_map_from.
  now destruct (List.find (named name) (rev ds)).
Qed.

Lemma type_label_some (ds : list Descriptor) (name : string) :
  has_descriptor ds name <-> exists t, type_label w ds name = Some t.
Proof.
  unfold has_descriptor, type_label. split.
  - intros [d [Hin Hname]].
    destruct (List.find (named name) (rev ds)) as [d'|] eqn:E.
    + now exists (label_of w d').
    + exfalso. apply in_rev in Hin.
      pose proof (find_none _ _ E _ Hin) as Hf. unfold named in Hf.
      subst name. rewrite String.eqb_refl in Hf. discriminate.
  - intros [t Ht].
    destruct (List.find (named name) (rev ds)) as [d'|] eqn:E;
      [|discriminate].
    apply find_some in E. destruct E as [Hin Hn]. exists d'. split.
    + now apply in_rev.
    + now apply String.eqb_eq.
Qed.

Lemma type_label_none (ds : list Descriptor) (name : string) :
  ~ has_descriptor ds name -> type_label w ds name = None.
Proof.
  intros H. destruct (type_label w ds name) as [t|] eqn:E; [|reflexivity].
  exfalso. apply H. apply type_label_some. now exists t.
Qed.

Lemma labels_exist (ds : list Descriptor) (l : list string) :
  (forall name, In name l -> has_descriptor ds name) ->
  exists labels, Forall2 (fun name t => type_label w ds name = Some t) l labels.
Proof.
  induction l as [|name l IH]; intros H.
  - exists []. constructor.
  - destruct IH as [labels Hl]; [intros n Hn; apply H; now right|].
    destruct (proj1 (type_label_some ds name) (H name (or_introl eq_refl)))
      as [t Ht].
    exists (t :: labels). now constructor.
Qed.

(** C10: with the types on, each filtered name is looked up in the side
    table built from the descriptors of the [DescribeParameters] response.
    When every filtered name has a descriptor, no lookup fails and each name
    is printed as [  <name> (type: <label>)] with the label of its (last)
    descriptor.  When a filtered name has none, the first such name makes
    the lookup raise [KeyError], after the lines of the names before it. *)
Theorem typed_lines_need_descriptors (args : Args)
    (regex_filter : option Pattern) (futures : Dict.dict NodeName Future)
    (node_name : NodeName) (future : Future) (response : Response) :
  args_param_type args = true ->
  Dict.get node_eqb futures node_name = Some future ->
  future_result (future_state w future) = Some response ->
  let sorted_names := filtered_names regex_filter response in
  let descriptors :=
    call_describe_parameters w (full_name node_name) sorted_names in
  let report := report_node w args regex_filter futures node_name in
  let before :=
    header_events args node_name sorted_names
      ++ [EvDescribeParameters (full_name node_name) sorted_names] in
  ((forall name, In name sorted_names -> has_descriptor descriptors name) ->
     exists labels,
       Forall2 (fun name t => type_label w descriptors name = Some t)
               sorted_names labels
       /\ report
          = (before ++ map typed_event (combine sorted_names labels), Ok tt))
  /\ (forall pre name0 post,
        sorted_names = pre ++ name0 :: post ->
        (forall name, In name pre -> has_descriptor descriptors name) ->
        ~ has_descriptor descriptors name0 ->
        exists labels,
          Forall2 (fun name t => type_label w descriptors name = Some t)
                  pre labels
          /\ report
             = (before ++ map typed_event (combine pre labels),
                Raised (KeyErrorName name0)))
  /\ (forall name t,
        render (TypedItem name t)
        = ("  " ++ name ++ " (type: " ++ t ++ ")")%string).
Proof.
  intros Hpt Hget Hres sorted_names descriptors report before.
  assert (report
          = (before
               ++ fst (@print_names NodeName true
                         (build_type_map w descriptors) sorted_names),
             snd (@print_names NodeName true
                    (build_type_map w descriptors) sorted_names))) as Hrep.
  { subst report before.
    rewrite (report_node_completed args regex_filter futures node_name
               Hget Hres).
    cbv zeta. fold sorted_names.
    unfold describe_events, type_map_of. rewrite Hpt.
    fold descriptors. now rewrite <- app_assoc. }
  split; [|split].
  - intros Hall. destruct (@labels_exist descriptors sorted_names Hall)
      as [labels Hl].
    exists labels. split; [exact Hl|]. rewrite Hrep.
    assert (Forall2
              (fun name t =>
                 Dict.get String.eqb (build_type_map w descriptors) name
                 = Some t) sorted_names labels) as Hl'.
    { eapply Forall2_impl; [|exact Hl]. intros a b Hab.
      now rewrite get_type_map. }
    destruct (@print_names_typed _ _ _ Hl') as [Hok _]. now rewrite Hok.
  - intros pre name0 post Hsplit Hpre Hmiss.
    destruct (@labels_exist descriptors pre Hpre) as [labels Hl].
    exists labels. split; [exact Hl|]. rewrite Hrep.
    assert (Forall2
              (fun name t =>
                 Dict.get String.eqb (build_type_map w descriptors) name
                 = Some t) pre labels) as Hl'.
    { eapply Forall2_impl; [|exact Hl]. intros a b Hab.
      now rewrite get_type_map. }
    destruct (@print_names_typed _ _ _ Hl') as [_ Hfail].
    rewrite Hsplit.
    rewrite (Hfail name0 post); [reflexivity|].
    rewrite get_type_map. now apply type_label_none.
  - reflexivity.
Qed.

(** *** The loop over the sorted node names *)


Lemma for_each_ext (A : Type) (body1 body2 : A -> Mn unit) (l : list A) :
  (forall x, In x l -> body1 x = body2 x) ->
  for_each body1 l = for_each body2 l.
Proof.
  induction l as [|x l IH]; intros H; simpl; [reflexivity|].
  rewrite (H x (or_introl eq_refl)).
  rewrite IH; [reflexivity|]. intros y Hy. apply H. now right.
Qed.

(** When every round ends well, the events are those of the rounds, one
    after the other. *)
Lemma for_each_all_ok (A : Type) (body : A -> Mn unit) (l : list A) :
  (forall x, In x l -> exists evs, body x = (evs, Ok tt)) ->
  for_each body l = (flat_map (fun x => fst (body x)) l, Ok tt).
Proof.
  induction l as [|x l IH]; intros H; simpl; [reflexivity|].
  destruct (H x (or_introl eq_refl)) as [evs Hx].
  rewrite (bindM_ok _ Hx), IH by (intros y Hy; apply H; now right).
  now rewrite Hx.
Qed.

(** In any case the events are those of the rounds over a first part of
    the list. *)
Lemma for_each_prefix (A : Type) (body : A -> Mn unit) (l : list A) :
  exists n,
    fst (for_each body l) = flat_map (fun x => fst (body x)) (firstn n l).
Proof.
  induction l as [|x l [n IH]]; simpl.
  - exists 0%nat. reflexivity.
  - unfold bindM. destruct (body x) as [evs [[]|e|]] eqn:Ex.
    + exists (S n). simpl. rewrite Ex. simpl.
      destruct (for_each body l) as [evs' r]. simpl in *. now rewrite IH.
    + exists 1%nat. simpl. rewrite Ex. simpl. now rewrite app_nil_r.
    + exists 1%nat. simpl. rewrite Ex. simpl. now rewrite app_nil_r.
Qed.

Lemma report_node_only_state (args : Args) (regex_filter : option Pattern)
    (futures1 futures2 : Dict.dict NodeName Future) (node_name : NodeName) :
  state_of w futures1 node_name = state_of w futures2 node_name ->
  In node_name (Dict.keys futures1) ->
  report_node w args regex_filter futures1 node_name
  = report_node w args regex_filter futures2 node_name.
Proof.
  unfold state_of, report_node. intros Hst Hin.
  destruct (@in_keys_get _ _ node_eqb node_eqb_eq futures1 node_name Hin) as [f1 H1].
  rewrite H1 in *. simpl in Hst.
  destruct (Dict.get node_eqb futures2 node_name) as [f2|];
    [|discriminate].
  simpl in Hst. inversion Hst as [Hs]. now rewrite Hs.
Qed.







Lemma sorted_keys_in (futures : Dict.dict NodeName Future) (x : NodeName) :
  In x (sorted node_leb (Dict.keys futures)) -> In x (Dict.keys futures).
Proof.
  apply Permutation_in, Permutation_sym, sorted_perm.
Qed.


Lemma stdout_of_items (l : list string) :
  stdout_of (map (fun name => EvStdout (Item name)) l) = map Item l.
Proof. induction l as [|x l IH]; simpl; [reflexivity | now rewrite IH]. Qed.

(** Without the types, a node with a response gets its header, if any,
    and then its filtered names, one per line. *)
Lemma untyped_report_lines (args : Args) (regex_filter : option Pattern)
    (futures : Dict.dict NodeName Future) (node_name : NodeName)
    (future : Future) (response : Response) :
  args_param_type args = false ->
  Dict.get node_eqb futures node_name = Some future ->
  future_result (future_state w future) = Some response ->
  stdout_of (fst (report_node w args regex_filter futures node_name))
  = stdout_of (header_events args node_name
                 (filtered_names regex_filter response))
      ++ map Item (filtered_names regex_filter response).
Proof.
  intros Hpt Hget Hres.
  rewrite (report_node_completed args regex_filter futures node_name
             Hget Hres).
  cbv zeta. cbn [fst]. rewrite !stdout_of_app.
  unfold describe_events. rewrite Hpt, print_names_plain. cbn [fst].
  now rewrite stdout_of_items.
Qed.

(** C2: the reports are made node after node in the sorted order of the
    node names, the events being those of the reports over a first part of
    that order (all of it unless a report raises).  Two collections of
    futures with the same node names and the same state for each node, in
    whatever order the calls were made, give the same report.  Within a
    node, the names of the response are sorted before they are filtered,
    and they are printed in that order. *)
Theorem report_follows_sorted_names (args : Args)
    (regex_filter : option Pattern)
    (futures futures' : Dict.dict NodeName Future) :
  Permutation (Dict.keys futures) (Dict.keys futures') ->
  (forall node_name, In node_name (Dict.keys futures) ->
     state_of w futures node_name = state_of w futures' node_name) ->
  let order := sorted node_leb (Dict.keys futures) in
  StronglySorted (le_of node_leb) order
  /\ Permutation (Dict.keys futures) order
  /\ (exists n,
        fst (print_responses w args regex_filter futures)
        = flat_map
            (fun x => fst (report_node w args regex_filter futures x))
            (firstn n order))
  /\ print_responses w args regex_filter futures'
     = print_responses w args regex_filter futures
  /\ (forall response,
        let sorted_names := sorted String.leb (names response) in
        StronglySorted (le_of String.leb) sorted_names
        /\ Permutation (names response) sorted_names
        /\ filtered_names regex_filter response
           = match regex_filter with
             | Some p => List.filter (re_match p) sorted_names
             | None => sorted_names
             end
        /\ StronglySorted (le_of String.leb)
                          (filtered_names regex_filter response))
  /\ (forall node_name future response,
        args_param_type args = false ->
        Dict.get node_eqb futures node_name = Some future ->
        future_result (future_state w future) = Some response ->
        stdout_of (fst (report_node w args regex_filter futures node_name))
        = stdout_of (header_events args node_name
                       (filtered_names regex_filter response))
            ++ map Item (filtered_names regex_filter response)).
Proof.
  intros Hperm Hstate order.
  assert (forall l, StronglySorted (le_of String.leb) (sorted String.leb l))
    as Hstr.
  { intros l. apply sorted_sorted.
    - apply String.leb_total.
    - apply string_leb_trans. }
  split; [|split; [|split; [|split; [|split]]]].
  - apply sorted_sorted; [apply node_leb_total | apply node_leb_trans].
  - apply sorted_perm.
  - apply for_each_prefix.
  - unfold print_responses.
    rewrite <- (@sorted_of_permutation _ node_leb node_leb_total
                  node_leb_trans node_leb_antisym _ _ Hperm).
    fold order. apply for_each_ext. intros x Hx.
    assert (In x (Dict.keys futures)) as Hin by now apply sorted_keys_in.
    assert (In x (Dict.keys futures')) as Hin'
      by (eapply Permutation_in; [exact Hperm | exact Hin]).
    apply report_node_only_state; [|exact Hin'].
    symmetry. now apply Hstate.
  - intros response sorted_names. split; [apply Hstr|].
    split; [apply sorted_perm|]. split; [reflexivity|].
    unfold filtered_names. destruct regex_filter as [p|]; [|apply Hstr].
    apply filter_sorted, Hstr.
  - intros node_name future response Hpt Hget Hres.
    now apply (untyped_report_lines args regex_filter futures node_name
                 Hpt Hget Hres).
Qed.

Lemma surjective_pairing_ok (A : Type) (c : Mn A) (a : A) :
  snd c = Ok a -> c = (fst c, Ok a).
Proof. destruct c as [evs r]. simpl. now intros ->. Qed.

(** *** The pool of clients *)

Lemma create_clients_cons (service_names : list string) (k : NodeName)
    (rest : list NodeName) (next_id : nat)
    (clients : Dict.dict NodeName Client) :
  create_clients service_names (k :: rest) next_id clients
  = if has_service service_names k then
      bindM (emit (EvCreateClient (service_of k)))
        (fun _ =>
           create_clients service_names rest (S next_id)
             (Dict.set node_eqb clients k
                {| client_id := next_id;
                   client_service_name := service_of k |}))
    else create_clients service_names rest next_id clients.
Proof. reflexivity. Qed.

Lemma clients_ok_set (next_id : nat) (clients : Dict.dict NodeName Client)
    (k : NodeName) :
  clients_ok next_id clients ->
  clients_ok (S next_id)
    (Dict.set node_eqb clients k
       {| client_id := next_id; client_service_name := service_of k |}).
Proof.
  intros [Hkeys [Hids [Hlt Hname]]]. repeat split.
  - now apply (@NoDup_keys_set _ _ node_eqb node_eqb_eq).
  - apply (@NoDup_values_set _ _ node_eqb node_eqb_eq); [assumption|].
    simpl. intros Hin. apply in_map_iff in Hin.
    destruct Hin as [c [Hc Hin]]. apply Hlt in Hin. lia.
  - intros c Hin.
    destruct (@in_values_set _ _ node_eqb node_eqb_eq _ _ _ _ Hin)
      as [->|Hin'].
    + simpl. lia.
    + apply Hlt in Hin'. lia.
  - intros k' c Hin.
    destruct (@in_set _ _ node_eqb node_eqb_eq _ _ _ _ _ Hin)
      as [[-> ->]|Hin'].
    + reflexivity.
    + now apply Hname.
Qed.

Lemma create_clients_spec (service_names : list string) :
  forall node_names next_id clients,
    clients_ok next_id clients ->
    exists clients' next_id',
      create_clients service_names node_names next_id clients
      = (map (fun k => EvCreateClient (service_of k))
             (List.filter (has_service service_names) node_names),
         Ok clients')
      /\ clients_ok next_id' clients'
      /\ forall k,
           In k (Dict.keys clients') <->
           In k (Dict.keys clients)
           \/ (In k node_names /\ has_service service_names k = true).
Proof.
  induction node_names as [|k rest IH]; intros next_id clients Hok.
  - exists clients, next_id. split; [reflexivity|]. split; [assumption|].
    intros k. simpl. tauto.
  - rewrite create_clients_cons. simpl List.filter.
    destruct (has_service service_names k) eqn:E.
    + destruct (IH (S next_id) _ (clients_ok_set k Hok))
        as [clients' [next_id' [Hrun [Hok' Hkeys]]]].
      exists clients', next_id'. split; [|split; [assumption|]].
      * rewrite bindM_emit, Hrun. reflexivity.
      * intros k'. rewrite Hkeys.
        rewrite (@in_keys_set _ _ node_eqb node_eqb_eq). simpl. split.
        -- intros [[->|H]|[H1 H2]]; auto.
        -- intros [H|[[->|H1] H2]]; auto.
    + destruct (IH next_id clients Hok)
        as [clients' [next_id' [Hrun [Hok' Hkeys]]]].
      exists clients', next_id'. split; [assumption|].
      split; [assumption|].
      intros k'. rewrite Hkeys. simpl. split.
      * intros [H|[H1 H2]]; auto.
      * intros [H|[[->|H1] H2]]; auto. congruence.
Qed.



(** *** The dispatch loop *)

Lemma calls_of_app (l1 l2 : list event) :
  calls_of (l1 ++ l2) = calls_of l1 ++ calls_of l2.
Proof.
  induction l1 as [|e l1 IH]; [reflexivity|].
  destruct e; simpl; now rewrite IH.
Qed.

Lemma dispatch_ready_cons (args : Args) (round : nat)
    (clients : Dict.dict NodeName Client) (k : NodeName)
    (rest : list NodeName) (futures : Dict.dict NodeName Future) :
  dispatch_ready w args round clients (k :: rest) futures
  = match Dict.get node_eqb clients k with
    | None => raise (KeyErrorNode k)
    | Some client =>
        bindM (emit (EvServiceIsReady client (service_is_ready w client round)))
          (fun _ =>
             if service_is_ready w client round then
               bindM (emit (EvCallAsync client (build_request args)))
                 (fun _ =>
                    dispatch_ready w args round clients rest
                      (Dict.set node_eqb futures k
                                (future_of args round client)))
             else dispatch_ready w args round clients rest futures)
    end.
Proof. reflexivity. Qed.

Lemma futures_ok_add (clients : Dict.dict NodeName Client)
    (futures : Dict.dict NodeName Future) (k : NodeName) (f : Future) :
  futures_ok clients futures ->
  ~ In k (Dict.keys futures) ->
  Dict.get node_eqb clients k = Some (future_client f) ->
  futures_ok clients (futures ++ [(k, f)]).
Proof.
  intros [Hnd Hfrom] Hnew Hget. split.
  - rewrite <- (@set_absent _ _ node_eqb node_eqb_eq futures k f Hnew).
    now apply (@NoDup_keys_set _ _ node_eqb node_eqb_eq).
  - intros k' f' Hin. apply in_app_or in Hin. destruct Hin as [Hin|[Hin|[]]].
    + now apply Hfrom.
    + inversion Hin; subst. exact Hget.
Qed.

(** One pass over the pending nodes: it cannot raise, it calls the clients
    that are ready, one call each, and appends their futures. *)
Lemma dispatch_ready_spec (args : Args) (round : nat)
    (clients : Dict.dict NodeName Client) :
  forall pending futures,
    NoDup pending ->
    (forall k, In k pending ->
       In k (Dict.keys clients) /\ ~ In k (Dict.keys futures)) ->
    futures_ok clients futures ->
    exists evs added,
      dispatch_ready w args round clients pending futures
      = (evs, Ok (futures ++ added))
      /\ futures_ok clients (futures ++ added)
      /\ calls_of evs = map future_client (Dict.values added)
      /\ (forall k, In k (Dict.keys added) -> In k pending)
      /\ (forall k c, In k pending ->
            Dict.get node_eqb clients k = Some c ->
            service_is_ready w c round = true ->
            In k (Dict.keys added)).
Proof.
  induction pending as [|k rest IH]; intros futures Hnd Hpend Hok.
  - exists [], []. rewrite app_nil_r. repeat split; try assumption.
    + apply Hok.
    + apply Hok.
    + intros k [].
    + intros k c [].
  - inversion Hnd as [|? ? Hknew Hnd']; subst.
    destruct (Hpend k (or_introl eq_refl)) as [Hkc Hkf].
    destruct (@in_keys_get _ _ node_eqb node_eqb_eq clients k Hkc)
      as [client Hclient].
    rewrite dispatch_ready_cons, Hclient, bindM_emit.
    destruct (service_is_ready w client round) eqn:Eready.
    + rewrite bindM_emit.
      rewrite (@set_absent _ _ node_eqb node_eqb_eq futures k _ Hkf).
      destruct (IH (futures ++ [(k, future_of args round client)]) Hnd')
        as [evs [added [Hrun [Hok' [Hcalls [Hin Hready]]]]]].
      * intros k' Hk'. destruct (Hpend k' (or_intror Hk')) as [H1 H2].
        split; [assumption|]. unfold Dict.keys. rewrite map_app, in_app_iff.
        intros [H|[H|[]]]; [now apply H2|]. simpl in H. now subst.
      * now apply futures_ok_add.
      * exists (EvServiceIsReady client true
                  :: EvCallAsync client (build_request args) :: evs),
               ((k, future_of args round client) :: added).
        rewrite <- app_assoc in Hrun, Hok'. simpl in Hrun, Hok'.
        rewrite Hrun. repeat split; try apply Hok'.
        -- simpl. now rewrite Hcalls.
        -- simpl. intros k' [H|H]; [now left | right; now apply Hin].
        -- intros k' c [Hk'|Hk'] Hc Hr; simpl.
           ++ now left.
           ++ right. now apply (Hready k' c).
    + destruct (IH futures Hnd')
        as [evs [added [Hrun [Hok' [Hcalls [Hin Hready]]]]]].
      * intros k' Hk'. apply Hpend. now right.
      * assumption.
      * exists (EvServiceIsReady client false :: evs), added.
        rewrite Hrun. repeat split; try apply Hok'.
        -- simpl. exact Hcalls.
        -- intros k' H. right. now apply Hin.
        -- intros k' c [Hk'|Hk'] Hc Hr.
           ++ subst k'. rewrite Hclient in Hc. inversion Hc; subst.
              congruence.
           ++ now apply (Hready k' c).
Qed.

Lemma pending_of_spec (clients : Dict.dict NodeName Client)
    (futures : Dict.dict NodeName Future) :
  NoDup (Dict.keys clients) ->
  NoDup (pending_of clients futures)
  /\ forall k, In k (pending_of clients futures) <->
       In k (Dict.keys clients) /\ ~ In k (Dict.keys futures).
Proof.
  intros Hnd. split.
  - now apply NoDup_filter.
  - intros k. unfold pending_of. rewrite filter_In, negb_true_iff.
    now rewrite (@mem_false_iff _ _ node_eqb node_eqb_eq).
Qed.

Lemma dispatch_loop_step (fuel round : nat) (args : Args)
    (clients : Dict.dict NodeName Client)
    (futures : Dict.dict NodeName Future) :
  dispatch_loop w (S fuel) round args clients futures
  = bindM (dispatch_ready w args round clients (pending_of clients futures)
                          futures)
      (fun futures' =>
         if Nat.eqb (List.length futures') (List.length clients)
         then ret futures'
         else bindM (emit EvSpinOnce)
                (fun _ =>
                   dispatch_loop w fuel (S round) args clients futures')).
Proof. reflexivity. Qed.

(** The loop cannot raise; the calls it makes are those of the futures it
    adds; when it ends, there are as many futures as clients. *)
Lemma dispatch_loop_spec (args : Args) (clients : Dict.dict NodeName Client) :
  NoDup (Dict.keys clients) ->
  forall fuel round futures,
    futures_ok clients futures ->
    (forall k, In k (Dict.keys futures) -> In k (Dict.keys clients)) ->
    exists evs added,
      fst (dispatch_loop w fuel round args clients futures) = evs
      /\ futures_ok clients (futures ++ added)
      /\ (forall k, In k (Dict.keys (futures ++ added)) ->
            In k (Dict.keys clients))
      /\ calls_of evs = map future_client (Dict.values added)
      /\ (snd (dispatch_loop w fuel round args clients futures) = OutOfFuel
          \/ (snd (dispatch_loop w fuel round args clients futures)
              = Ok (futures ++ added)
              /\ List.length (futures ++ added) = List.length clients)).
Proof.
  intros Hnd. induction fuel as [|fuel IH]; intros round futures Hok Hsub.
  - exists [], []. rewrite app_nil_r. simpl. repeat split; try apply Hok.
    + assumption.
    + now left.
  - destruct (pending_of_spec clients futures Hnd) as [Hpnd Hpin].
    destruct (@dispatch_ready_spec args round clients _ _ Hpnd
                (fun k Hk => proj1 (Hpin k) Hk) Hok)
      as [evs1 [added1 [Hrun [Hok1 [Hcalls1 [Hin1 _]]]]]].
    assert (forall k, In k (Dict.keys (futures ++ added1)) ->
                      In k (Dict.keys clients)) as Hsub1.
    { intros k. unfold Dict.keys. rewrite map_app, in_app_iff.
      intros [H|H]; [now apply Hsub|].
      apply Hin1 in H. now apply Hpin in H. }
    rewrite dispatch_loop_step, (bindM_ok _ Hrun).
    destruct (Nat.eqb (List.length (futures ++ added1)) (List.length clients))
      eqn:Elen.
    + exists evs1, added1. simpl. rewrite app_nil_r.
      repeat split; try apply Hok1; try assumption.
      right. split; [reflexivity|]. now apply Nat.eqb_eq.
    + destruct (IH (S round) (futures ++ added1) Hok1 Hsub1)
        as [evs2 [added2 [Hev2 [Hok2 [Hsub2 [Hcalls2 Hend]]]]]].
      rewrite bindM_emit. cbn [fst snd].
      exists (evs1 ++ EvSpinOnce :: evs2), (added1 ++ added2).
      rewrite app_assoc. rewrite Hev2.
      repeat split; try apply Hok2; try assumption.
      rewrite calls_of_app. simpl. rewrite Hcalls1, Hcalls2.
      unfold Dict.values. now rewrite !map_app.
Qed.



Lemma all_dispatched_length (clients : Dict.dict NodeName Client)
    (futures : Dict.dict NodeName Future) :
  NoDup (Dict.keys clients) ->
  NoDup (Dict.keys futures) ->
  (forall k, In k (Dict.keys futures) -> In k (Dict.keys clients)) ->
  (forall k, In k (Dict.keys clients) -> In k (Dict.keys futures)) ->
  List.length futures = List.length clients.
Proof.
  intros Hc Hf H1 H2.
  pose proof (NoDup_incl_length Hf H1) as L1.
  pose proof (NoDup_incl_length Hc H2) as L2.
  unfold Dict.keys in L1, L2. rewrite !length_map in L1, L2. lia.
Qed.

(** When every client that has no future yet is ready at one of the next
    [fuel] rounds, [S fuel] rounds are enough for the loop to end. *)
Lemma dispatch_loop_ends (args : Args) (clients : Dict.dict NodeName Client) :
  NoDup (Dict.keys clients) ->
  forall fuel round futures,
    futures_ok clients futures ->
    (forall k, In k (Dict.keys futures) -> In k (Dict.keys clients)) ->
    (forall k c, In (k, c) clients -> ~ In k (Dict.keys futures) ->
       exists r, (round <= r < round + fuel)%nat
                 /\ service_is_ready w c r = true) ->
    exists evs futures',
      dispatch_loop w (S fuel) round args clients futures
      = (evs, Ok futures').
Proof.
  intros Hnd. induction fuel as [|fuel IH];
    intros round futures Hok Hsub Hready;
    destruct (pending_of_spec clients futures Hnd) as [Hpnd Hpin];
    destruct (@dispatch_ready_spec args round clients _ _ Hpnd
                (fun k Hk => proj1 (Hpin k) Hk) Hok)
      as [evs1 [added1 [Hrun [Hok1 [_ [Hin1 Hcalled]]]]]];
    assert (forall k, In k (Dict.keys (futures ++ added1)) ->
                      In k (Dict.keys clients)) as Hsub1
      by (intros k; unfold Dict.keys; rewrite map_app, in_app_iff;
          intros [H|H]; [now apply Hsub | apply Hin1 in H; now apply Hpin in H]);
    rewrite dispatch_loop_step, (bindM_ok _ Hrun);
    destruct (Nat.eqb (List.length (futures ++ added1)) (List.length clients))
      eqn:Elen;
    try (eexists; eexists; reflexivity).
  - exfalso. apply Nat.eqb_neq in Elen. apply Elen.
    apply all_dispatched_length; try assumption; [apply Hok1|].
    intros k Hk. unfold Dict.keys. rewrite map_app, in_app_iff. left.
    destruct (@in_keys_dec _ _ node_eqb node_eqb_eq futures k) as [H|H];
      [assumption|].
    destruct (@in_keys_get _ _ node_eqb node_eqb_eq clients k Hk) as [c Hc].
    apply (@get_some_in _ _ node_eqb node_eqb_eq) in Hc.
    destruct (Hready k c Hc H) as [r [Hr _]]. lia.
  - rewrite bindM_emit.
    destruct (IH (S round) (futures ++ added1) Hok1 Hsub1)
      as [evs2 [futures' Hloop]].
    + intros k c Hkc Hnot.
      assert (~ In k (Dict.keys futures)) as Hnot0.
      { intros H. apply Hnot. unfold Dict.keys.
        rewrite map_app, in_app_iff. now left. }
      destruct (Hready k c Hkc Hnot0) as [r [Hr Hrdy]].
      exists r. split; [|assumption].
      assert (r <> round) as Hne.
      { intros ->. apply Hnot. unfold Dict.keys.
        rewrite map_app, in_app_iff. right.
        apply (Hcalled k c).
        - apply Hpin. split; [|assumption].
          apply (in_map fst) in Hkc. exact Hkc.
        - now apply (@in_get_some _ _ node_eqb node_eqb_eq).
        - assumption. }
      lia.
    + rewrite Hloop. eexists; eexists; reflexivity.
Qed.





End VerbProofs.

(** In the sample world, asking for [ghost] gives ["Node not found"] and
    nothing else happens. *)
Lemma unknown_node_returns_not_found_witness :
  sample_main (sample_world talker_names (fun _ => true)) 3
              (sample_args (Some "ghost"%string) None true)
  = ([EvGetNodeNames false], Ok (Some "Node not found"%string)).
Proof.
  refine (proj1 (@unknown_node_returns_not_found string string_node
                   MiniRe.pattern MiniRe.engine
                   (sample_world talker_names (fun _ => true)) 3
                   (sample_args (Some "ghost"%string) None true)
                   "/ghost"%string eq_refl _ _)).
  - discriminate.
  - simpl. intros [H|[H|[]]]; discriminate.
Defined.

(** *** The sample world at work *)


(** With a descriptor for every name the typed report of [/talker] ends
    well; when [x2] gets none, it raises [KeyError] on [x2]. *)
Lemma typed_lines_need_descriptors_witness :
  snd (sample_report_node (sample_world talker_names (fun _ => true))
         (sample_args None None true) None sample_futures "/talker"%string)
  = Ok tt
  /\ snd (sample_report_node
            (sample_world talker_names
                          (fun name => negb (String.eqb name "x2")))
            (sample_args None None true) None sample_futures
            "/talker"%string)
     = Raised (KeyErrorName "x2").
Proof.
  split.
  - destruct (@typed_lines_need_descriptors string string_node MiniRe.pattern
                MiniRe.engine (sample_world talker_names (fun _ => true))
                (sample_args None None true) None sample_futures
                "/talker"%string (sample_future talker_client 0)
                {| names := ["x2"%string; "y1"%string; "x1"%string] |}
                eq_refl eq_refl eq_refl) as [Hok _].
    destruct Hok as [labels [_ Hrep]].
    + intros name Hin. simpl in Hin.
      destruct Hin as [<-|[<-|[<-|[]]]];
        [exists {| descriptor_name := "x1"; descriptor_type := 2%N |}
        |exists {| descriptor_name := "x2"; descriptor_type := 2%N |}
        |exists {| descriptor_name := "y1"; descriptor_type := 2%N |}];
        (split; [simpl; tauto | reflexivity]).
    + unfold sample_report_node. now rewrite Hrep.
  - destruct (@typed_lines_need_descriptors string string_node MiniRe.pattern
                MiniRe.engine
                (sample_world talker_names
                              (fun name => negb (String.eqb name "x2")))
                (sample_args None None true) None sample_futures
                "/talker"%string (sample_future talker_client 0)
                {| names := ["x2"%string; "y1"%string; "x1"%string] |}
                eq_refl eq_refl eq_refl) as [_ [Hfail _]].
    destruct (Hfail ["x1"%string] "x2"%string ["y1"%string] eq_refl)
      as [labels [_ Hrep]].
    + intros name [<-|[]].
      exists {| descriptor_name := "x1"; descriptor_type := 2%N |}.
      split; [simpl; tauto | reflexivity].
    + intros [d [Hin Hname]]. simpl in Hin.
      destruct Hin as [<-|[<-|[]]]; discriminate.
    + unfold sample_report_node. now rewrite Hrep.
Defined.


(** Whichever of the two nodes was called first, the report is the same,
    with [/listener] before [/talker] and the names of [/talker] sorted. *)
Lemma report_follows_sorted_names_witness :
  sample_print_responses (sample_world talker_names (fun _ => true))
    (sample_args None None false) None sample_futures'
  = sample_print_responses (sample_world talker_names (fun _ => true))
      (sample_args None None false) None sample_futures
  /\ stdout_of
       (fst (sample_print_responses
               (sample_world talker_names (fun _ => true))
               (sample_args None None false) None sample_futures'))
     = [Header "/listener"; Item "use_sim_time";
        Header "/talker"; Item "x1"; Item "x2"; Item "y1"].
Proof.
  destruct (@report_follows_sorted_names string string_node MiniRe.pattern
              MiniRe.engine (sample_world talker_names (fun _ => true))
              (sample_args None None false) None
              sample_futures sample_futures')
    as [_ [_ [_ [Heq _]]]].
  - apply perm_swap.
  - intros node_name Hin. simpl in Hin.
    destruct Hin as [<-|[<-|[]]]; reflexivity.
  - unfold sample_print_responses. split; [exact Heq|].
    rewrite Heq. reflexivity.
Defined.

(** *** Matching from the start *)







#[local] Existing Instance MiniRe.engine.





End ParamListProofs.

(** ** More on [ros2param/verb/list.py] *)

Module ParamListMoreProofs.

Import ParamList ParamListTrace ParamListExamples ParamListMoreExamples.
Import ParamListProofs.

#[local] Open Scope nat_scope.

Section MainProofs.

Context {NodeName : Type} {ops : NodeNameOps NodeName}.
Context {Pattern : Type} {engine : RegexEngine Pattern}.

Variable w : World NodeName.

Local Abbreviation Mn := (@M NodeName).

(** *** Events and end of a sequence *)

Lemma bindM_fst (A B : Type) (c : Mn A) (k : A -> Mn B) :
  fst (bindM c k)
  = fst c ++ match snd c with Ok a => fst (k a) | _ => [] end.
Proof.
  destruct c as [evs [a|e|]]; simpl.
  - now destruct (k a).
  - now rewrite app_nil_r.
  - now rewrite app_nil_r.
Qed.

Lemma bindM_snd (A B : Type) (c : Mn A) (k : A -> Mn B) :
  snd (bindM c k)
  = match snd c with
    | Ok a => snd (k a)
    | Raised e => Raised e
    | OutOfFuel => OutOfFuel
    end.
Proof.
  destruct c as [evs [a|e|]]; simpl; [now destruct (k a) | reflexivity..].
Qed.

Lemma for_each_events (A : Type) (P : event -> Prop) (body : A -> Mn unit)
    (l : list A) :
  (forall x, In x l -> Forall P (fst (body x))) ->
  Forall P (fst (for_each body l)).
Proof.
  induction l as [|x l IH]; intros H.
  - constructor.
  - rewrite for_each_cons, bindM_fst. apply Forall_app. split.
    + apply H. now left.
    + destruct (snd (body x)); [|constructor..].
      apply IH. intros y Hy. apply H. now right.
Qed.

Lemma for_each_ok_inv (A : Type) (body : A -> Mn unit) (l : list A)
    (evs : list event) :
  for_each body l = (evs, Ok tt) ->
  forall x, In x l -> exists evs', body x = (evs', Ok tt).
Proof.
  revert evs. induction l as [|x l IH]; intros evs H y Hy; [easy|].
  rewrite for_each_cons in H.
  destruct (body x) as [evs1 [[]|e|]] eqn:Hb; simpl in H; try discriminate.
  destruct (for_each body l) as [evs2 r] eqn:Hl.
  injection H as _ ->.
  destruct Hy as [<-|Hy]; [now exists evs1|].
  now apply (IH evs2).
Qed.

(** *** What each part of [main] emits *)

Lemma compile_filter_silent (args : Args) :
  fst (compile_filter (NodeName:=NodeName) args) = [].
Proof.
  unfold compile_filter. destruct (args_filter args) as [p|]; [|reflexivity].
  now destruct (re_compile p).
Qed.

Lemma create_clients_events (P : event -> Prop)
    (service_names : list string) (node_names : list NodeName) :
  (forall k, In k node_names -> has_service service_names k = true ->
     P (EvCreateClient (service_of k))) ->
  exists clients,
    create_clients service_names node_names 0 [] 
    = (map (fun k => EvCreateClient (service_of k))
           (List.filter (has_service service_names) node_names), Ok clients)
    /\ Forall P (fst (create_clients service_names node_names 0 []))
    /\ NoDup (Dict.keys clients)
    /\ (forall k c, In (k, c) clients ->
          In k node_names /\ has_service service_names k = true
          /\ client_service_name c = service_of k).
Proof.
  intros HP.
  assert (clients_ok 0 (@nil (NodeName * Client))) as Hok0.
  { repeat split; try constructor; simpl; intros; contradiction. }
  destruct (create_clients_spec service_names node_names Hok0)
    as (clients & next_id & Heq & Hok & Hkeys).
  exists clients. split; [exact Heq|]. rewrite Heq. simpl.
  split; [|split].
  - apply Forall_forall. intros e He. apply in_map_iff in He.
    destruct He as (k & <- & Hk). apply filter_In in Hk. now apply HP.
  - apply Hok.
  - intros k c Hin.
    assert (In k (Dict.keys clients)) as Hk.
    { unfold Dict.keys. apply in_map_iff. now exists (k, c). }
    apply Hkeys in Hk. destruct Hk as [[]|[Hk Hs]].
    split; [exact Hk|]. split; [exact Hs|].
    destruct Hok as (_ & _ & _ & Hsvc). now apply Hsvc.
Qed.

Lemma dispatch_ready_events (P : event -> Prop) (args : Args) (round : nat)
    (clients : Dict.dict NodeName Client) (pending : list NodeName)
    (futures : Dict.dict NodeName Future) :
  (forall k c, In (k, c) clients ->
     P (EvServiceIsReady c (service_is_ready w c round))
     /\ P (EvCallAsync c (build_request args))) ->
  Forall P (fst (dispatch_ready w args round clients pending futures)).
Proof.
  intros HP. revert futures.
  induction pending as [|k rest IH]; intros futures; [constructor|].
  rewrite dispatch_ready_cons.
  destruct (Dict.get node_eqb clients k) as [c|] eqn:Hget; [|constructor].
  apply (@get_some_in _ _ node_eqb node_eqb_eq) in Hget. destruct (HP _ _ Hget) as [H1 H2].
  rewrite bindM_emit. cbn [fst]. constructor; [exact H1|].
  destruct (service_is_ready w c round); [|apply IH].
  rewrite bindM_emit. cbn [fst]. constructor; [exact H2|apply IH].
Qed.

Lemma dispatch_loop_events (P : event -> Prop) (args : Args)
    (clients : Dict.dict NodeName Client) :
  (forall k c r, In (k, c) clients ->
     P (EvServiceIsReady c (service_is_ready w c r))
     /\ P (EvCallAsync c (build_request args))) ->
  P EvSpinOnce ->
  forall fuel round futures,
    Forall P (fst (dispatch_loop w fuel round args clients futures)).
Proof.
  intros HP Hspin. induction fuel as [|fuel IH]; intros round futures;
    [constructor|].
  rewrite dispatch_loop_step, bindM_fst. apply Forall_app. split.
  - apply dispatch_ready_events. intros k c Hin. now apply (HP k).
  - destruct (snd (dispatch_ready w args round clients
                     (pending_of clients futures) futures)) as [fs|e|];
      [|constructor..].
    destruct (Nat.eqb (List.length fs) (List.length clients)); [constructor|].
    rewrite bindM_emit. cbn [fst]. constructor; [exact Hspin|apply IH].
Qed.

Lemma wait_for_responses_ok (futures : Dict.dict NodeName Future) :
  wait_for_responses futures
  = (map (@EvSpinUntilFutureComplete) (Dict.values futures), Ok tt).
Proof.
  unfold wait_for_responses. rewrite for_each_all_ok.
  - reflexivity.
  - intros f _. now eexists.
Qed.

Lemma print_names_events (P : event -> Prop) (param_type : bool)
    (m : Dict.dict string string) (l : list string) :
  (forall name, param_type = false -> P (EvStdout (Item name))) ->
  (forall name t, param_type = true -> P (EvStdout (TypedItem name t))) ->
  Forall P (fst (print_names (NodeName:=NodeName) param_type m l)).
Proof.
  intros Hitem Htyped. unfold print_names. apply for_each_events.
  intros name _.
  destruct param_type; [|repeat constructor; now apply Hitem].
  destruct (Dict.get String.eqb m name); repeat constructor.
  now apply Htyped.
Qed.

Lemma report_node_events (P : event -> Prop) (args : Args)
    (regex_filter : option Pattern) (futures : Dict.dict NodeName Future)
    (node_name : NodeName) :
  (truthy (args_node_name args) = false ->
   P (EvStdout (Header (full_name node_name)))) ->
  (forall name, args_param_type args = false -> P (EvStdout (Item name))) ->
  (forall name t, args_param_type args = true ->
     P (EvStdout (TypedItem name t))) ->
  (forall line, P (EvStderr line)) ->
  (forall l, args_param_type args = true ->
     P (EvDescribeParameters (full_name node_name) l)) ->
  Forall P (fst (report_node w args regex_filter futures node_name)).
Proof.
  intros Hhead Hitem Htyped Herr Hdesc.
  destruct (Dict.get node_eqb futures node_name) as [future|] eqn:Hget.
  2:{ unfold report_node. rewrite Hget. constructor. }
  destruct (future_result (future_state w future)) as [response|] eqn:Hres.
  - rewrite (report_node_completed w args regex_filter futures node_name
               Hget Hres).
    cbv zeta. simpl fst. apply Forall_app. split; [|apply Forall_app; split].
    + unfold header_events, header_shown.
      destruct (truthy (args_node_name args)); [constructor|].
      destruct (nonempty _); repeat constructor. now apply Hhead.
    + unfold describe_events.
      destruct (args_param_type args) eqn:Hpt; repeat constructor.
      now apply Hdesc.
    + now apply print_names_events.
  - rewrite (report_node_failed w args regex_filter futures node_name
               Hget Hres).
    repeat constructor. apply Herr.
Qed.

Lemma print_responses_events (P : event -> Prop) (args : Args)
    (regex_filter : option Pattern) (futures : Dict.dict NodeName Future) :
  (forall k, truthy (args_node_name args) = false ->
     In k (Dict.keys futures) -> P (EvStdout (Header (full_name k)))) ->
  (forall name, args_param_type args = false -> P (EvStdout (Item name))) ->
  (forall name t, args_param_type args = true ->
     P (EvStdout (TypedItem name t))) ->
  (forall line, P (EvStderr line)) ->
  (forall k l, args_param_type args = true -> In k (Dict.keys futures) ->
     P (EvDescribeParameters (full_name k) l)) ->
  Forall P (fst (print_responses w args regex_filter futures)).
Proof.
  intros Hhead Hitem Htyped Herr Hdesc. unfold print_responses.
  apply for_each_events.
  intros k Hk. apply sorted_keys_in in Hk.
  apply report_node_events; try assumption.
  - intros Ht. now apply Hhead.
  - intros l Hpt. now apply Hdesc.
Qed.

(** *** The trace of [main], part by part *)

Lemma main_trace (fuel : nat) (args : Args) (l : list NodeName) :
  let hidden := args_include_hidden_nodes args in
  let service_names := get_service_names w hidden in
  narrow (get_absolute_node_name w (args_node_name args))
         (get_node_names w hidden) = Some l ->
  exists evs_services evs_clients evs_dispatch evs_wait evs_report,
    fst (main w fuel args)
    = EvGetNodeNames hidden
        :: evs_services ++ evs_clients ++ evs_dispatch ++ evs_wait
           ++ evs_report
    /\ Forall (fun e => e = EvGetServiceNames hidden) evs_services
    /\ Forall (fun e => exists k,
                 In k l /\ has_service service_names k = true
                 /\ e = EvCreateClient (service_of k)) evs_clients
    /\ Forall (fun e =>
                 e = EvSpinOnce
                 \/ exists k c,
                      In k l /\ has_service service_names k = true
                      /\ client_service_name c = service_of k
                      /\ (e = EvCallAsync c (build_request args)
                          \/ exists r,
                               e = EvServiceIsReady
                                     c (service_is_ready w c r)))
              evs_dispatch
    /\ Forall (fun e => exists f, e = EvSpinUntilFutureComplete f) evs_wait
    /\ Forall (fun e => match e with
                        | EvStdout (Header _) =>
                            truthy (args_node_name args) = false
                        | EvStdout (Item _) => args_param_type args = false
                        | EvStdout (TypedItem _ _) =>
                            args_param_type args = true
                        | EvStderr _ => True
                        | EvDescribeParameters _ _ =>
                            args_param_type args = true
                        | _ => False
                        end) evs_report.
Proof.
  intros hidden service_names Hnarrow. unfold main. fold hidden.
  rewrite Hnarrow, bindM_emit. cbn [fst].
  rewrite bindM_fst, compile_filter_silent. cbn [app].
  destruct (snd (compile_filter args)) as [regex_filter|e|];
    [|exists [], [], [], [], []; repeat split; constructor..].
  rewrite bindM_emit. cbn [fst]. rewrite bindM_fst. fold service_names.
  destruct (@create_clients_events
              (fun e => exists k,
                 In k l /\ has_service service_names k = true
                 /\ e = EvCreateClient (service_of k))
              service_names l)
    as (clients & Hcreate & Hclients & Hnodup & Hpool).
  { intros k Hk Hs. now exists k. }
  exists [EvGetServiceNames hidden],
         (fst (create_clients service_names l 0 [])).
  rewrite Hcreate in *. cbn [fst snd] in *. rewrite bindM_fst.
  exists (fst (dispatch_loop w fuel 0 args clients [])).
  assert (Forall (fun e =>
                 e = EvSpinOnce
                 \/ exists k c,
                      In k l /\ has_service service_names k = true
                      /\ client_service_name c = service_of k
                      /\ (e = EvCallAsync c (build_request args)
                          \/ exists r,
                               e = EvServiceIsReady
                                     c (service_is_ready w c r)))
            (fst (dispatch_loop w fuel 0 args clients []))) as Hdispatch.
  { apply dispatch_loop_events; [|now left].
    intros k c r Hin. destruct (Hpool _ _ Hin) as (Hk & Hs & Hc).
    split; right; exists k, c; repeat split; try assumption.
    - right. now exists r.
    - now left. }
  destruct (snd (dispatch_loop w fuel 0 args clients [])) as [futures|e|].
  2,3: exists [], []; rewrite !app_nil_r; repeat split;
         try assumption; repeat constructor.
  rewrite bindM_fst, wait_for_responses_ok. cbn [fst snd].
  exists (map (@EvSpinUntilFutureComplete) (Dict.values futures)).
  rewrite bindM_fst. 
  exists (fst (print_responses w args regex_filter futures)).
  split.
  { cbn [app]. do 4 f_equal.
    destruct (snd (print_responses w args regex_filter futures));
      cbn; now rewrite app_nil_r. }
  split; [repeat constructor|]. split; [exact Hclients|].
  split; [exact Hdispatch|]. split.
  - apply Forall_forall. intros e He. apply in_map_iff in He.
    destruct He as (f & <- & _). now exists f.
  - apply print_responses_events; try easy.
Qed.

Lemma main_not_found_trace (fuel : nat) (args : Args) :
  narrow (get_absolute_node_name w (args_node_name args))
         (get_node_names w (args_include_hidden_nodes args)) = None ->
  main w fuel args
  = ([EvGetNodeNames (args_include_hidden_nodes args)],
     Ok (Some "Node not found"%string)).
Proof.
  intros Hnarrow. unfold main. now rewrite Hnarrow.
Qed.

Lemma phase_block (p q : nat) (l1 l2 : list event) :
  p <= q ->
  Forall (fun e => phase_of e = p) l1 ->
  StronglySorted le (map phase_of l2)
  /\ Forall (fun e => q <= phase_of e) l2 ->
  StronglySorted le (map phase_of (l1 ++ l2))
  /\ Forall (fun e => p <= phase_of e) (l1 ++ l2).
Proof.
  intros Hpq H1 [Hs H2].
  assert (Forall (fun e => p <= phase_of e) l2) as H2'.
  { eapply Forall_impl; [|exact H2]. simpl. intros; lia. }
  split.
  - induction H1 as [|e l1 He H1 IH]; [exact Hs|].
    rewrite <- app_comm_cons. cbn [map]. constructor; [exact IH|].
    apply Forall_map, Forall_app. split.
    + eapply Forall_impl; [|exact H1]. simpl. intros; lia.
    + eapply Forall_impl; [|exact H2']. simpl. intros; lia.
  - apply Forall_app. split; [|exact H2'].
    eapply Forall_impl; [|exact H1]. simpl. intros; lia.
Qed.

(** X1: the events of [main] come in the order of its parts, whatever the
    arguments, the world and the fuel: the query for the node names, the
    query for the service names, the creation of the clients, the dispatch
    loop (readiness tests, calls and [spin_once]), the waits for the
    futures, and last the report (the [DescribeParameters] calls and the
    printed lines).  So no line is printed before every future was waited
    for, and no client is made once a call was sent. *)
Theorem main_runs_in_phases (fuel : nat) (args : Args) :
  StronglySorted le (map phase_of (fst (main w fuel args))).
Proof.
  destruct (narrow (get_absolute_node_name w (args_node_name args))
              (get_node_names w (args_include_hidden_nodes args)))
    as [l|] eqn:Hnarrow.
  2:{ rewrite (main_not_found_trace fuel args Hnarrow). repeat constructor. }
  destruct (main_trace fuel args Hnarrow)
    as (e1 & e2 & e3 & e4 & e5 & -> & H1 & H2 & H3 & H4 & H5).
  apply (@phase_block 0 1 [EvGetNodeNames (args_include_hidden_nodes args)]);
    [lia|now repeat constructor|].
  apply (@phase_block 1 2); [lia| |].
  { eapply Forall_impl; [|exact H1]. now intros e ->. }
  apply (@phase_block 2 3); [lia| |].
  { eapply Forall_impl; [|exact H2]. now intros e (k & _ & _ & ->). }
  apply (@phase_block 3 4); [lia| |].
  { eapply Forall_impl; [|exact H3].
    intros e [->|(k & c & _ & _ & _ & [->|[r ->]])]; reflexivity. }
  apply (@phase_block 4 5); [lia| |].
  { eapply Forall_impl; [|exact H4]. now intros e [f ->]. }
  rewrite <- (app_nil_r e5).
  apply (@phase_block 5 5); [lia| |now repeat constructor].
  eapply Forall_impl; [|exact H5]. now intros [] He.
Qed.

Lemma fold_left_append (A : Type) (l acc : list A) :
  fold_left (fun prefixes prefix => prefixes ++ [prefix]) l acc = acc ++ l.
Proof.
  revert acc. induction l as [|x l IH]; intros acc; simpl.
  - now rewrite app_nil_r.
  - now rewrite IH, <- app_assoc.
Qed.

Lemma narrow_in (node_name : option string) (node_names l : list NodeName)
    (k : NodeName) :
  narrow node_name node_names = Some l ->
  In k l ->
  In k node_names
  /\ (forall n, node_name = Some n -> n <> ""%string -> full_name k = n).
Proof.
  unfold narrow. destruct node_name as [n|].
  - destruct (truthy (Some n)) eqn:Ht.
    + destruct (negb (str_in n (map full_name node_names))); [easy|].
      intros [= <-] Hk. apply filter_In in Hk. destruct Hk as [Hk Heq].
      apply String.eqb_eq in Heq. split; [exact Hk|].
      now intros n' [= <-] _.
    + intros [= <-] Hk. split; [exact Hk|]. intros n' [= <-] Hne.
      destruct n; [now elim Hne|discriminate].
  - intros [= <-] Hk. split; [exact Hk|easy].
Qed.

(** The events of [main] that are not the first one, for a run that passed
    the node check, sorted by the part they come from. *)
Lemma main_event_inv (fuel : nat) (args : Args) (e : event) :
  let hidden := args_include_hidden_nodes args in
  let service_names := get_service_names w hidden in
  In e (fst (main w fuel args)) ->
  e = EvGetNodeNames hidden
  \/ e = EvGetServiceNames hidden
  \/ (exists l k c,
        narrow (get_absolute_node_name w (args_node_name args))
               (get_node_names w hidden) = Some l
        /\ In k l /\ has_service service_names k = true
        /\ client_service_name c = service_of k
        /\ (e = EvCreateClient (service_of k)
            \/ e = EvCallAsync c (build_request args)
            \/ exists r, e = EvServiceIsReady c (service_is_ready w c r)))
  \/ e = EvSpinOnce
  \/ (exists f, e = EvSpinUntilFutureComplete f)
  \/ match e with
     | EvStdout (Header _) => truthy (args_node_name args) = false
     | EvStdout (Item _) => args_param_type args = false
     | EvStdout (TypedItem _ _) => args_param_type args = true
     | EvStderr _ => True
     | EvDescribeParameters _ _ => args_param_type args = true
     | _ => False
     end.
Proof.
  intros hidden service_names Hin.
  destruct (narrow (get_absolute_node_name w (args_node_name args))
              (get_node_names w hidden)) as [l|] eqn:Hnarrow.
  2:{ rewrite (main_not_found_trace fuel args Hnarrow) in Hin.
      destruct Hin as [<-|[]]. now left. }
  destruct (main_trace fuel args Hnarrow)
    as (e1 & e2 & e3 & e4 & e5 & Heq & H1 & H2 & H3 & H4 & H5).
  rewrite Heq in Hin. clear Heq.
  rewrite Forall_forall in H1, H2, H3, H4, H5.
  destruct Hin as [<-|Hin]; [now left|].
  apply in_app_or in Hin. destruct Hin as [Hin|Hin];
    [right; left; now apply H1|].
  apply in_app_or in Hin. destruct Hin as [Hin|Hin].
  { destruct (H2 _ Hin) as (k & Hk & Hs & ->). right. right. left.
    exists l, k,
      {| client_id := 0; client_service_name := service_of k |}.
    repeat split; try assumption. now left. }
  apply in_app_or in Hin. destruct Hin as [Hin|Hin].
  { destruct (H3 _ Hin) as [->|(k & c & Hk & Hs & Hc & He)];
      [now do 3 right; left|].
    right. right. left. exists l, k, c.
    repeat split; try assumption. now right. }
  apply in_app_or in Hin. destruct Hin as [Hin|Hin].
  - do 4 right. left. now apply H4.
  - do 5 right. now apply H5.
Qed.

(** X2: every [ListParameters] request that [main] sends carries the
    prefixes of [--param-prefixes], all of them and in the order given
    (none when the option is absent). *)
Theorem requests_carry_the_prefixes (fuel : nat) (args : Args)
    (client : Client) (request : Request) :
  In (EvCallAsync client request) (fst (main w fuel args)) ->
  request_prefixes request = args_param_prefixes args.
Proof.
  intros Hin. apply main_event_inv in Hin.
  destruct Hin as [H|[H|[H|[H|[H|H]]]]]; try discriminate; try easy.
  - destruct H as (l & k & c & _ & _ & _ & _ & [H|[H|[r H]]]);
      try discriminate.
    injection H as _ ->. unfold build_request. simpl.
    now rewrite fold_left_append.
  - now destruct H.
Qed.

(** X3: [main] makes clients for, and sends requests to, nothing but the
    [list_parameters] services of the nodes it discovered: the service name
    is the full name of a discovered node followed by [/list_parameters],
    it is one of the service names of the graph, and when a node is named on
    the command line it is the service of that node. *)
Theorem clients_and_calls_address_listed_services (fuel : nat) (args : Args)
    (e : event) (service_name : string) :
  let hidden := args_include_hidden_nodes args in
  In e (fst (main w fuel args)) ->
  e = EvCreateClient service_name
  \/ (exists client request,
        e = EvCallAsync client request
        /\ client_service_name client = service_name) ->
  In service_name (get_service_names w hidden)
  /\ exists node,
       In node (get_node_names w hidden)
       /\ service_name = (full_name node ++ "/list_parameters")%string
       /\ forall n,
            get_absolute_node_name w (args_node_name args) = Some n ->
            n <> ""%string -> full_name node = n.
Proof.
  intros hidden Hin He. apply main_event_inv in Hin.
  assert (exists l k c,
            narrow (get_absolute_node_name w (args_node_name args))
                   (get_node_names w hidden) = Some l
            /\ In k l
            /\ has_service (get_service_names w hidden) k = true
            /\ client_service_name c = service_of k
            /\ (e = EvCreateClient (service_of k)
                \/ e = EvCallAsync c (build_request args)))
    as (l & k & c & Hnarrow & Hk & Hs & Hc & Hcase).
  { destruct Hin as [H|[H|[H|[H|[H|H]]]]].
    - destruct He as [->|(c & r & -> & _)]; discriminate.
    - destruct He as [->|(c & r & -> & _)]; discriminate.
    - destruct H as (l & k & c & H1 & H2 & H3 & H4 & [H|[H|[r H]]]).
      + exists l, k, c. repeat split; try assumption. now left.
      + exists l, k, c. repeat split; try assumption. now right.
      + destruct He as [->|(c' & r' & -> & _)]; discriminate.
    - destruct He as [->|(c & r & -> & _)]; discriminate.
    - destruct H as [f ->].
      destruct He as [He|(c & r & He & _)]; discriminate.
    - destruct He as [->|(c & r & -> & _)]; now elim H. }
  assert (service_name = service_of k) as ->.
  { destruct He as [->|(c' & r' & -> & <-)];
      destruct Hcase as [H|H]; try discriminate.
    - now injection H.
    - injection H as -> _. exact Hc. }
  split; [now apply str_in_iff|].
  destruct (narrow_in _ _ k Hnarrow Hk) as [Hnode Hname].
  exists k. split; [exact Hnode|]. split; [reflexivity|exact Hname].
Qed.

(** X4: what [main] writes follows the options.  A header line is printed
    only when no node is named; without [--param-type] there is no
    [DescribeParameters] call and no typed line; with it, no plain line. *)
Theorem output_follows_the_options (fuel : nat) (args : Args) :
  let evs := fst (main w fuel args) in
  (forall node, In (EvStdout (Header node)) evs ->
     truthy (args_node_name args) = false)
  /\ (forall name, In (EvStdout (Item name)) evs ->
        args_param_type args = false)
  /\ (forall name t, In (EvStdout (TypedItem name t)) evs ->
        args_param_type args = true)
  /\ (forall node l, In (EvDescribeParameters node l) evs ->
        args_param_type args = true).
Proof.
  intros evs. unfold evs.
  repeat split; intros * Hin; apply main_event_inv in Hin;
    (destruct Hin as [H|[H|[H|[H|[H|H]]]]]; try discriminate; try exact H;
     [destruct H as (l0 & k0 & c0 & _ & _ & _ & _ & [H|[H|[r0 H]]]);
        discriminate
     |now destruct H]).
Qed.

(** X5: the node check comes before the filter is compiled, and the filter
    before anything is asked about services.  With a [--filter] pattern
    that [re.compile] rejects, [main] has only queried the node names: it
    returns ['Node not found'] when the named node is unknown, and raises
    [re.error] otherwise, without a client made or a line printed. *)
Theorem invalid_filter_raises_after_node_check (fuel : nat) (args : Args)
    (pattern : string) :
  args_filter args = Some pattern ->
  re_compile pattern = None ->
  main w fuel args
  = ([EvGetNodeNames (args_include_hidden_nodes args)],
     match narrow (get_absolute_node_name w (args_node_name args))
                  (get_node_names w (args_include_hidden_nodes args)) with
     | None => Ok (Some "Node not found"%string)
     | Some _ => Raised (ReError pattern)
     end).
Proof.
  intros Hfilter Hcompile. unfold main, compile_filter.
  rewrite Hfilter, Hcompile.
  now destruct (narrow _ _).
Qed.

Lemma compile_filter_ok (args : Args) :
  (forall pattern, args_filter args = Some pattern ->
     re_compile pattern <> None) ->
  exists regex_filter,
    compile_filter (NodeName:=NodeName) args = ([], Ok regex_filter).
Proof.
  intros H. unfold compile_filter.
  destruct (args_filter args) as [pattern|]; [|now eexists].
  specialize (H pattern eq_refl).
  destruct (re_compile pattern); [now eexists|now elim H].
Qed.

(** [main] from line 76 on, when the node check and the filter passed. *)
Lemma main_from_clients (fuel : nat) (args : Args) (l : list NodeName)
    (regex_filter : option Pattern) :
  let hidden := args_include_hidden_nodes args in
  narrow (get_absolute_node_name w (args_node_name args))
         (get_node_names w hidden) = Some l ->
  compile_filter (NodeName:=NodeName) args = ([], Ok regex_filter) ->
  exists clients,
    create_clients (get_service_names w hidden) l 0 []
    = (map (fun k => EvCreateClient (service_of k))
           (List.filter (has_service (get_service_names w hidden)) l),
       Ok clients)
    /\ NoDup (Dict.keys clients)
    /\ (forall k c, In (k, c) clients ->
          In k l /\ has_service (get_service_names w hidden) k = true
          /\ client_service_name c = service_of k)
    /\ (forall k, In k l ->
          has_service (get_service_names w hidden) k = true ->
          In k (Dict.keys clients))
    /\ main w fuel args
       = bindM (EvGetNodeNames hidden :: EvGetServiceNames hidden
                  :: map (fun k => EvCreateClient (service_of k))
                       (List.filter
                          (has_service (get_service_names w hidden)) l),
                Ok tt)
           (fun _ =>
              bindM (dispatch_loop w fuel 0 args clients []) (fun futures =>
              bindM (wait_for_responses futures) (fun _ =>
              bindM (print_responses w args regex_filter futures) (fun _ =>
              ret None)))).
Proof.
  intros hidden Hnarrow Hfilter.
  assert (clients_ok 0 (@nil (NodeName * Client))) as Hok0.
  { repeat split; try constructor; simpl; intros; contradiction. }
  destruct (create_clients_spec (get_service_names w hidden) l Hok0)
    as (clients & next_id & Hcreate & Hok & Hkeys).
  exists clients. split; [exact Hcreate|]. split; [apply Hok|].
  split; [|split].
  - intros k c Hin.
    assert (In k (Dict.keys clients)) as Hk.
    { unfold Dict.keys. apply in_map_iff. now exists (k, c). }
    apply Hkeys in Hk. destruct Hk as [[]|[Hk Hs]].
    split; [exact Hk|]. split; [exact Hs|].
    destruct Hok as (_ & _ & _ & Hsvc). now apply Hsvc.
  - intros k Hk Hs. apply Hkeys. now right.
  - unfold main. fold hidden. rewrite Hnarrow, Hfilter, Hcreate.
    cbn [bindM emit app]. 
    destruct (bindM (dispatch_loop w fuel 0 args clients []) _).
    reflexivity.
Qed.

(** *** The dispatch loop, round by round *)

Lemma dispatch_ready_keeps (Q : NodeName -> Future -> Prop) (args : Args)
    (round : nat) (clients : Dict.dict NodeName Client) :
  forall pending futures evs futures',
    (forall k f, In (k, f) futures -> Q k f) ->
    (forall k c, In k pending ->
       Dict.get node_eqb clients k = Some c ->
       service_is_ready w c round = true ->
       Q k (future_of args round c)) ->
    dispatch_ready w args round clients pending futures
    = (evs, Ok futures') ->
    forall k f, In (k, f) futures' -> Q k f.
Proof.
  induction pending as [|k0 rest IH];
    intros futures evs futures' Hold Hnew Hrun k f Hin.
  - injection Hrun as _ <-. now apply Hold.
  - rewrite dispatch_ready_cons in Hrun.
    destruct (Dict.get node_eqb clients k0) as [c|] eqn:Hget;
      [|discriminate].
    rewrite bindM_emit in Hrun.
    destruct (service_is_ready w c round) eqn:Hready.
    + rewrite bindM_emit in Hrun. cbn [fst snd] in Hrun.
      injection Hrun as _ Hsnd. apply surjective_pairing_ok in Hsnd.
      refine (IH _ _ _ _ _ Hsnd k f Hin).
      * intros k' f' Hin'.
        apply (@in_set _ _ node_eqb node_eqb_eq) in Hin'.
        destruct Hin' as [[-> ->]|Hin']; [|now apply Hold].
        apply Hnew; [now left|exact Hget|exact Hready].
      * intros k' c' Hk'. apply Hnew. now right.
    + injection Hrun as _ Hsnd. apply surjective_pairing_ok in Hsnd.
      refine (IH _ _ _ Hold _ Hsnd k f Hin).
      intros k' c' Hk'. apply Hnew. now right.
Qed.

Lemma spins_of_app (l1 l2 : list event) :
  spins_of (l1 ++ l2) = spins_of l1 + spins_of l2.
Proof.
  induction l1 as [|e l1 IH]; [reflexivity|].
  destruct e; simpl; now rewrite ?IH.
Qed.

Lemma spins_of_none (evs : list event) :
  Forall (fun e => e <> EvSpinOnce) evs -> spins_of evs = 0.
Proof.
  induction 1 as [|e evs He _ IH]; [reflexivity|].
  destruct e; simpl; try exact IH. now elim He.
Qed.

Lemma dispatch_ready_no_spin (args : Args) (round : nat)
    (clients : Dict.dict NodeName Client) (pending : list NodeName)
    (futures : Dict.dict NodeName Future) :
  spins_of (fst (dispatch_ready w args round clients pending futures)) = 0.
Proof.
  apply spins_of_none, dispatch_ready_events. intros k c _.
  split; discriminate.
Qed.

Lemma in_keys (K V : Type) (d : Dict.dict K V) (k : K) (v : V) :
  In (k, v) d -> In k (Dict.keys d).
Proof.
  intros H. unfold Dict.keys. apply in_map_iff. now exists (k, v).
Qed.

Lemma keys_app (K V : Type) (d1 d2 : Dict.dict K V) :
  Dict.keys (d1 ++ d2) = Dict.keys d1 ++ Dict.keys d2.
Proof. apply map_app. Qed.

(** One pass of lines 87-97 over the pending clients, with what it keeps
    of the loop invariant. *)
Lemma dispatch_pass (args : Args) (clients : Dict.dict NodeName Client)
    (round : nat) (futures : Dict.dict NodeName Future) :
  NoDup (Dict.keys clients) ->
  futures_ok clients futures ->
  (forall k, In k (Dict.keys futures) -> In k (Dict.keys clients)) ->
  (forall k f, In (k, f) futures ->
     sent_when_first_ready w args clients k f /\ future_round f <= round) ->
  (forall k c r, Dict.get node_eqb clients k = Some c ->
     ~ In k (Dict.keys futures) -> r < round ->
     service_is_ready w c r = false) ->
  exists evs added,
    dispatch_ready w args round clients (pending_of clients futures) futures
    = (evs, Ok (futures ++ added))
    /\ spins_of evs = 0
    /\ futures_ok clients (futures ++ added)
    /\ (forall k, In k (Dict.keys (futures ++ added)) ->
          In k (Dict.keys clients))
    /\ (forall k f, In (k, f) (futures ++ added) ->
          sent_when_first_ready w args clients k f
          /\ future_round f <= round)
    /\ (forall k f, In (k, f) added -> future_round f = round)
    /\ (forall k c r, Dict.get node_eqb clients k = Some c ->
          ~ In k (Dict.keys (futures ++ added)) -> r < S round ->
          service_is_ready w c r = false).
Proof.
  intros Hnd Hok Hsub Hfirst Hwait.
  destruct (pending_of_spec clients futures Hnd) as [Hpnd Hpin].
  destruct (@dispatch_ready_spec _ _ w args round clients
              (pending_of clients futures) futures Hpnd
              (fun k Hk => proj1 (Hpin k) Hk) Hok)
    as (evs & added & Heq & Hok' & _ & Hadded & Hcalled).
  exists evs, added. split; [exact Heq|].
  split.
  { replace evs with (fst (dispatch_ready w args round clients
                             (pending_of clients futures) futures))
      by now rewrite Heq.
    apply dispatch_ready_no_spin. }
  split; [exact Hok'|].
  assert (forall k f, In (k, f) (futures ++ added) ->
            (sent_when_first_ready w args clients k f
             /\ future_round f <= round)
            /\ (In (k, f) futures \/ future_round f = round)) as HQ.
  { apply (@dispatch_ready_keeps
             (fun k f =>
                (sent_when_first_ready w args clients k f
                 /\ future_round f <= round)
                /\ (In (k, f) futures \/ future_round f = round))
             args round clients _ _ _ _ ) with (3 := Heq).
    - intros k f Hin. split; [now apply Hfirst|now left].
    - intros k c Hk Hget Hready. split; [split|now right].
      + exists c. split; [exact Hget|]. split; [reflexivity|].
        split; [exact Hready|]. simpl. intros r Hr.
        apply (Hwait k c r Hget); [|exact Hr]. now apply Hpin.
      + simpl. lia. }
  split; [|split; [|split]].
  - intros k Hk. rewrite keys_app in Hk. apply in_app_or in Hk.
    destruct Hk as [Hk|Hk]; [now apply Hsub|].
    now apply Hpin, Hadded.
  - intros k f Hin. now apply HQ.
  - intros k f Hin.
    destruct (HQ k f (in_or_app _ _ _ (or_intror Hin))) as [_ [Hold|Hr]];
      [|exact Hr].
    exfalso. destruct Hok' as [Hnd' _]. rewrite keys_app in Hnd'.
    apply NoDup_app_remove_l in Hnd' as Hnd2.
    assert (In k (Dict.keys futures)) as H1 by now apply in_keys with f.
    assert (In k (Dict.keys added)) as H2 by now apply in_keys with f.
    apply Hadded, Hpin in H2. now destruct H2.
  - intros k c r Hget Hnot Hr. rewrite keys_app in Hnot.
    assert (r < round \/ r = round) as [Hlt| ->] by lia.
    + apply (Hwait k c r Hget); [|exact Hlt].
      intros H. apply Hnot, in_or_app. now left.
    + destruct (service_is_ready w c round) eqn:Hready; [|reflexivity].
      exfalso. apply Hnot, in_or_app. right.
      apply (Hcalled k c); [|exact Hget|exact Hready].
      apply Hpin. split.
      * apply (@get_some_in _ _ node_eqb node_eqb_eq) in Hget.
        now apply in_keys with c.
      * intros H. apply Hnot, in_or_app. now left.
Qed.

Lemma dispatch_loop_rounds (args : Args)
    (clients : Dict.dict NodeName Client) :
  NoDup (Dict.keys clients) ->
  forall fuel round futures evs futures',
    futures_ok clients futures ->
    (forall k, In k (Dict.keys futures) -> In k (Dict.keys clients)) ->
    (forall k f, In (k, f) futures ->
       sent_when_first_ready w args clients k f
       /\ future_round f <= round) ->
    (forall k c r, Dict.get node_eqb clients k = Some c ->
       ~ In k (Dict.keys futures) -> r < round ->
       service_is_ready w c r = false) ->
    dispatch_loop w fuel round args clients futures = (evs, Ok futures') ->
    (forall k f, In (k, f) futures' ->
       sent_when_first_ready w args clients k f)
    /\ futures_ok clients futures'
    /\ List.length futures' = List.length clients
    /\ exists last,
         round <= last
         /\ spins_of evs = last - round
         /\ (forall k f, In (k, f) futures' -> future_round f <= last)
         /\ (List.length futures <> List.length clients ->
             exists k f, In (k, f) futures' /\ future_round f = last).
Proof.
  intros Hnd. induction fuel as [|fuel IH];
    intros round futures evs futures' Hok Hsub Hfirst Hwait Hrun;
    [discriminate|].
  destruct (dispatch_pass Hnd Hok Hsub Hfirst Hwait)
    as (evs1 & added & Heq & Hspin & Hok' & Hsub' & Hfirst' & Hnew & Hwait').
  rewrite dispatch_loop_step, (bindM_ok _ Heq) in Hrun.
  destruct (Nat.eqb (List.length (futures ++ added)) (List.length clients))
    eqn:Hlen.
  - cbn [ret fst snd] in Hrun. injection Hrun as <- <-.
    apply Nat.eqb_eq in Hlen.
    split; [intros k f Hin; exact (proj1 (Hfirst' k f Hin))|].
    split; [exact Hok'|]. split; [exact Hlen|].
    exists round. split; [lia|]. split.
    { rewrite app_nil_r, Hspin. lia. }
    split; [intros k f Hin; exact (proj2 (Hfirst' k f Hin))|].
    intros Hne. destruct added as [|[k f] added].
    + rewrite app_nil_r in Hlen. now elim Hne.
    + exists k, f. split; [apply in_or_app; right; now left|].
      apply (Hnew k f). now left.
  - rewrite bindM_emit in Hrun. cbn [fst snd] in Hrun.
    injection Hrun as <- Hsnd. apply surjective_pairing_ok in Hsnd.
    assert (forall k f, In (k, f) (futures ++ added) ->
              sent_when_first_ready w args clients k f
              /\ future_round f <= S round) as Ha.
    { intros k f Hin. destruct (Hfirst' k f Hin). split; [assumption|lia]. }
    destruct (IH (S round) (futures ++ added) _ futures' Hok' Hsub' Ha
                 Hwait' Hsnd)
      as (Hall & Hok'' & Hlen' & last & Hle & Hspins & Hmax & Hlast).
    split; [exact Hall|]. split; [exact Hok''|]. split; [exact Hlen'|].
    exists last. split; [lia|]. split.
    { rewrite spins_of_app, Hspin. simpl. rewrite Hspins. lia. }
    split; [exact Hmax|]. intros _. apply Hlast.
      now apply Nat.eqb_neq.
Qed.

Lemma futures_ok_nil (clients : Dict.dict NodeName Client) :
  futures_ok clients [].
Proof. split; [constructor|intros k f []]. Qed.

(** X6: the dispatch loop sends the request of a node in the first round in
    which it finds the service of that node ready: the client was polled
    and found not ready in every round before, and the future comes from
    the client of the node, with the request of lines 93-95. *)
Theorem calls_are_sent_when_first_ready (args : Args)
    (clients : Dict.dict NodeName Client) (fuel : nat) (evs : list event)
    (futures : Dict.dict NodeName Future) :
  NoDup (Dict.keys clients) ->
  dispatch_loop w fuel 0 args clients [] = (evs, Ok futures) ->
  forall k f, In (k, f) futures ->
    exists c,
      Dict.get node_eqb clients k = Some c
      /\ future_client f = c
      /\ future_request f = build_request args
      /\ service_is_ready w c (future_round f) = true
      /\ forall r, r < future_round f -> service_is_ready w c r = false.
Proof.
  intros Hnd Hrun k f Hin.
  destruct (@dispatch_loop_rounds args clients Hnd fuel 0 [] evs futures)
    as (Hall & _); try assumption.
  - apply futures_ok_nil.
  - intros k' [].
  - intros k' f' [].
  - intros k' c r _ _ Hr. lia.
  - destruct (Hall k f Hin) as (c & Hget & Hf & Hready & Hbefore).
    exists c. split; [exact Hget|]. rewrite Hf. simpl.
    repeat split; assumption.
Qed.

Lemma list_max_is (l : list nat) (n : nat) :
  In n l -> (forall x, In x l -> x <= n) -> list_max l = n.
Proof.
  intros Hin Hle. apply Nat.le_antisymm.
  - apply list_max_le, Forall_forall. exact Hle.
  - assert (Forall (fun k => k <= list_max l) l) as H
      by now apply list_max_le.
    rewrite Forall_forall in H. now apply H.
Qed.

(** X7: the dispatch loop calls [spin_once] once after every round that
    leaves a client without a call, and stops with the round of the last
    call: the number of [spin_once] calls is the largest round in which a
    request was sent, and it is zero when every service is ready at once. *)
Theorem spin_once_until_the_last_call (args : Args)
    (clients : Dict.dict NodeName Client) (fuel : nat) (evs : list event)
    (futures : Dict.dict NodeName Future) :
  NoDup (Dict.keys clients) ->
  dispatch_loop w fuel 0 args clients [] = (evs, Ok futures) ->
  spins_of evs = list_max (map future_round (Dict.values futures))
  /\ ((forall k c, In (k, c) clients -> service_is_ready w c 0 = true) ->
      spins_of evs = 0).
Proof.
  intros Hnd Hrun.
  destruct (@dispatch_loop_rounds args clients Hnd fuel 0 [] evs futures)
    as (Hall & Hok & Hlen & last & _ & Hspins & Hmax & Hlast);
    try assumption.
  { apply futures_ok_nil. }
  { intros k' []. }
  { intros k' f' []. }
  { intros k' c r _ _ Hr. lia. }
  rewrite Nat.sub_0_r in Hspins.
  assert (spins_of evs = list_max (map future_round (Dict.values futures)))
    as Hcount.
  { destruct clients as [|kc clients'].
    - destruct futures; [|discriminate]. simpl.
      destruct fuel; [discriminate|]. simpl in Hrun. now injection Hrun as <-.
    - destruct Hlast as (k & f & Hin & Hf); [discriminate|].
      rewrite Hspins. symmetry. apply list_max_is.
      + apply in_map_iff. exists f. split; [exact Hf|].
        unfold Dict.values. apply in_map_iff. now exists (k, f).
      + intros x Hx. apply in_map_iff in Hx. destruct Hx as (f' & <- & Hf').
        unfold Dict.values in Hf'. apply in_map_iff in Hf'.
        destruct Hf' as ([k' f''] & <- & Hin'). now apply (Hmax k'). }
  split; [exact Hcount|].
  intros Hready. rewrite Hcount. apply Nat.le_0_r, list_max_le.
  apply Forall_forall. intros x Hx. apply in_map_iff in Hx.
  destruct Hx as (f & <- & Hf). unfold Dict.values in Hf.
  apply in_map_iff in Hf. destruct Hf as ([k f'] & <- & Hin). simpl.
  destruct (Hall k f' Hin) as (c & Hget & _ & _ & Hbefore).
  apply (@get_some_in _ _ node_eqb node_eqb_eq) in Hget.
  destruct (future_round f') as [|r]; [lia|].
  assert (0 < S r) as H0 by lia. apply Hbefore in H0.
  rewrite (Hready k c Hget) in H0. discriminate.
Qed.

(** *** Runs of [main] *)

Lemma no_output (evs : list event) :
  Forall (fun e => is_output e = false) evs ->
  stdout_of evs = [] /\ stderr_of evs = [].
Proof.
  induction 1 as [|e evs He _ [IH1 IH2]]; [now split|].
  destruct e; simpl; try discriminate; now split.
Qed.

Lemma awaited_of_none (evs : list event) :
  Forall (fun e => forall f, e <> EvSpinUntilFutureComplete f) evs ->
  awaited_of evs = [].
Proof.
  induction 1 as [|e evs He _ IH]; [reflexivity|].
  destruct e; simpl; try exact IH. now elim (He future).
Qed.

(** The events of lines 59-83 are no output, no [spin_once] and no wait
    for a future. *)
Lemma setup_events_quiet (hidden : bool) (l : list NodeName) :
  Forall (fun e => is_output e = false /\ e <> EvSpinOnce
                   /\ forall f, e <> EvSpinUntilFutureComplete f)
         (EvGetNodeNames hidden :: EvGetServiceNames hidden
            :: map (fun k => EvCreateClient (service_of k)) l).
Proof.
  constructor; [now repeat split|]. constructor; [now repeat split|].
  apply Forall_forall. intros e He. apply in_map_iff in He.
  destruct He as (k & <- & _). now repeat split.
Qed.

(** X8: when no node of the list has its [list_parameters] service among
    the service names (in particular when no node is found at all), [main]
    makes no client, sends no request, does not spin and prints nothing:
    after the two queries of the graph it returns [None]. *)
Theorem no_listed_service_no_call (fuel : nat) (args : Args)
    (l : list NodeName) :
  let hidden := args_include_hidden_nodes args in
  narrow (get_absolute_node_name w (args_node_name args))
         (get_node_names w hidden) = Some l ->
  (forall pattern, args_filter args = Some pattern ->
     re_compile pattern <> None) ->
  (forall k, In k l ->
     has_service (get_service_names w hidden) k = false) ->
  main w (S fuel) args
  = ([EvGetNodeNames hidden; EvGetServiceNames hidden], Ok None).
Proof.
  intros hidden Hnarrow Hfilter Hnone.
  destruct (compile_filter_ok args Hfilter) as [regex_filter Hcompile].
  destruct (main_from_clients (S fuel) args Hnarrow Hcompile)
    as (clients & _ & _ & Hpool & _ & ->).
  fold hidden.
  assert (List.filter (has_service (get_service_names w hidden)) l = [])
    as ->.
  { clear Hnarrow Hpool. induction l as [|k l IH]; [reflexivity|]. simpl.
    rewrite (Hnone k) by now left. apply IH. intros k' Hk'. apply Hnone.
    now right. }
  destruct clients as [|[k c] clients]; [reflexivity|].
  destruct (Hpool k c) as (Hk & Hs & _); [now left|].
  specialize (Hnone k Hk). unfold hidden in *. congruence.
Qed.

Lemma dispatch_loop_stalls (args : Args)
    (clients : Dict.dict NodeName Client) (k : NodeName) (c : Client) :
  NoDup (Dict.keys clients) ->
  In (k, c) clients ->
  (forall r, service_is_ready w c r = false) ->
  forall fuel round futures,
    futures_ok clients futures ->
    (forall k', In k' (Dict.keys futures) -> In k' (Dict.keys clients)) ->
    ~ In k (Dict.keys futures) ->
    snd (dispatch_loop w fuel round args clients futures) = OutOfFuel
    /\ spins_of (fst (dispatch_loop w fuel round args clients futures))
       = fuel.
Proof.
  intros Hnd Hin Hnever.
  assert (Dict.get node_eqb clients k = Some c) as Hget
    by now apply (@in_get_some _ _ node_eqb node_eqb_eq).
  induction fuel as [|fuel IH]; intros round futures Hok Hsub Hnot;
    [now split|].
  destruct (pending_of_spec clients futures Hnd) as [Hpnd Hpin].
  destruct (@dispatch_ready_spec _ _ w args round clients
              (pending_of clients futures) futures Hpnd
              (fun k Hk => proj1 (Hpin k) Hk) Hok)
    as (evs & added & Heq & Hok' & _ & Hadded & _).
  assert (forall k' f, In (k', f) (futures ++ added) -> k' <> k) as Hother.
  { apply (@dispatch_ready_keeps (fun k' _ => k' <> k) args round clients
             _ _ _ _) with (3 := Heq).
    - intros k' f Hin' ->. apply Hnot. now apply in_keys with f.
    - intros k' c' _ Hget' Hready ->. rewrite Hget in Hget'.
      injection Hget' as <-. now rewrite Hnever in Hready. }
  assert (~ In k (Dict.keys (futures ++ added))) as Hnot'.
  { intros H. unfold Dict.keys in H. apply in_map_iff in H.
    destruct H as ([k' f] & Hk' & Hin'). simpl in Hk'. subst k'.
    now apply (Hother k f Hin'). }
  assert (forall k', In k' (Dict.keys (futures ++ added)) ->
            In k' (Dict.keys clients)) as Hsub'.
  { intros k' Hk'. rewrite keys_app in Hk'. apply in_app_or in Hk'.
    destruct Hk' as [Hk'|Hk']; [now apply Hsub|]. now apply Hpin, Hadded. }
  assert (Nat.eqb (List.length (futures ++ added)) (List.length clients)
          = false) as Hlen.
  { apply Nat.eqb_neq. intros Hlen. apply Hnot'.
    apply (@NoDup_length_incl _ (Dict.keys (futures ++ added))
             (Dict.keys clients)).
    - apply Hok'.
    - unfold Dict.keys. rewrite !length_map. lia.
    - exact Hsub'.
    - now apply in_keys with c. }
  rewrite dispatch_loop_step, (bindM_ok _ Heq), Hlen, bindM_emit.
  cbn [fst snd].
  destruct (IH (S round) (futures ++ added) Hok' Hsub' Hnot') as [-> Hs].
  split; [reflexivity|].
  rewrite spins_of_app. simpl. rewrite Hs.
  replace evs with (fst (dispatch_ready w args round clients
                           (pending_of clients futures) futures))
    by now rewrite Heq.
  now rewrite dispatch_ready_no_spin.
Qed.

(** X9: [main] waits without bound for a service that is listed but never
    ready.  When one node of the list has its service among the service
    names and the client for it is never ready, the dispatch loop never
    ends: whatever the fuel, the run is cut in the loop after as many
    [spin_once] calls as there was fuel, no future was waited for and
    nothing was printed, also for the nodes that did answer. *)
Theorem main_waits_for_a_service_never_ready (args : Args)
    (l : list NodeName) (k : NodeName) :
  let hidden := args_include_hidden_nodes args in
  narrow (get_absolute_node_name w (args_node_name args))
         (get_node_names w hidden) = Some l ->
  (forall pattern, args_filter args = Some pattern ->
     re_compile pattern <> None) ->
  In k l ->
  has_service (get_service_names w hidden) k = true ->
  (forall c r, client_service_name c = service_of k ->
     service_is_ready w c r = false) ->
  forall fuel,
    snd (main w fuel args) = OutOfFuel
    /\ spins_of (fst (main w fuel args)) = fuel
    /\ awaited_of (fst (main w fuel args)) = []
    /\ stdout_of (fst (main w fuel args)) = []
    /\ stderr_of (fst (main w fuel args)) = [].
Proof.
  intros hidden Hnarrow Hfilter Hk Hs Hnever fuel.
  destruct (compile_filter_ok args Hfilter) as [regex_filter Hcompile].
  destruct (main_from_clients fuel args Hnarrow Hcompile)
    as (clients & _ & Hnd & Hpool & Hall & ->).
  fold hidden.
  destruct (@in_keys_get _ _ node_eqb node_eqb_eq clients k (Hall k Hk Hs))
    as [c Hget].
  apply (@get_some_in _ _ node_eqb node_eqb_eq) in Hget.
  destruct (Hpool k c Hget) as (_ & _ & Hc).
  destruct (@dispatch_loop_stalls args clients k c Hnd Hget
              (fun r => Hnever c r Hc) fuel 0 []
              (futures_ok_nil clients))
    as [Hsnd Hspins]; [intros k' []|intros []|].
  assert (Forall (fun e => is_output e = false
                           /\ (forall f, e <> EvSpinUntilFutureComplete f))
            (fst (dispatch_loop w fuel 0 args clients []))) as Hquiet.
  { apply dispatch_loop_events; repeat split; discriminate. }
  destruct (dispatch_loop w fuel 0 args clients []) as [evs r].
  simpl in Hsnd, Hspins. subst r. cbn [bindM fst snd].
  pose proof (setup_events_quiet hidden
                (List.filter (has_service (get_service_names w hidden)) l))
    as Hsetup.
  split; [reflexivity|]. split; [|split].
  - rewrite spins_of_app, Hspins.
    rewrite spins_of_none; [reflexivity|].
    eapply Forall_impl; [|exact Hsetup]. now intros e (_ & He & _).
  - apply awaited_of_none, Forall_app. split.
    + eapply Forall_impl; [|exact Hsetup]. now intros e (_ & _ & He).
    + eapply Forall_impl; [|exact Hquiet]. now intros e [_ He].
  - apply no_output, Forall_app. split.
    + eapply Forall_impl; [|exact Hsetup]. now intros e [He _].
    + eapply Forall_impl; [|exact Hquiet]. now intros e [He _].
Qed.

Lemma print_names_described (m : Dict.dict string string)
    (l : list string) :
  (forall name, In name l -> exists t, Dict.get String.eqb m name = Some t) ->
  snd (print_names (NodeName:=NodeName) true m l) = Ok tt.
Proof.
  intros H.
  assert (exists labels,
            Forall2 (fun name t => Dict.get String.eqb m name = Some t)
                    l labels) as [labels Hlabels].
  { induction l as [|name l IH]; [exists []; constructor|].
    destruct (H name (or_introl eq_refl)) as [t Ht].
    destruct IH as [labels Hl]; [intros n Hn; apply H; now right|].
    exists (t :: labels). now constructor. }
  destruct (@print_names_typed NodeName m l labels Hlabels) as [-> _].
  reflexivity.
Qed.

(** The report ends well when every name asked about gets a descriptor. *)
Lemma print_responses_ok (args : Args) (regex_filter : option Pattern)
    (futures : Dict.dict NodeName Future) :
  (args_param_type args = true ->
   forall node l name, In name l ->
     has_descriptor (call_describe_parameters w node l) name) ->
  snd (print_responses w args regex_filter futures) = Ok tt.
Proof.
  intros Hdesc. unfold print_responses.
  rewrite for_each_all_ok; [reflexivity|].
  intros k Hk. apply sorted_keys_in in Hk.
  destruct (@in_keys_get _ _ node_eqb node_eqb_eq futures k Hk)
    as [future Hget].
  destruct (future_result (future_state w future)) as [response|] eqn:Hres.
  2:{ rewrite (report_node_failed w args regex_filter futures k Hget Hres).
      now eexists. }
  rewrite (report_node_completed w args regex_filter futures k Hget Hres).
  cbv zeta. eexists. f_equal.
  unfold type_map_of. destruct (args_param_type args) eqn:Hpt.
  - apply print_names_described. intros name Hname.
    rewrite get_type_map. apply type_label_some.
    now apply Hdesc.
  - now rewrite print_names_plain.
Qed.

(** X10: [main] returns once every listed service was found ready.  When
    the node check and the filter pass, the client of every node of the
    list that has the service is ready in some round before the [n]-th,
    and, if types are asked for, [DescribeParameters] answers with a
    descriptor for every name it is asked about, every run with room for
    [n] rounds returns [None]: no call that failed or timed out can make
    it raise. *)
Theorem main_returns_when_services_get_ready (n : nat) (args : Args)
    (l : list NodeName) :
  let hidden := args_include_hidden_nodes args in
  narrow (get_absolute_node_name w (args_node_name args))
         (get_node_names w hidden) = Some l ->
  (forall pattern, args_filter args = Some pattern ->
     re_compile pattern <> None) ->
  (args_param_type args = true ->
   forall node names name, In name names ->
     has_descriptor (call_describe_parameters w node names) name) ->
  (forall k c, In k l ->
     has_service (get_service_names w hidden) k = true ->
     client_service_name c = service_of k ->
     exists r, r < n /\ service_is_ready w c r = true) ->
  forall fuel, n <= fuel -> snd (main w (S fuel) args) = Ok None.
Proof.
  intros hidden Hnarrow Hfilter Hdesc Hready fuel Hfuel.
  destruct (compile_filter_ok args Hfilter) as [regex_filter Hcompile].
  destruct (main_from_clients (S fuel) args Hnarrow Hcompile)
    as (clients & _ & Hnd & Hpool & _ & ->).
  destruct (@dispatch_loop_ends _ _ w args clients Hnd fuel 0 []
              (futures_ok_nil clients))
    as (evs & futures & Hrun).
  { intros k []. }
  { intros k c Hin _. destruct (Hpool k c Hin) as (Hk & Hs & Hc).
    destruct (Hready k c Hk Hs Hc) as (r & Hr & Hrdy).
    exists r. split; [lia|exact Hrdy]. }
  rewrite bindM_snd. cbn [snd]. rewrite bindM_snd, Hrun. cbn [snd].
  rewrite bindM_snd, wait_for_responses_ok. cbn [snd].
  now rewrite bindM_snd, (print_responses_ok args regex_filter futures Hdesc).
Qed.

Lemma for_each_raise_inv (A : Type) (body : A -> Mn unit) (l : list A)
    (e : exn) :
  snd (for_each body l) = Raised e ->
  exists x,
    In x l /\ snd (body x) = Raised e
    /\ incl (fst (body x)) (fst (for_each body l)).
Proof.
  induction l as [|x l IH]; [discriminate|].
  rewrite for_each_cons, bindM_snd, bindM_fst.
  destruct (snd (body x)) as [[]|e'|] eqn:Hx.
  - intros H. destruct (IH H) as (y & Hy & He & Hincl). exists y.
    split; [now right|]. split; [exact He|].
    intros ev Hev. apply in_or_app. right. now apply Hincl.
  - intros [= ->]. exists x. split; [now left|]. split; [exact Hx|].
    intros ev Hev. apply in_or_app. now left.
  - discriminate.
Qed.

Lemma print_responses_raise (args : Args) (regex_filter : option Pattern)
    (futures : Dict.dict NodeName Future) (e : exn) :
  snd (print_responses w args regex_filter futures) = Raised e ->
  args_param_type args = true
  /\ exists name node names,
       e = KeyErrorName name
       /\ In (EvDescribeParameters node names)
             (fst (print_responses w args regex_filter futures))
       /\ In name names
       /\ ~ has_descriptor (call_describe_parameters w node names) name.
Proof.
  intros H. unfold print_responses in *. apply for_each_raise_inv in H.
  destruct H as (k & Hk & He & Hincl). apply sorted_keys_in in Hk.
  destruct (@in_keys_get _ _ node_eqb node_eqb_eq futures k Hk)
    as [future Hget].
  destruct (future_result (future_state w future)) as [response|] eqn:Hres.
  2:{ rewrite (report_node_failed w args regex_filter futures k Hget Hres)
        in He. discriminate. }
  rewrite (report_node_completed w args regex_filter futures k Hget Hres)
    in He, Hincl.
  cbv zeta in He, Hincl. cbn [fst snd] in He, Hincl.
  unfold print_names in He.
  apply for_each_raise_inv in He. destruct He as (name & Hname & He & _).
  unfold type_map_of in He. unfold describe_events in Hincl.
  destruct (args_param_type args); [|discriminate]. split; [reflexivity|].
  rewrite get_type_map in He.
  destruct (type_label w _ name) as [t|] eqn:Hlabel; [discriminate|].
  injection He as <-.
  exists name, (full_name k), (filtered_names regex_filter response).
  split; [reflexivity|]. split; [|split; [exact Hname|]].
  - apply Hincl, in_or_app. right. now left.
  - intros Hd. apply (type_label_some w) in Hd. destruct Hd as [t Ht].
    rewrite Hlabel in Ht. discriminate.
Qed.

(** X11: the exceptions [main] can end with, the functions it calls being
    taken to return.  It raises [re.error] for a [--filter] pattern that
    does not compile, or [KeyError] for a parameter name when
    [--param-type] is given and a [DescribeParameters] call that it made
    was answered without a descriptor for a name it asked about, and
    nothing else: the lookups [clients[node_name]] and
    [futures[node_name]] of lines 91 and 109 never fail, whatever the graph
    and the answers. *)
Theorem main_raises_only_for_filter_or_type (fuel : nat) (args : Args)
    (e : exn) :
  snd (main w fuel args) = Raised e ->
  (exists pattern,
     e = ReError pattern /\ args_filter args = Some pattern
     /\ re_compile pattern = None)
  \/ (exists name node names,
        e = KeyErrorName name /\ args_param_type args = true
        /\ In (EvDescribeParameters node names) (fst (main w fuel args))
        /\ In name names
        /\ ~ has_descriptor (call_describe_parameters w node names) name).
Proof.
  intros Hraise.
  destruct (narrow (get_absolute_node_name w (args_node_name args))
              (get_node_names w (args_include_hidden_nodes args)))
    as [l|] eqn:Hnarrow.
  2:{ rewrite (main_not_found_trace fuel args Hnarrow) in Hraise.
      discriminate. }
  destruct (compile_filter (NodeName:=NodeName) args) as [evs0 r0]
    eqn:Hcompile.
  pose proof (compile_filter_silent args) as Hsilent.
  rewrite Hcompile in Hsilent. simpl in Hsilent. subst evs0.
  destruct r0 as [regex_filter|e0|].
  - destruct (main_from_clients fuel args Hnarrow Hcompile)
      as (clients & _ & Hnd & _ & _ & Hmain).
    rewrite Hmain in *. clear Hmain.
    destruct (@dispatch_loop_spec _ _ w args clients Hnd fuel 0 []
                (futures_ok_nil clients))
      as (evs & added & _ & _ & _ & _ & Hend); [intros k []|].
    rewrite bindM_snd in Hraise. cbn [snd] in Hraise.
    rewrite bindM_snd in Hraise.
    destruct Hend as [Hend|[Hend _]]; rewrite Hend in Hraise;
      [discriminate|].
    rewrite bindM_snd, wait_for_responses_ok in Hraise. cbn [snd] in Hraise.
    rewrite bindM_snd in Hraise.
    destruct (snd (print_responses w args regex_filter ([] ++ added)))
      as [[]|e'|] eqn:Hprint; try discriminate.
    injection Hraise as ->. apply print_responses_raise in Hprint.
    destruct Hprint as [Hpt (name & node & names & -> & Hev & Hin & Hnot)].
    right. exists name, node, names.
    split; [reflexivity|]. split; [exact Hpt|].
    split; [|split; [exact Hin|exact Hnot]].
    rewrite bindM_fst. cbn [fst snd]. apply in_or_app. right.
    rewrite bindM_fst, Hend. apply in_or_app. right.
    rewrite bindM_fst, wait_for_responses_ok. cbn [fst snd].
    apply in_or_app. right. rewrite bindM_fst. apply in_or_app. now left.
  - unfold main in Hraise. rewrite Hnarrow, Hcompile in Hraise.
    cbn in Hraise. injection Hraise as ->.
    unfold compile_filter in Hcompile.
    destruct (args_filter args) as [pattern|]; [|discriminate].
    destruct (re_compile pattern) eqn:Hre; [discriminate|].
    injection Hcompile as <-. left. now exists pattern.
  - unfold compile_filter in Hcompile.
    destruct (args_filter args) as [pattern|]; [|discriminate].
    destruct (re_compile pattern); discriminate.
Qed.

Lemma awaited_of_app (l1 l2 : list event) :
  awaited_of (l1 ++ l2) = awaited_of l1 ++ awaited_of l2.
Proof.
  induction l1 as [|e l1 IH]; [reflexivity|].
  destruct e; simpl; now rewrite ?IH.
Qed.

Lemma awaited_of_waits (l : list Future) :
  awaited_of (map (@EvSpinUntilFutureComplete) l) = l
  /\ calls_of (map (@EvSpinUntilFutureComplete) l) = [].
Proof.
  induction l as [|f l [IH1 IH2]]; [now split|]. simpl.
  now rewrite IH1, IH2.
Qed.

Lemma calls_of_none (evs : list event) :
  Forall (fun e => forall c r, e <> EvCallAsync c r) evs ->
  calls_of evs = [].
Proof.
  induction 1 as [|e evs He _ IH]; [reflexivity|].
  destruct e; simpl; try exact IH. now elim (He client request).
Qed.

(** X12: every request sent is waited for, in the order in which the
    requests were sent: in a run that gets past the dispatch loop, the
    futures handed to [spin_until_future_complete] are those of the
    [call_async] calls, one for one and in the same order. *)
Theorem every_call_is_awaited_in_order (fuel : nat) (args : Args) :
  snd (main w fuel args) <> OutOfFuel ->
  map future_client (awaited_of (fst (main w fuel args)))
  = calls_of (fst (main w fuel args))
  /\ Forall (fun f => future_request f = build_request args)
            (awaited_of (fst (main w fuel args))).
Proof.
  intros Hend.
  destruct (narrow (get_absolute_node_name w (args_node_name args))
              (get_node_names w (args_include_hidden_nodes args)))
    as [l|] eqn:Hnarrow.
  2:{ rewrite (main_not_found_trace fuel args Hnarrow). now split. }
  destruct (compile_filter (NodeName:=NodeName) args) as [evs0 r0]
    eqn:Hcompile.
  pose proof (compile_filter_silent args) as Hsilent.
  rewrite Hcompile in Hsilent. simpl in Hsilent. subst evs0.
  destruct r0 as [regex_filter|e0|].
  2,3: unfold main; rewrite Hnarrow, Hcompile; now split.
  destruct (main_from_clients fuel args Hnarrow Hcompile)
    as (clients & _ & Hnd & _ & _ & Hmain).
  rewrite Hmain in *. clear Hmain.
  pose proof (setup_events_quiet (args_include_hidden_nodes args)
                (List.filter
                   (has_service
                      (get_service_names w (args_include_hidden_nodes args)))
                   l)) as Hsetup.
  assert (Forall (fun e => forall c r, e <> EvCallAsync c r)
            (EvGetNodeNames (args_include_hidden_nodes args)
               :: EvGetServiceNames (args_include_hidden_nodes args)
               :: map (fun k => EvCreateClient (service_of k))
                    (List.filter
                       (has_service
                          (get_service_names w
                             (args_include_hidden_nodes args))) l)))
    as Hsetup'.
  { constructor; [discriminate|]. constructor; [discriminate|].
    apply Forall_forall. intros e He. apply in_map_iff in He.
    now destruct He as (k & <- & _). }
  destruct (@dispatch_loop_spec _ _ w args clients Hnd fuel 0 []
              (futures_ok_nil clients))
    as (evs & added & Hevs & _ & _ & Hcalls & Hres); [intros k []|].
  assert (Forall (fun e => forall f, e <> EvSpinUntilFutureComplete f)
            (fst (dispatch_loop w fuel 0 args clients []))) as Hquiet.
  { apply dispatch_loop_events; repeat split; discriminate. }
  rewrite bindM_snd in Hend. cbn [snd] in Hend. rewrite bindM_snd in Hend.
  destruct Hres as [Hres|[Hres _]]; [now rewrite Hres in Hend|].
  clear Hend. simpl app in Hres.
  assert (forall k f, In (k, f) added ->
            future_request f = build_request args) as Hreq.
  { intros k f Hin.
    destruct (dispatch_loop w fuel 0 args clients []) as [evs' r] eqn:Hrun.
    simpl in Hres. subst r.
    destruct (@dispatch_loop_rounds args clients Hnd fuel 0 [] evs' added)
      as (Hall & _); try assumption.
    - apply futures_ok_nil.
    - intros k' [].
    - intros k' f' [].
    - intros k' c r _ _ Hr. lia.
    - destruct (Hall k f Hin) as (c & _ & Hf & _). now rewrite Hf. }
  rewrite bindM_fst. cbn [fst snd]. rewrite bindM_fst, Hres, Hevs.
  rewrite bindM_fst, wait_for_responses_ok. cbn [fst snd].
  rewrite bindM_fst.
  assert (Forall (fun e => (forall c r, e <> EvCallAsync c r)
                           /\ forall f, e <> EvSpinUntilFutureComplete f)
            (fst (print_responses w args regex_filter added))) as Hreport.
  { apply print_responses_events; repeat split; discriminate. }
  pose proof (awaited_of_none
                (Forall_impl _ (fun e H => proj2 H) Hreport)) as Ha.
  pose proof (calls_of_none
                (Forall_impl _ (fun e H => proj1 H) Hreport)) as Hc.
  pose proof (awaited_of_none
                (Forall_impl _ (fun e H => proj2 (proj2 H)) Hsetup)) as Ha0.
  pose proof (calls_of_none Hsetup') as Hc0.
  rewrite Hevs in Hquiet. apply awaited_of_none in Hquiet.
  rewrite !awaited_of_app, !calls_of_app, Hcalls, Ha, Hc, Hquiet, Ha0, Hc0.
  destruct (awaited_of_waits (Dict.values added)) as [-> ->].
  assert (forall r : @result NodeName unit,
            awaited_of match r with
                       | Ok _ => fst (ret (NodeName:=NodeName) (@None string))
                       | _ => []
                       end = []
            /\ calls_of match r with
                        | Ok _ => fst (ret (NodeName:=NodeName) (@None string))
                        | _ => []
                        end = []) as Htail
    by (intros [[]|e|]; now split).
  destruct (Htail (snd (print_responses w args regex_filter added)))
    as [-> ->].
  rewrite !app_nil_r. cbn [app]. split; [reflexivity|].
  apply Forall_forall. intros f Hf. unfold Dict.values in Hf.
  apply in_map_iff in Hf. destruct Hf as ([k f'] & <- & Hin).
  now apply (Hreq k).
Qed.

(** *** The names of a node *)

Lemma filter_permutation (A : Type) (f : A -> bool) (l1 l2 : list A) :
  Permutation l1 l2 -> Permutation (List.filter f l1) (List.filter f l2).
Proof.
  induction 1 as [|x l1 l2 _ IH|x y l|l1 l2 l3 _ IH1 _ IH2]; simpl.
  - constructor.
  - destruct (f x); [now constructor|exact IH].
  - destruct (f x), (f y); try apply Permutation_refl. apply perm_swap.
  - now apply Permutation_trans with (List.filter f l2).
Qed.

Lemma filter_all (A : Type) (l : list A) :
  List.filter (fun _ => true) l = l.
Proof. induction l as [|x l IH]; [reflexivity|]. simpl. now rewrite IH. Qed.

(** X13: sorting and filtering the names of a response commute.  The
    names printed for a node are the sorted list of the names that pass the
    filter: every name of the response that passes is there, as many times
    as the response has it (nothing is deduplicated), and the result does
    not depend on the order in which the node reported its names. *)
Theorem filter_and_sort_commute (regex_filter : option Pattern)
    (response response' : Response) :
  filtered_names regex_filter response
  = sorted String.leb
      (List.filter (passes regex_filter) (names response))
  /\ Permutation (filtered_names regex_filter response)
                 (List.filter (passes regex_filter) (names response))
  /\ (Permutation (names response) (names response') ->
      filtered_names regex_filter response
      = filtered_names regex_filter response').
Proof.
  assert (forall l, StronglySorted (le_of String.leb) (sorted String.leb l))
    as Hsorted.
  { intros l. apply sorted_sorted;
      [apply String.leb_total|apply string_leb_trans]. }
  assert (forall r,
            filtered_names regex_filter r
            = sorted String.leb (List.filter (passes regex_filter) (names r)))
    as Heq.
  { intros r. unfold filtered_names, passes.
    destruct regex_filter as [p|]; [|now rewrite filter_all].
    apply (@sorted_arrangement_unique _ String.leb String.leb_antisym).
    - apply filter_sorted, Hsorted.
    - apply Hsorted.
    - eapply Permutation_trans; [|apply sorted_perm].
      apply filter_permutation, Permutation_sym, sorted_perm. }
  split; [apply Heq|]. split.
  - rewrite Heq. apply Permutation_sym, sorted_perm.
  - intros Hperm. rewrite !Heq.
    apply (@sorted_of_permutation _ String.leb String.leb_total
             string_leb_trans String.leb_antisym).
    now apply filter_permutation.
Qed.

End MainProofs.

(** *** The properties on the sample graphs *)

#[local] Existing Instance MiniRe.engine.

Lemma requests_carry_the_prefixes_witness :
  request_prefixes {| request_prefixes := ["a"%string; "b"%string] |}
  = args_param_prefixes prefixed_args.
Proof.
  apply (@requests_carry_the_prefixes string string_node
           MiniRe.pattern MiniRe.engine
           (sample_world talker_names (fun _ => true)) 3 prefixed_args
           talker_client).
  vm_compute. do 5 right. left. reflexivity.
Defined.

Lemma clients_and_calls_address_listed_services_witness :
  In "/talker/list_parameters"%string
     (get_service_names (sample_world talker_names (fun _ => true)) false)
  /\ exists node,
       In node (get_node_names (sample_world talker_names (fun _ => true))
                               false)
       /\ "/talker/list_parameters"%string
          = (full_name node ++ "/list_parameters")%string
       /\ forall n,
            get_absolute_node_name
              (sample_world talker_names (fun _ => true))
              (args_node_name (sample_args (Some "talker"%string) None false))
            = Some n ->
            n <> ""%string -> full_name node = n.
Proof.
  apply (@clients_and_calls_address_listed_services string string_node
           MiniRe.pattern MiniRe.engine
           (sample_world talker_names (fun _ => true)) 3
           (sample_args (Some "talker"%string) None false)
           (EvCreateClient "/talker/list_parameters")).
  - vm_compute. do 2 right. left. reflexivity.
  - left. reflexivity.
Defined.

Lemma invalid_filter_raises_after_node_check_witness :
  sample_main (sample_world talker_names (fun _ => true)) 3
              (sample_args None (Some "*"%string) false)
  = ([EvGetNodeNames false], Raised (ReError "*")).
Proof.
  apply (@invalid_filter_raises_after_node_check string string_node
           MiniRe.pattern MiniRe.engine
           (sample_world talker_names (fun _ => true)) 3
           (sample_args None (Some "*"%string) false) "*"%string);
    reflexivity.
Defined.

Lemma calls_are_sent_when_first_ready_witness :
  exists c,
    Dict.get node_eqb sample_clients "/listener"%string = Some c
    /\ future_client (sample_future listener_client 1) = c
    /\ future_request (sample_future listener_client 1)
       = build_request (sample_args None None false)
    /\ service_is_ready (sample_world talker_names (fun _ => true)) c
         (future_round (sample_future listener_client 1)) = true
    /\ forall r, r < future_round (sample_future listener_client 1) ->
         service_is_ready (sample_world talker_names (fun _ => true)) c r
         = false.
Proof.
  apply (@calls_are_sent_when_first_ready string string_node
           (sample_world talker_names (fun _ => true))
           (sample_args None None false) sample_clients 3
           (fst (@dispatch_loop string string_node
                   (sample_world talker_names (fun _ => true)) 3 0
                   (sample_args None None false) sample_clients []))
           sample_futures).
  - repeat constructor; simpl; intuition discriminate.
  - vm_compute. reflexivity.
  - right. left. reflexivity.
Defined.

Lemma spin_once_until_the_last_call_witness :
  spins_of (fst (@dispatch_loop string string_node
                   (sample_world talker_names (fun _ => true)) 3 0
                   (sample_args None None false) sample_clients []))
  = list_max (map future_round (Dict.values sample_futures)).
Proof.
  apply (@spin_once_until_the_last_call string string_node
           (sample_world talker_names (fun _ => true))
           (sample_args None None false) sample_clients 3
           (fst (@dispatch_loop string string_node
                   (sample_world talker_names (fun _ => true)) 3 0
                   (sample_args None None false) sample_clients []))
           sample_futures).
  - repeat constructor; simpl; intuition discriminate.
  - vm_compute. reflexivity.
Defined.

Lemma no_listed_service_no_call_witness :
  sample_main bare_world 1 (sample_args None None false)
  = ([EvGetNodeNames false; EvGetServiceNames false], Ok None).
Proof.
  apply (@no_listed_service_no_call string string_node
           MiniRe.pattern MiniRe.engine bare_world 0
           (sample_args None None false) ["/talker"%string]).
  - reflexivity.
  - intros pattern H. discriminate.
  - intros k [<-|[]]. reflexivity.
Defined.

Lemma main_waits_for_a_service_never_ready_witness :
  snd (sample_main stalled_world 4 (sample_args None None false)) = OutOfFuel
  /\ spins_of (fst (sample_main stalled_world 4
                      (sample_args None None false))) = 4
  /\ awaited_of (fst (sample_main stalled_world 4
                        (sample_args None None false))) = []
  /\ stdout_of (fst (sample_main stalled_world 4
                       (sample_args None None false))) = []
  /\ stderr_of (fst (sample_main stalled_world 4
                       (sample_args None None false))) = [].
Proof.
  apply (@main_waits_for_a_service_never_ready string string_node
           MiniRe.pattern MiniRe.engine stalled_world
           (sample_args None None false)
           ["/talker"%string; "/listener"%string] "/talker"%string).
  - reflexivity.
  - intros pattern H. discriminate.
  - left. reflexivity.
  - reflexivity.
  - intros c r Hc. simpl. rewrite Hc. reflexivity.
Defined.

Lemma main_returns_when_services_get_ready_witness :
  snd (sample_main (sample_world talker_names (fun _ => true)) 3
                   (sample_args None None true)) = Ok None.
Proof.
  apply (@main_returns_when_services_get_ready string string_node
           MiniRe.pattern MiniRe.engine
           (sample_world talker_names (fun _ => true)) 2
           (sample_args None None true)
           ["/talker"%string; "/listener"%string]).
  - reflexivity.
  - intros pattern H. discriminate.
  - intros _ node names name Hin.
    exists {| descriptor_name := name; descriptor_type := 2%N |}.
    split; [|reflexivity]. simpl.
    apply (in_map (fun n => {| descriptor_name := n;
                               descriptor_type := 2%N |})).
    apply filter_In. now split.
  - intros k c _ _ _. exists 1. split; [lia|]. simpl. apply orb_true_r.
  - lia.
Defined.

Lemma main_raises_only_for_filter_or_type_witness :
  (exists pattern,
     KeyErrorName "use_sim_time" = @ReError string pattern
     /\ args_filter (sample_args None None true) = Some pattern
     /\ re_compile pattern = None)
  \/ (exists name node names,
        @KeyErrorName string "use_sim_time" = KeyErrorName name
        /\ args_param_type (sample_args None None true) = true
        /\ In (EvDescribeParameters node names)
              (fst (sample_main (sample_world talker_names (fun _ => false))
                                3 (sample_args None None true)))
        /\ In name names
        /\ ~ has_descriptor
               (call_describe_parameters
                  (sample_world talker_names (fun _ => false)) node names)
               name).
Proof.
  apply (@main_raises_only_for_filter_or_type string string_node
           MiniRe.pattern MiniRe.engine
           (sample_world talker_names (fun _ => false)) 3
           (sample_args None None true)).
  vm_compute. reflexivity.
Defined.

Lemma every_call_is_awaited_in_order_witness :
  map future_client
      (awaited_of (fst (sample_main
                          (sample_world talker_names (fun _ => true)) 3
                          (sample_args None None false))))
  = calls_of (fst (sample_main
                     (sample_world talker_names (fun _ => true)) 3
                     (sample_args None None false)))
  /\ Forall (fun f => future_request f
                      = build_request (sample_args None None false))
            (awaited_of (fst (sample_main
                                (sample_world talker_names (fun _ => true)) 3
                                (sample_args None None false)))).
Proof.
  apply (@every_call_is_awaited_in_order string string_node
           MiniRe.pattern MiniRe.engine
           (sample_world talker_names (fun _ => true)) 3
           (sample_args None None false)).
  vm_compute. discriminate.
Defined.

Lemma filter_and_sort_commute_witness :
  filtered_names (re_compile "^x"%string)
                 {| names := ["x2"%string; "y1"%string; "x1"%string] |}
  = filtered_names (re_compile "^x"%string)
                   {| names := ["y1"%string; "x2"%string; "x1"%string] |}.
Proof.
  apply (@filter_and_sort_commute MiniRe.pattern MiniRe.engine
           (re_compile "^x"%string)
           {| names := ["x2"%string; "y1"%string; "x1"%string] |}
           {| names := ["y1"%string; "x2"%string; "x1"%string] |}).
  simpl. apply perm_swap.
Defined.

End ParamListMoreProofs.

(** ** More on [ros2cli/helpers.py] *)

Module HelpersMoreProofs.

Import Helpers HelpersRounding HelpersTrace Hooks.
Import WaitForExamples BindExamples HooksExamples HelpersProofs.

(** *** Counting the events of [wait_for] *)

Section WaitForCounts.

Variable World : Type.
Variable predicate : World -> bool * World.
Variable time_time : World -> Q * World.
Variable time_sleep : Q -> World -> World.

Local Abbreviation loop := (wait_for_loop predicate time_time time_sleep).
Local Abbreviation rounds := (after_rounds predicate time_time time_sleep).

Lemma sleeps_of_app (l1 l2 : list event) :
  sleeps_of (l1 ++ l2) = (sleeps_of l1 + sleeps_of l2)%nat.
Proof.
  induction l1 as [|e l1 IH]; [reflexivity|].
  destruct e; simpl; now rewrite IH.
Qed.

Lemma evaluations_of_app (l1 l2 : list event) :
  evaluations_of (l1 ++ l2) = (evaluations_of l1 + evaluations_of l2)%nat.
Proof.
  induction l1 as [|e l1 IH]; [reflexivity|].
  destruct e; simpl; now rewrite IH.
Qed.

Lemma clock_reads_of_app (l1 l2 : list event) :
  clock_reads_of (l1 ++ l2) = (clock_reads_of l1 + clock_reads_of l2)%nat.
Proof.
  induction l1 as [|e l1 IH]; [reflexivity|].
  destruct e; simpl; now rewrite IH.
Qed.

Lemma sleep_periods_of_app (l1 l2 : list event) :
  sleep_periods_of (l1 ++ l2) = sleep_periods_of l1 ++ sleep_periods_of l2.
Proof.
  induction l1 as [|e l1 IH]; [reflexivity|].
  destruct e; simpl; now rewrite IH.
Qed.

(** The events of [n] full rounds. *)
Lemma rounds_counts (deadline : xtime) (period : Q) (n : nat) :
  forall w wn tr,
    rounds n deadline period w = Some (wn, tr) ->
    sleeps_of tr = n
    /\ evaluations_of tr = n
    /\ clock_reads_of tr = n
    /\ sleep_periods_of tr = repeat period n
    /\ existsb is_break tr = false.
Proof.
  induction n as [|n IH]; intros w wn tr H.
  - injection H as _ <-. now repeat split.
  - simpl in H. destruct (predicate w) as [p w1]. destruct p; [discriminate|].
    destruct (time_time w1) as [t w2].
    destruct (past t deadline); [discriminate|].
    destruct (rounds n deadline period (time_sleep period w2))
      as [[wn' tr']|] eqn:Hn; [|discriminate].
    injection H as _ <-. destruct (IH _ _ _ Hn) as (H1 & H2 & H3 & H4 & H5).
    simpl. now rewrite H1, H2, H3, H4, H5.
Qed.

(** A run of the loop that returns: some full rounds, then the exit. *)
Lemma loop_returns_rounds (deadline : xtime) (period : Q) (fuel : nat) :
  forall w b w' tr,
    loop fuel deadline period w = Some (b, w', tr) ->
    exists k wk trk tail,
      (k < fuel)%nat
      /\ rounds k deadline period w = Some (wk, trk)
      /\ tr = trk ++ tail
      /\ (tail = [EvPredicate true; EvPredicate b]
          \/ exists t,
               tail = [EvPredicate false; EvTime t; EvBreak; EvPredicate b]
               /\ past t deadline = true).
Proof.
  induction fuel as [|fuel IH]; intros w b w' tr H; [discriminate|].
  simpl in H. destruct (predicate w) as [p w1] eqn:Hp. destruct p.
  - unfold final_check in H. destruct (predicate w1) as [r w2].
    injection H as <- <- <-.
    exists 0%nat, w, [], [EvPredicate true; EvPredicate r].
    split; [lia|]. split; [reflexivity|]. split; [reflexivity|now left].
  - destruct (time_time w1) as [t w2] eqn:Ht.
    destruct (past t deadline) eqn:Hpast.
    + unfold final_check in H. destruct (predicate w2) as [r w3].
      injection H as <- <- <-.
      exists 0%nat, w, [],
        [EvPredicate false; EvTime t; EvBreak; EvPredicate r].
      split; [lia|]. split; [reflexivity|]. split; [reflexivity|].
      right. now exists t.
    + destruct (loop fuel deadline period (time_sleep period w2))
        as [[[b' w''] tr']|] eqn:Hl; [|discriminate].
      injection H as <- <- <-.
      destruct (IH _ _ _ _ Hl) as (k & wk & trk & tail & Hk & Hr & -> & Hx).
      exists (S k), wk,
        ([EvPredicate false; EvTime t; EvSleep period] ++ trk), tail.
      split; [lia|]. split.
      { simpl. rewrite Hp, Ht, Hpast, Hr. reflexivity. }
      split; [reflexivity|exact Hx].
Qed.

(** X14: in every run of [wait_for] that returns, the predicate is
    evaluated once before each sleep and twice more: once to leave the
    loop and once for the value returned, so at least twice even when it
    holds at once.  The clock is read once at the start and once per
    evaluation that found the predicate false, and every [time.sleep] is
    for [period]. *)
Theorem wait_for_evaluations_and_sleeps (fuel : nat) (timeout period : Q)
    (w w' : World) (b : bool) (tr : list event) :
  wait_for predicate time_time time_sleep fuel timeout period w
  = Some (b, w', tr) ->
  evaluations_of tr = (sleeps_of tr + 2)%nat
  /\ clock_reads_of tr
     = (1 + sleeps_of tr + (if existsb is_break tr then 1 else 0))%nat
  /\ sleep_periods_of tr = repeat period (sleeps_of tr)
  /\ (sleeps_of tr < fuel)%nat.
Proof.
  unfold wait_for. destruct (time_time w) as [t0 w0].
  destruct (loop fuel (xadd t0 (effective_timeout timeout)) period w0)
    as [[[b' w''] tr']|] eqn:Hl; [|discriminate].
  intros H. injection H as <- <- <-.
  destruct (loop_returns_rounds _ _ _ _ Hl)
    as (k & wk & trk & tail & Hk & Hr & -> & Hx).
  destruct (rounds_counts _ _ _ _ Hr) as (H1 & H2 & H3 & H4 & H5).
  cbn [app evaluations_of clock_reads_of sleeps_of sleep_periods_of existsb
       is_break orb].
  rewrite evaluations_of_app, clock_reads_of_app, sleeps_of_app,
    sleep_periods_of_app, existsb_app, H1, H2, H3, H4, H5.
  destruct Hx as [->|(t & -> & _)]; simpl;
    rewrite ?app_nil_r, ?Nat.add_0_r; repeat split; try lia.
Qed.

End WaitForCounts.

(** *** [wait_for] under a clock that advances *)

Section WaitForClock.

Variable World : Type.
Variable predicate : World -> bool * World.
Variable time_time : World -> Q * World.
Variable time_sleep : Q -> World -> World.

Local Abbreviation loop := (wait_for_loop predicate time_time time_sleep).
Local Abbreviation rounds := (after_rounds predicate time_time time_sleep).

(** [now w] is the time in the world [w].  The clock does not run
    backwards: a call to the predicate takes some time or none,
    [time.time] returns a time between the one it was called at and the
    one it returns at, and [time.sleep(period)] lasts [period] at least. *)
Variable now : World -> Q.
Variable period : Q.

Hypothesis predicate_takes_time :
  forall w, now w <= now (snd (predicate w)).
Hypothesis time_is_read :
  forall w, now w <= fst (time_time w)
            /\ fst (time_time w) <= now (snd (time_time w)).
Hypothesis sleep_lasts :
  forall w, now w + period <= now (time_sleep period w).





(** With the exact sum for the float sum, [wait_for_rounded] is
    [wait_for]. *)
Lemma wait_for_rounded_exact (fuel : nat) (timeout : Q) (w : World) :
  wait_for_rounded predicate time_time time_sleep Qplus fuel timeout period w
  = wait_for predicate time_time time_sleep fuel timeout period w.
Proof.
  unfold wait_for_rounded, wait_for. destruct (time_time w) as [t0 w0].
  now destruct (effective_timeout timeout).
Qed.


End WaitForClock.

(** *** Merging keyword arguments *)

Section UpdateFacts.

Variables K V : Type.
Variable eqb : K -> K -> bool.
Hypothesis eqb_eq : forall a b, eqb a b = true <-> a = b.

Local Abbreviation set := (Dict.set eqb).
Local Abbreviation update := (Dict.update eqb).
Local Abbreviation keys := (@Dict.keys K V).

Lemma eqb_refl (k : K) : eqb k k = true.
Proof. now apply eqb_eq. Qed.

Lemma eqb_neq (a b : K) : a <> b -> eqb a b = false.
Proof.
  intros H. destruct (eqb a b) eqn:E; [|reflexivity].
  now apply eqb_eq in E.
Qed.

Lemma update_cons (d e : Dict.dict K V) (k : K) (v : V) :
  update d ((k, v) :: e) = update (set d k v) e.
Proof. reflexivity. Qed.

Lemma set_set_same (d : Dict.dict K V) (k : K) (v v' : V) :
  set (set d k v') k v = set d k v.
Proof.
  induction d as [|[k0 v0] d IH]; simpl.
  - now rewrite eqb_refl.
  - destruct (eqb k0 k) eqn:E; simpl; rewrite E; [reflexivity|].
    now rewrite IH.
Qed.

Lemma set_set_other (d : Dict.dict K V) (k k1 : K) (v v1 : V) :
  In k (keys d) -> k <> k1 ->
  set (set d k1 v1) k v = set (set d k v) k1 v1.
Proof.
  intros Hin Hne. induction d as [|[k0 v0] d IH]; [easy|].
  simpl. destruct (eqb k0 k1) eqn:E1, (eqb k0 k) eqn:E; simpl;
    rewrite ?E1, ?E; try reflexivity.
  - apply eqb_eq in E1, E. congruence.
  - f_equal. apply IH. destruct Hin as [Hin|Hin]; [|exact Hin].
    simpl in Hin. subst k0. now rewrite eqb_refl in E.
Qed.

Lemma in_keys_set_intro (d : Dict.dict K V) (k k1 : K) (v1 : V) :
  In k (keys d) -> In k (keys (set d k1 v1)).
Proof.
  induction d as [|[k0 v0] d IH]; [easy|]. simpl.
  destruct (eqb k0 k1); simpl; intros [H|H]; auto.
Qed.

(** Writing a key that is there commutes with an update of other keys. *)
Lemma set_update_other (e d : Dict.dict K V) (k : K) (v : V) :
  ~ In k (keys e) -> In k (keys d) ->
  set (update d e) k v = update (set d k v) e.
Proof.
  revert d. induction e as [|[k1 v1] e IH]; intros d Hnot Hin;
    [reflexivity|].
  rewrite !update_cons. simpl in Hnot.
  rewrite IH; [|tauto|now apply in_keys_set_intro].
  f_equal. apply set_set_other; [exact Hin|]. intros ->. tauto.
Qed.

Lemma in_keys_set_same (d : Dict.dict K V) (k : K) (v : V) :
  In k (keys (set d k v)).
Proof.
  induction d as [|[k0 v0] d IH]; simpl; [now left|].
  destruct (eqb k0 k) eqn:E; simpl; [|now right].
  left. now apply eqb_eq.
Qed.

(** An update by a dictionary in which one key was written. *)
Lemma update_set (e d : Dict.dict K V) (k : K) (v : V) :
  NoDup (keys e) ->
  update d (set e k v) = set (update d e) k v.
Proof.
  revert d. induction e as [|[k1 v1] e IH]; intros d Hnd; [reflexivity|].
  inversion Hnd as [|? ? Hnot Hnd']; subst. simpl.
  destruct (eqb k1 k) eqn:E.
  - apply eqb_eq in E. subst k1. rewrite !update_cons.
    rewrite set_update_other; [|exact Hnot|apply in_keys_set_same].
    now rewrite set_set_same.
  - rewrite !update_cons. now apply IH.
Qed.

Lemma NoDup_keys_set' (d : Dict.dict K V) (k : K) (v : V) :
  NoDup (keys d) -> NoDup (keys (set d k v)).
Proof.
  induction d as [|[k0 v0] d IH]; intros Hnd; simpl.
  - repeat constructor. easy.
  - inversion Hnd as [|? ? Hnot Hnd']; subst.
    destruct (eqb k0 k) eqn:E; simpl; [now constructor|].
    constructor; [|now apply IH].
    intros Hin. apply Hnot. clear IH Hnd Hnd' Hnot.
    induction d as [|[k2 v2] d IH]; simpl in *.
    + destruct Hin as [->|[]]. now rewrite eqb_refl in E.
    + destruct (eqb k2 k); simpl in Hin; destruct Hin as [H|H]; auto.
Qed.

Lemma update_assoc (d3 d1 d2 : Dict.dict K V) :
  NoDup (keys d2) ->
  update d1 (update d2 d3) = update (update d1 d2) d3.
Proof.
  revert d1 d2. induction d3 as [|[k v] d3 IH]; intros d1 d2 Hnd;
    [reflexivity|].
  rewrite !update_cons, IH by now apply NoDup_keys_set'.
  now rewrite update_set.
Qed.

Lemma mem_set (d : Dict.dict K V) (k k' : K) (v : V) :
  Dict.mem eqb (set d k v) k' = eqb k k' || Dict.mem eqb d k'.
Proof.
  unfold Dict.mem. induction d as [|[k0 v0] d IH]; simpl.
  - now destruct (eqb k k').
  - destruct (eqb k0 k) eqn:E; simpl.
    + apply eqb_eq in E. subst k0. now destruct (eqb k k').
    + destruct (eqb k0 k'); [now rewrite orb_true_r|exact IH].
Qed.

(** A key is in the merged dictionary when it is in one of the two. *)
Lemma mem_update (e d : Dict.dict K V) (k : K) :
  Dict.mem eqb (update d e) k = Dict.mem eqb d k || Dict.mem eqb e k.
Proof.
  revert d. induction e as [|[k1 v1] e IH]; intros d.
  - simpl. now rewrite orb_false_r.
  - rewrite update_cons, IH, mem_set. unfold Dict.mem at 4. simpl.
    now destruct (eqb k1 k), (Dict.mem eqb d k).
Qed.

End UpdateFacts.

(** *** [bind], twice *)

Section BindTwice.

Variable Value : Type.
Variable Result : Type.

(** X16: binding in two steps is binding once.  A function bound to
    [args1] and [kwargs1] and then to [args2] and [kwargs2] behaves, and
    looks to [inspect.signature], like the function bound once to the
    positional arguments in a row and to the keyword arguments merged,
    those of the second step winning; keywords given at the call win over
    both. *)
Theorem bind_twice_is_bind_once (f : pyfunction Value Result)
    (args1 args2 : list Value) (kwargs1 kwargs2 : kwargs_t Value) :
  NoDup (Dict.keys kwargs2) ->
  let twice := bind (bind f args1 kwargs1) args2 kwargs2 in
  let once :=
    bind f (args1 ++ args2) (Dict.update String.eqb kwargs1 kwargs2) in
  (forall args kwargs,
     fn_call twice args kwargs = fn_call once args kwargs)
  /\ (forall args kwargs,
        fn_call twice args kwargs
        = fn_call f (args1 ++ args2 ++ args)
            (Dict.update String.eqb
               (Dict.update String.eqb kwargs1 kwargs2) kwargs))
  /\ inspect_signature twice = inspect_signature once
  /\ fn_name twice = fn_name once
  /\ fn_doc twice = fn_doc once.
Proof.
  intros Hnd twice once.
  assert (forall args kwargs,
            fn_call twice args kwargs
            = fn_call f (args1 ++ args2 ++ args)
                (Dict.update String.eqb
                   (Dict.update String.eqb kwargs1 kwargs2) kwargs)) as H.
  { intros args kwargs. unfold twice, bind, partial_call. cbn [fn_call].
    now rewrite (@update_assoc _ _ String.eqb String.eqb_eq kwargs kwargs1
                   kwargs2 Hnd). }
  split; [|split; [exact H|now repeat split]].
  intros args kwargs. rewrite H. unfold once, bind, partial_call.
  cbn [fn_call]. now rewrite app_assoc.
Qed.

End BindTwice.

(** *** [before_invocation] and [pretty_print_call] *)

Section HooksProofs.

Variable Value : Type.
Variable Exn : Type.
Variable State : Type.
Variable repr : Value -> string.
Variable none : Value.
Variable missing_argument : Exn.
Variable multiple_values : Exn.

Local Abbreviation func_t := (Hooks.func_t Value Exn State).
Local Abbreviation hook_t := (Hooks.hook_t Value Exn State).
Local Abbreviation pretty_hook :=
  (pretty_print_hook State repr none missing_argument multiple_values).

(** X17: the function made by [before_invocation] calls the hook, then
    [func] with the arguments it was given, and returns what [func]
    returns: the value of the hook is dropped.  When the hook raises,
    [func] is not called and the exception is that of the call.  The hook
    gets [(func, *args, **kwargs)] when the number of its parameters, less
    one for a bound method, is positive, and no argument otherwise: so a
    bound method reported with a single parameter is called without
    arguments.  The function keeps the name, the docstring and the
    signature of [func]. *)
Theorem before_invocation_calls_hook_then_func (func : func_t)
    (hook : hook_t) (args : list Value) (kwargs : kwargs_t Value)
    (w : world State) :
  let wrapper := before_invocation func hook in
  let hooked := hook_invocation hook func args kwargs in
  (forall v w1, hooked w = (Returned Exn v, w1) ->
     fn_call wrapper args kwargs w = fn_call func args kwargs w1)
  /\ (forall e w1, hooked w = (Raised Value e, w1) ->
        fn_call wrapper args kwargs w = (Raised Value e, w1))
  /\ (hook_is_method hook = false -> (0 < hook_parameters hook)%nat ->
      hooked = hook_call hook func args kwargs)
  /\ (hook_is_method hook = false -> hook_parameters hook = 0%nat ->
      hooked = hook_call0 hook)
  /\ (hook_is_method hook = true -> (1 < hook_parameters hook)%nat ->
      hooked = hook_call hook func args kwargs)
  /\ (hook_is_method hook = true -> (hook_parameters hook <= 1)%nat ->
      hooked = hook_call0 hook)
  /\ inspect_signature wrapper = inspect_signature func
  /\ fn_name wrapper = fn_name func
  /\ fn_doc wrapper = fn_doc func.
Proof.
  intros wrapper hooked.
  split; [|split].
  - intros v w1 H. unfold wrapper, before_invocation. cbn [fn_call].
    unfold and_then. fold hooked. now rewrite H.
  - intros e w1 H. unfold wrapper, before_invocation. cbn [fn_call].
    unfold and_then. fold hooked. now rewrite H.
  - unfold hooked, hook_invocation, nargs_of.
    split; [|split; [|split; [|split; [|now repeat split]]]];
      intros -> Hn.
    + destruct (Z.ltb_spec 0 (Z.of_nat (hook_parameters hook)));
        [reflexivity|lia].
    + rewrite Hn. reflexivity.
    + destruct (Z.ltb_spec 0 (Z.of_nat (hook_parameters hook) - 1));
        [reflexivity|lia].
    + destruct (Z.ltb_spec 0 (Z.of_nat (hook_parameters hook) - 1));
        [lia|reflexivity].
Qed.

Lemma instrument_snoc (func : func_t) (hooks : list hook_t) (hook : hook_t) :
  instrument func (hooks ++ [hook])
  = before_invocation (instrument func hooks) hook.
Proof. unfold instrument. now rewrite fold_left_app. Qed.

Lemma instrument_looks_like_func (func : func_t) (hooks : list hook_t) :
  inspect_signature (instrument func hooks) = inspect_signature func
  /\ fn_name (instrument func hooks) = fn_name func
  /\ fn_doc (instrument func hooks) = fn_doc func.
Proof.
  induction hooks as [|hook hooks IH] using rev_ind; [now repeat split|].
  rewrite instrument_snoc. exact IH.
Qed.

(** The world after the lines were printed. *)
Lemma print_snoc (lines : list string) (line : string) (w : world State) :
  fold_left (fun w l => print l w) (lines ++ [line]) w
  = print line (fold_left (fun w l => print l w) lines w).
Proof. now rewrite fold_left_app. Qed.

(** The call of [pretty_print_call] by the wrapper (line 69). *)
Lemma pretty_hook_invocation (g : func_t) (args : list Value)
    (kwargs : kwargs_t Value) (w : world State) :
  hook_invocation pretty_hook g args kwargs w
  = if Dict.mem String.eqb kwargs "func"%string
    then (Raised Value multiple_values, w)
    else (Returned Exn none, print (call_text repr g args kwargs) w).
Proof.
  unfold hook_invocation.
  cbn [nargs_of pretty_print_hook hook_parameters hook_is_method hook_call
       Z.of_nat Pos.of_succ_nat Pos.succ Z.ltb Z.compare].
  now destruct (Dict.mem String.eqb kwargs "func"%string).
Qed.

(** X18: [pretty_print_call] as the hook of [before_invocation].  A call
    of the function made without a keyword named [func] prints one line,
    the name of [func] with the arguments of the call in parentheses,
    before [func] runs, and then is the call of [func].  Wrapped [n] times,
    also around other hooks that were added before, the line is printed
    [n] times, each time with the name of [func] itself, since every
    wrapper takes the name of what it wraps.  A call with a keyword named
    [func] raises the [TypeError] of an argument given twice: nothing is
    printed and [func] is not called.  Whatever the hooks, the function
    made keeps the name, the docstring and the signature of [func]. *)
Theorem traced_call_prints_then_calls (func : func_t) (n : nat)
    (hooks : list hook_t) (args : list Value) (kwargs : kwargs_t Value)
    (w : world State) :
  let line := call_text repr func args kwargs in
  (Dict.mem String.eqb kwargs "func"%string = false ->
   fn_call (instrument func (repeat pretty_hook n)) args kwargs w
   = fn_call func args kwargs
       (fold_left (fun w l => print l w) (repeat line n) w)
   /\ fn_call (before_invocation func pretty_hook) args kwargs w
      = fn_call func args kwargs (print line w)
   /\ fn_call (instrument func (hooks ++ repeat pretty_hook n)) args kwargs w
      = fn_call (instrument func hooks) args kwargs
          (fold_left (fun w l => print l w) (repeat line n) w))
  /\ (Dict.mem String.eqb kwargs "func"%string = true ->
      fn_call (before_invocation func pretty_hook) args kwargs w
      = (Raised Value multiple_values, w))
  /\ inspect_signature (instrument func hooks) = inspect_signature func
  /\ fn_name (instrument func hooks) = fn_name func
  /\ fn_doc (instrument func hooks) = fn_doc func.
Proof.
  intros line.
  split; [|split; [|apply instrument_looks_like_func]].
  - intros Hfunc.
    assert (forall g : func_t,
              fn_name g = fn_name func ->
              forall m w0,
                fn_call (instrument g (repeat pretty_hook m)) args kwargs w0
                = fn_call g args kwargs
                    (fold_left (fun w l => print l w) (repeat line m) w0))
      as Hrepeat.
    { intros g Hname m. induction m as [|m IH]; intros w0; [reflexivity|].
      replace (repeat pretty_hook (S m))
        with (repeat pretty_hook m ++ [pretty_hook])
        by (now rewrite <- repeat_cons).
      rewrite instrument_snoc.
      unfold before_invocation at 1. cbn [fn_call].
      unfold and_then. rewrite pretty_hook_invocation, Hfunc.
      replace (call_text repr (instrument g (repeat pretty_hook m))
                         args kwargs)
        with line.
      - now rewrite IH.
      - unfold line, call_text.
        destruct (instrument_looks_like_func g (repeat pretty_hook m))
          as (_ & -> & _). now rewrite Hname. }
    split; [now apply Hrepeat|].
    split; [exact (Hrepeat func eq_refl 1%nat w)|].
    unfold instrument at 1. rewrite fold_left_app.
    fold (instrument func hooks).
    apply (Hrepeat (instrument func hooks)).
    apply instrument_looks_like_func.
  - intros Hfunc. unfold before_invocation. cbn [fn_call].
    unfold and_then. now rewrite pretty_hook_invocation, Hfunc.
Qed.

(** X19: tracing and binding do not commute.  The keywords bound have no
    [func] among them, as [bind] would not take it.  For a call without a
    keyword named [func], a bound function that is traced prints the
    arguments of the call alone, without those that were bound; a traced
    function that is bound prints them all, the bound ones first and the
    keywords merged.  Both then call [func] with the same arguments, and
    both show its signature.  With a keyword named [func] at the call,
    both raise the [TypeError] of an argument given twice. *)
Theorem tracing_a_bound_function_hides_bound_arguments (func : func_t)
    (args1 args : list Value) (kwargs1 kwargs : kwargs_t Value)
    (w : world State) :
  let all_args := args1 ++ args in
  let all_kwargs := Dict.update String.eqb kwargs1 kwargs in
  let traced_bound := before_invocation (bind func args1 kwargs1) pretty_hook in
  let bound_traced := bind (before_invocation func pretty_hook) args1 kwargs1 in
  Dict.mem String.eqb kwargs1 "func"%string = false ->
  (Dict.mem String.eqb kwargs "func"%string = false ->
   fn_call traced_bound args kwargs w
   = fn_call func all_args all_kwargs
       (print (call_text repr func args kwargs) w)
   /\ fn_call bound_traced args kwargs w
      = fn_call func all_args all_kwargs
          (print (call_text repr func all_args all_kwargs) w))
  /\ (Dict.mem String.eqb kwargs "func"%string = true ->
      fn_call traced_bound args kwargs w = (Raised Value multiple_values, w)
      /\ fn_call bound_traced args kwargs w
         = (Raised Value multiple_values, w))
  /\ inspect_signature traced_bound = inspect_signature func
  /\ inspect_signature bound_traced = inspect_signature func.
Proof.
  intros all_args all_kwargs traced_bound bound_traced H1.
  assert (forall g a k,
            fn_call (before_invocation g pretty_hook) a k w
            = if Dict.mem String.eqb k "func"%string
              then (Raised Value multiple_values, w)
              else fn_call g a k (print (call_text repr g a k) w))
    as Htraced.
  { intros g a k. unfold before_invocation. cbn [fn_call].
    unfold and_then. rewrite pretty_hook_invocation.
    now destruct (Dict.mem String.eqb k "func"%string). }
  assert (fn_call bound_traced args kwargs w
          = fn_call (before_invocation func pretty_hook)
                    all_args all_kwargs w) as Hbound by reflexivity.
  assert (Dict.mem String.eqb all_kwargs "func"%string
          = Dict.mem String.eqb kwargs1 "func"%string
            || Dict.mem String.eqb kwargs "func"%string) as Hmem
    by apply (@mem_update _ _ String.eqb String.eqb_eq).
  split; [|split; [|now split]].
  - intros H. split.
    + unfold traced_bound. now rewrite Htraced, H.
    + rewrite Hbound, Htraced, Hmem, H1, H. reflexivity.
  - intros H. split.
    + unfold traced_bound. now rewrite Htraced, H.
    + rewrite Hbound, Htraced, Hmem, H, orb_true_r. reflexivity.
Qed.

End HooksProofs.

(** *** The properties on the samples *)

Lemma wait_for_evaluations_and_sleeps_witness :
  let tr :=
    [EvTime 0;
     EvPredicate false; EvTime 0; EvSleep 1;
     EvPredicate false; EvTime 1; EvSleep 1;
     EvPredicate false; EvTime 2; EvSleep 1;
     EvPredicate false; EvTime 3; EvBreak; EvPredicate false] in
  evaluations_of tr = (sleeps_of tr + 2)%nat
  /\ clock_reads_of tr
     = (1 + sleeps_of tr + (if existsb is_break tr then 1 else 0))%nat
  /\ sleep_periods_of tr = repeat 1 (sleeps_of tr)
  /\ (sleeps_of tr < 4)%nat.
Proof.
  exact (@wait_for_evaluations_and_sleeps nat (ticking_predicate None)
           ticking_time ticking_sleep 4 2 1 0%nat 3%nat false _ eq_refl).
Defined.


Lemma bind_twice_is_bind_once_witness :
  fn_call (bind (bind add [1%nat] []) [2%nat] []) [] [] = Some 3%nat.
Proof.
  destruct (@bind_twice_is_bind_once nat (option nat) add [1%nat] [2%nat]
              [] [] (NoDup_nil _)) as (_ & H & _).
  exact (H [] []).
Defined.

Lemma before_invocation_calls_hook_then_func_witness :
  fn_call (before_invocation noisy_add failing_hook) [1%nat; 2%nat] []
          empty_world
  = (Raised nat tt, empty_world).
Proof.
  destruct (@before_invocation_calls_hook_then_func nat unit unit
              noisy_add failing_hook [1%nat; 2%nat] [] empty_world)
    as (_ & H & _).
  exact (H tt empty_world eq_refl).
Defined.

Lemma traced_call_prints_then_calls_witness :
  fn_call (before_invocation noisy_add
             (pretty_print_hook unit sample_repr 0%nat tt tt))
          [1%nat; 2%nat] [] empty_world
  = (Returned unit 3%nat,
     {| stdout := ["add(1, 2)"%string; "adding"%string]; state := tt |})
  /\ fn_call (before_invocation noisy_add
                (pretty_print_hook unit sample_repr 0%nat tt tt))
             [1%nat] [("func"%string, 2%nat)] empty_world
     = (Raised nat tt, empty_world).
Proof.
  split.
  - destruct (@traced_call_prints_then_calls nat unit unit sample_repr
                0%nat tt tt noisy_add 1 [] [1%nat; 2%nat] [] empty_world)
      as ((_ & H & _) & _); [reflexivity|].
    exact (eq_trans H eq_refl).
  - destruct (@traced_call_prints_then_calls nat unit unit sample_repr
                0%nat tt tt noisy_add 1 [] [1%nat]
                [("func"%string, 2%nat)] empty_world)
      as (_ & H & _).
    exact (H eq_refl).
Defined.

Lemma tracing_a_bound_function_hides_bound_arguments_witness :
  fn_call (before_invocation (bind noisy_add [1%nat] [])
             (pretty_print_hook unit sample_repr 0%nat tt tt))
          [2%nat] [] empty_world
  = (Returned unit 3%nat,
     {| stdout := ["add(2)"%string; "adding"%string]; state := tt |})
  /\ fn_call (bind (before_invocation noisy_add
                      (pretty_print_hook unit sample_repr 0%nat tt tt))
                   [1%nat] [])
             [2%nat] [] empty_world
     = (Returned unit 3%nat,
        {| stdout := ["add(1, 2)"%string; "adding"%string]; state := tt |}).
Proof.
  destruct (@tracing_a_bound_function_hides_bound_arguments nat unit unit
              sample_repr 0%nat tt tt noisy_add [1%nat] [2%nat] [] []
              empty_world eq_refl)
    as (H & _).
  destruct (H eq_refl) as [H1 H2].
  split; [exact (eq_trans H1 eq_refl)|exact (eq_trans H2 eq_refl)].
Defined.

End HelpersMoreProofs.
